(** * Delta baking service of bar-lobby: a shallow embedding and its properties

    Source: [src/main/content/mods/delta-baking.service.ts].

    The service bakes a base game directory and an ordered list of mod
    overlays into one directory below [<WRITE_DATA_PATH>/baked-games], named
    after a SHA-256 fingerprint of the combination.

    Modelling conventions
    - JavaScript strings are [string]s holding the UTF-8 bytes of a
      well-formed text (the bytes that [createHash("sha256").update(content)]
      digests); [String.prototype.toLowerCase] is the case conversion of
      Unicode on the characters that these bytes encode, and the flag [i] of
      a regular expression with an ASCII pattern folds the ASCII letters.
    - A path is the list of its components below the root of the file system
      (POSIX separators, no symbolic links); [path.join p name] is
      [p ++ [name]] for a plain name, and a path string given by the caller is
      resolved lexically as [path.join] and [path.resolve] do.
    - The file system is a tree of files and directories with modification
      times; a directory lists its entries in the order that [readdir]
      returns them.  Every [fs] call is a function on the [world], which also
      carries the clock, the calls that the environment rejects, the log and
      the trace of the writes performed.
    - [async] functions run without interleaving: one call is one sequential
      computation in the monad [M], whose outcome is a value, a thrown error,
      or [OutOfFuel] when a recursion went deeper than the bound it was
      given ([overlayDirectory] follows the tree it reads from the disk while
      it writes to it, so its recursion has no structural bound). *)

From Stdlib Require Import String Ascii List ZArith NArith Bool Lia.
From Stdlib Require DecimalString.
Import ListNotations.

Local Open Scope string_scope.
Local Open Scope list_scope.

(* ================================================================== *)
(** * SHA-256 (FIPS 180-4), as computed by [createHash("sha256")] *)
(* ================================================================== *)

Module Sha256.
Local Open Scope Z_scope.

Definition mask32 : Z := 0xffffffff.
Definition wrap (x : Z) : Z := Z.land x mask32.
Definition plus32 (x y : Z) : Z := wrap (x + y).
Definition rotr (n x : Z) : Z := Z.lor (Z.shiftr x n) (wrap (Z.shiftl x (32 - n))).
Definition xor3 (a b c : Z) : Z := Z.lxor (Z.lxor a b) c.

Definition Ch (x y z : Z) : Z := Z.lxor (Z.land x y) (Z.land (Z.lxor x mask32) z).
Definition Maj (x y z : Z) : Z := xor3 (Z.land x y) (Z.land x z) (Z.land y z).
Definition Sigma0 (x : Z) : Z := xor3 (rotr 2 x) (rotr 13 x) (rotr 22 x).
Definition Sigma1 (x : Z) : Z := xor3 (rotr 6 x) (rotr 11 x) (rotr 25 x).
Definition sigma0 (x : Z) : Z := xor3 (rotr 7 x) (rotr 18 x) (Z.shiftr x 3).
Definition sigma1 (x : Z) : Z := xor3 (rotr 17 x) (rotr 19 x) (Z.shiftr x 10).

(** The constants of FIPS 180-4, 4.2.2 and 5.3.3, from their definition:
    the first 32 bits of the fractional parts of the cube roots of the first
    64 primes, and of the square roots of the first 8. *)
Definition is_prime (n : nat) : bool :=
  forallb (fun d => negb (Nat.eqb (Nat.modulo n d) 0)) (seq 2 (n - 2)).

Definition first_primes (count : nat) : list Z :=
  map Z.of_nat (firstn count (filter is_prime (seq 2 310))).

(** The integer cube root, bit by bit from the top. *)
Fixpoint cube_root (bits : nat) (x acc : Z) : Z :=
  match bits with
  | O => acc
  | S bits' =>
      let candidate := acc + Z.shiftl 1 (Z.of_nat bits') in
      if candidate * candidate * candidate <=? x
      then cube_root bits' x candidate
      else cube_root bits' x acc
  end.

Definition K : list Z :=
  Eval vm_compute in map (fun p => wrap (cube_root 36 (Z.shiftl p 96) 0)) (first_primes 64).

Definition H0 : list Z :=
  Eval vm_compute in map (fun p => wrap (Z.sqrt (Z.shiftl p 64))) (first_primes 8).

(** Padding: the byte 0x80, zero bytes up to 56 modulo 64, then the bit
    length as a 64-bit big-endian integer. *)
Definition be_bytes (count : nat) (x : Z) : list Z :=
  map (fun i => Z.land (Z.shiftr x (8 * Z.of_nat i)) 0xff) (rev (seq 0 count)).

Definition pad (msg : list Z) : list Z :=
  let len := Z.of_nat (length msg) in
  let zeros := Z.to_nat ((55 - len) mod 64) in
  msg ++ [0x80] ++ repeat 0 zeros ++ be_bytes 8 (8 * len).

Definition be_word (b0 b1 b2 b3 : Z) : Z :=
  Z.lor (Z.shiftl b0 24) (Z.lor (Z.shiftl b1 16) (Z.lor (Z.shiftl b2 8) b3)).

Fixpoint words_of_bytes (fuel : nat) (bs : list Z) : list Z :=
  match fuel, bs with
  | S fuel', b0 :: b1 :: b2 :: b3 :: rest => be_word b0 b1 b2 b3 :: words_of_bytes fuel' rest
  | _, _ => []
  end.

Fixpoint blocks_of_words (fuel : nat) (ws : list Z) : list (list Z) :=
  match fuel, ws with
  | _, [] => []
  | O, _ => []
  | S fuel', _ => firstn 16 ws :: blocks_of_words fuel' (skipn 16 ws)
  end.

(** Message schedule, kept newest word first: [rw] holds W(t-1), W(t-2), ... *)
Definition next_word (rw : list Z) : Z :=
  plus32 (plus32 (sigma1 (nth 1 rw 0)) (nth 6 rw 0))
         (plus32 (sigma0 (nth 14 rw 0)) (nth 15 rw 0)).

Fixpoint extend (count : nat) (rw : list Z) : list Z :=
  match count with
  | O => rw
  | S count' => extend count' (next_word rw :: rw)
  end.

Definition schedule (block : list Z) : list Z := rev (extend 48 (rev block)).

Record regs := Regs { ra : Z; rb : Z; rc : Z; rd : Z; re : Z; rf : Z; rg : Z; rh : Z }.

Definition round (s : regs) (kw : Z * Z) : regs :=
  let '(k, w) := kw in
  let t1 := plus32 (plus32 (plus32 (rh s) (Sigma1 (re s))) (plus32 (Ch (re s) (rf s) (rg s)) k)) w in
  let t2 := plus32 (Sigma0 (ra s)) (Maj (ra s) (rb s) (rc s)) in
  Regs (plus32 t1 t2) (ra s) (rb s) (rc s) (plus32 (rd s) t1) (re s) (rf s) (rg s).

Definition regs_of (h : list Z) : regs :=
  Regs (nth 0 h 0) (nth 1 h 0) (nth 2 h 0) (nth 3 h 0)
       (nth 4 h 0) (nth 5 h 0) (nth 6 h 0) (nth 7 h 0).

Definition list_of (s : regs) : list Z :=
  [ra s; rb s; rc s; rd s; re s; rf s; rg s; rh s].

Definition compress (h : list Z) (block : list Z) : list Z :=
  let s := fold_left round (combine K (schedule block)) (regs_of h) in
  map (fun p => plus32 (fst p) (snd p)) (combine h (list_of s)).

Definition digest_words (msg : list Z) : list Z :=
  let bs := pad msg in
  let ws := words_of_bytes (length bs) bs in
  fold_left compress (blocks_of_words (length ws) ws) H0.

Definition hex_digit (d : Z) : ascii :=
  if d <? 10 then ascii_of_N (Z.to_N (48 + d)) else ascii_of_N (Z.to_N (87 + d)).

Definition hex_byte (b : Z) : string :=
  String (hex_digit (Z.shiftr b 4)) (String (hex_digit (Z.land b 0xf)) EmptyString).

Definition bytes_of_string (s : string) : list Z :=
  map (fun c => Z.of_N (N_of_ascii c)) (list_ascii_of_string s).

(** [createHash("sha256").update(s).digest("hex")] *)
Definition hexdigest (s : string) : string :=
  String.concat "" (map hex_byte (flat_map (be_bytes 4) (digest_words (bytes_of_string s)))).

End Sha256.

(* ================================================================== *)
(** * JavaScript string operations *)
(* ================================================================== *)

(** The lower case of an ASCII letter; every other byte stands for itself.
    This is how the flag [i] of a regular expression compares a character
    with an ASCII letter of the pattern. *)
Definition lower_ascii (c : ascii) : ascii :=
  let n := N_of_ascii c in
  if ((65 <=? n) && (n <=? 90))%N then ascii_of_N (n + 32) else c.

Fixpoint toLowerCase (s : string) : string :=
  match s with
  | EmptyString => EmptyString
  | String c s' => String (lower_ascii c) (toLowerCase s')
  end.

Definition startsWith (s pre : string) : bool := String.prefix pre s.

Definition endsWith (s suf : string) : bool :=
  let n := String.length s in
  let m := String.length suf in
  (m <=? n)%nat && String.eqb (substring (n - m) m s) suf.

Fixpoint includes (s sub : string) : bool :=
  String.prefix sub s ||
  match s with
  | EmptyString => false
  | String _ s' => includes s' sub
  end.

Definition join (sep : string) (xs : list string) : string := String.concat sep xs.

(** [`${n}`] for a non-negative integer. *)
Definition string_of_nat (n : nat) : string :=
  DecimalString.NilZero.string_of_uint (Nat.to_uint n).

Definition quote_char : ascii := ascii_of_nat 34.
Definition newline : string := String (ascii_of_nat 10) EmptyString.

(** ** [String.prototype.toLowerCase]

    The method maps the text to lower case by the default case conversion
    of Unicode: the lower-case mapping of every character in
    UnicodeData.txt and the mappings of SpecialCasing.txt that depend on no
    language, which are the one of U+0130 and the final sigma.  The tables
    are those of Unicode 14.0. *)

Module Unicode.

(** What a text is made of: the characters that its UTF-8 bytes encode.  A
    byte that belongs to no well-formed sequence is kept as it is. *)
Inductive symbol : Type :=
| Scalar (c : N)
| Stray (b : ascii).

(** The low six bits of a continuation byte. *)
Definition trail (b : ascii) : option N :=
  let n := N_of_ascii b in
  if ((0x80 <=? n) && (n <=? 0xBF))%N then Some (n - 0x80)%N else None.

Definition scalar2 (b1 b2 : ascii) : option N :=
  let n1 := N_of_ascii b1 in
  match trail b2 with
  | Some t2 =>
      if ((0xC2 <=? n1) && (n1 <=? 0xDF))%N then Some ((n1 - 0xC0) * 0x40 + t2)%N else None
  | None => None
  end.

Definition scalar3 (b1 b2 b3 : ascii) : option N :=
  let n1 := N_of_ascii b1 in
  match trail b2, trail b3 with
  | Some t2, Some t3 =>
      let c := ((n1 - 0xE0) * 0x1000 + t2 * 0x40 + t3)%N in
      if ((0xE0 <=? n1) && (n1 <=? 0xEF) && (0x800 <=? c)
          && negb ((0xD800 <=? c) && (c <=? 0xDFFF)))%N
      then Some c else None
  | _, _ => None
  end.

Definition scalar4 (b1 b2 b3 b4 : ascii) : option N :=
  let n1 := N_of_ascii b1 in
  match trail b2, trail b3, trail b4 with
  | Some t2, Some t3, Some t4 =>
      let c := ((n1 - 0xF0) * 0x40000 + t2 * 0x1000 + t3 * 0x40 + t4)%N in
      if ((0xF0 <=? n1) && (n1 <=? 0xF4) && (0x10000 <=? c) && (c <=? 0x10FFFF))%N
      then Some c else None
  | _, _, _ => None
  end.

(** The characters of a text in UTF-8: the shortest form only, no
    surrogate, nothing above U+10FFFF. *)
Fixpoint decode (s : string) : list symbol :=
  match s with
  | EmptyString => []
  | String b1 s1 =>
      if (N_of_ascii b1 <? 0x80)%N then Scalar (N_of_ascii b1) :: decode s1
      else
        match s1 with
        | EmptyString => Stray b1 :: decode s1
        | String b2 s2 =>
            match scalar2 b1 b2 with
            | Some c => Scalar c :: decode s2
            | None =>
                match s2 with
                | EmptyString => Stray b1 :: decode s1
                | String b3 s3 =>
                    match scalar3 b1 b2 b3 with
                    | Some c => Scalar c :: decode s3
                    | None =>
                        match s3 with
                        | EmptyString => Stray b1 :: decode s1
                        | String b4 s4 =>
                            match scalar4 b1 b2 b3 b4 with
                            | Some c => Scalar c :: decode s4
                            | None => Stray b1 :: decode s1
                            end
                        end
                    end
                end
            end
        end
  end.

Definition byte (n : N) : ascii := ascii_of_N n.

Definition encode_scalar (c : N) (rest : string) : string :=
  (if c <? 0x80 then String (byte c) rest
   else if c <? 0x800 then
     String (byte (0xC0 + c / 0x40)) (String (byte (0x80 + c mod 0x40)) rest)
   else if c <? 0x10000 then
     String (byte (0xE0 + c / 0x1000))
       (String (byte (0x80 + (c / 0x40) mod 0x40)) (String (byte (0x80 + c mod 0x40)) rest))
   else
     String (byte (0xF0 + c / 0x40000))
       (String (byte (0x80 + (c / 0x1000) mod 0x40))
          (String (byte (0x80 + (c / 0x40) mod 0x40)) (String (byte (0x80 + c mod 0x40)) rest))))%N.

Fixpoint encode (text : list symbol) : string :=
  match text with
  | [] => EmptyString
  | Scalar c :: rest => encode_scalar c (encode rest)
  | Stray b :: rest => String b (encode rest)
  end.

(** The characters with a lower-case mapping of one character
    (UnicodeData.txt, field 13).  An entry [(first, last, step, target)]
    stands for the characters [first], [first + step], ... up to [last],
    mapped to [target], [target + step], ... *)
Definition lowerMapping : list (N * N * N * N) :=
  [
    (0x41, 0x5A, 1, 0x61); (0xC0, 0xD6, 1, 0xE0); (0xD8, 0xDE, 1, 0xF8);
    (0x100, 0x12E, 2, 0x101); (0x132, 0x136, 2, 0x133); (0x139, 0x147, 2, 0x13A);
    (0x14A, 0x176, 2, 0x14B); (0x178, 0x178, 1, 0xFF); (0x179, 0x17D, 2, 0x17A);
    (0x181, 0x181, 1, 0x253); (0x182, 0x184, 2, 0x183); (0x186, 0x186, 1, 0x254);
    (0x187, 0x187, 1, 0x188); (0x189, 0x18A, 1, 0x256); (0x18B, 0x18B, 1, 0x18C);
    (0x18E, 0x18E, 1, 0x1DD); (0x18F, 0x18F, 1, 0x259); (0x190, 0x190, 1, 0x25B);
    (0x191, 0x191, 1, 0x192); (0x193, 0x193, 1, 0x260); (0x194, 0x194, 1, 0x263);
    (0x196, 0x196, 1, 0x269); (0x197, 0x197, 1, 0x268); (0x198, 0x198, 1, 0x199);
    (0x19C, 0x19C, 1, 0x26F); (0x19D, 0x19D, 1, 0x272); (0x19F, 0x19F, 1, 0x275);
    (0x1A0, 0x1A4, 2, 0x1A1); (0x1A6, 0x1A6, 1, 0x280); (0x1A7, 0x1A7, 1, 0x1A8);
    (0x1A9, 0x1A9, 1, 0x283); (0x1AC, 0x1AC, 1, 0x1AD); (0x1AE, 0x1AE, 1, 0x288);
    (0x1AF, 0x1AF, 1, 0x1B0); (0x1B1, 0x1B2, 1, 0x28A); (0x1B3, 0x1B5, 2, 0x1B4);
    (0x1B7, 0x1B7, 1, 0x292); (0x1B8, 0x1B8, 1, 0x1B9); (0x1BC, 0x1BC, 1, 0x1BD);
    (0x1C4, 0x1C4, 1, 0x1C6); (0x1C5, 0x1C5, 1, 0x1C6); (0x1C7, 0x1C7, 1, 0x1C9);
    (0x1C8, 0x1C8, 1, 0x1C9); (0x1CA, 0x1CA, 1, 0x1CC); (0x1CB, 0x1DB, 2, 0x1CC);
    (0x1DE, 0x1EE, 2, 0x1DF); (0x1F1, 0x1F1, 1, 0x1F3); (0x1F2, 0x1F4, 2, 0x1F3);
    (0x1F6, 0x1F6, 1, 0x195); (0x1F7, 0x1F7, 1, 0x1BF); (0x1F8, 0x21E, 2, 0x1F9);
    (0x220, 0x220, 1, 0x19E); (0x222, 0x232, 2, 0x223); (0x23A, 0x23A, 1, 0x2C65);
    (0x23B, 0x23B, 1, 0x23C); (0x23D, 0x23D, 1, 0x19A); (0x23E, 0x23E, 1, 0x2C66);
    (0x241, 0x241, 1, 0x242); (0x243, 0x243, 1, 0x180); (0x244, 0x244, 1, 0x289);
    (0x245, 0x245, 1, 0x28C); (0x246, 0x24E, 2, 0x247); (0x370, 0x372, 2, 0x371);
    (0x376, 0x376, 1, 0x377); (0x37F, 0x37F, 1, 0x3F3); (0x386, 0x386, 1, 0x3AC);
    (0x388, 0x38A, 1, 0x3AD); (0x38C, 0x38C, 1, 0x3CC); (0x38E, 0x38F, 1, 0x3CD);
    (0x391, 0x3A1, 1, 0x3B1); (0x3A3, 0x3AB, 1, 0x3C3); (0x3CF, 0x3CF, 1, 0x3D7);
    (0x3D8, 0x3EE, 2, 0x3D9); (0x3F4, 0x3F4, 1, 0x3B8); (0x3F7, 0x3F7, 1, 0x3F8);
    (0x3F9, 0x3F9, 1, 0x3F2); (0x3FA, 0x3FA, 1, 0x3FB); (0x3FD, 0x3FF, 1, 0x37B);
    (0x400, 0x40F, 1, 0x450); (0x410, 0x42F, 1, 0x430); (0x460, 0x480, 2, 0x461);
    (0x48A, 0x4BE, 2, 0x48B); (0x4C0, 0x4C0, 1, 0x4CF); (0x4C1, 0x4CD, 2, 0x4C2);
    (0x4D0, 0x52E, 2, 0x4D1); (0x531, 0x556, 1, 0x561); (0x10A0, 0x10C5, 1, 0x2D00);
    (0x10C7, 0x10C7, 1, 0x2D27); (0x10CD, 0x10CD, 1, 0x2D2D); (0x13A0, 0x13EF, 1, 0xAB70);
    (0x13F0, 0x13F5, 1, 0x13F8); (0x1C90, 0x1CBA, 1, 0x10D0); (0x1CBD, 0x1CBF, 1, 0x10FD);
    (0x1E00, 0x1E94, 2, 0x1E01); (0x1E9E, 0x1E9E, 1, 0xDF); (0x1EA0, 0x1EFE, 2, 0x1EA1);
    (0x1F08, 0x1F0F, 1, 0x1F00); (0x1F18, 0x1F1D, 1, 0x1F10); (0x1F28, 0x1F2F, 1, 0x1F20);
    (0x1F38, 0x1F3F, 1, 0x1F30); (0x1F48, 0x1F4D, 1, 0x1F40); (0x1F59, 0x1F5F, 2, 0x1F51);
    (0x1F68, 0x1F6F, 1, 0x1F60); (0x1F88, 0x1F8F, 1, 0x1F80); (0x1F98, 0x1F9F, 1, 0x1F90);
    (0x1FA8, 0x1FAF, 1, 0x1FA0); (0x1FB8, 0x1FB9, 1, 0x1FB0); (0x1FBA, 0x1FBB, 1, 0x1F70);
    (0x1FBC, 0x1FBC, 1, 0x1FB3); (0x1FC8, 0x1FCB, 1, 0x1F72); (0x1FCC, 0x1FCC, 1, 0x1FC3);
    (0x1FD8, 0x1FD9, 1, 0x1FD0); (0x1FDA, 0x1FDB, 1, 0x1F76); (0x1FE8, 0x1FE9, 1, 0x1FE0);
    (0x1FEA, 0x1FEB, 1, 0x1F7A); (0x1FEC, 0x1FEC, 1, 0x1FE5); (0x1FF8, 0x1FF9, 1, 0x1F78);
    (0x1FFA, 0x1FFB, 1, 0x1F7C); (0x1FFC, 0x1FFC, 1, 0x1FF3); (0x2126, 0x2126, 1, 0x3C9);
    (0x212A, 0x212A, 1, 0x6B); (0x212B, 0x212B, 1, 0xE5); (0x2132, 0x2132, 1, 0x214E);
    (0x2160, 0x216F, 1, 0x2170); (0x2183, 0x2183, 1, 0x2184); (0x24B6, 0x24CF, 1, 0x24D0);
    (0x2C00, 0x2C2F, 1, 0x2C30); (0x2C60, 0x2C60, 1, 0x2C61); (0x2C62, 0x2C62, 1, 0x26B);
    (0x2C63, 0x2C63, 1, 0x1D7D); (0x2C64, 0x2C64, 1, 0x27D); (0x2C67, 0x2C6B, 2, 0x2C68);
    (0x2C6D, 0x2C6D, 1, 0x251); (0x2C6E, 0x2C6E, 1, 0x271); (0x2C6F, 0x2C6F, 1, 0x250);
    (0x2C70, 0x2C70, 1, 0x252); (0x2C72, 0x2C72, 1, 0x2C73); (0x2C75, 0x2C75, 1, 0x2C76);
    (0x2C7E, 0x2C7F, 1, 0x23F); (0x2C80, 0x2CE2, 2, 0x2C81); (0x2CEB, 0x2CED, 2, 0x2CEC);
    (0x2CF2, 0x2CF2, 1, 0x2CF3); (0xA640, 0xA66C, 2, 0xA641); (0xA680, 0xA69A, 2, 0xA681);
    (0xA722, 0xA72E, 2, 0xA723); (0xA732, 0xA76E, 2, 0xA733); (0xA779, 0xA77B, 2, 0xA77A);
    (0xA77D, 0xA77D, 1, 0x1D79); (0xA77E, 0xA786, 2, 0xA77F); (0xA78B, 0xA78B, 1, 0xA78C);
    (0xA78D, 0xA78D, 1, 0x265); (0xA790, 0xA792, 2, 0xA791); (0xA796, 0xA7A8, 2, 0xA797);
    (0xA7AA, 0xA7AA, 1, 0x266); (0xA7AB, 0xA7AB, 1, 0x25C); (0xA7AC, 0xA7AC, 1, 0x261);
    (0xA7AD, 0xA7AD, 1, 0x26C); (0xA7AE, 0xA7AE, 1, 0x26A); (0xA7B0, 0xA7B0, 1, 0x29E);
    (0xA7B1, 0xA7B1, 1, 0x287); (0xA7B2, 0xA7B2, 1, 0x29D); (0xA7B3, 0xA7B3, 1, 0xAB53);
    (0xA7B4, 0xA7C2, 2, 0xA7B5); (0xA7C4, 0xA7C4, 1, 0xA794); (0xA7C5, 0xA7C5, 1, 0x282);
    (0xA7C6, 0xA7C6, 1, 0x1D8E); (0xA7C7, 0xA7C9, 2, 0xA7C8); (0xA7D0, 0xA7D0, 1, 0xA7D1);
    (0xA7D6, 0xA7D8, 2, 0xA7D7); (0xA7F5, 0xA7F5, 1, 0xA7F6); (0xFF21, 0xFF3A, 1, 0xFF41);
    (0x10400, 0x10427, 1, 0x10428); (0x104B0, 0x104D3, 1, 0x104D8); (0x10570, 0x1057A, 1, 0x10597);
    (0x1057C, 0x1058A, 1, 0x105A3); (0x1058C, 0x10592, 1, 0x105B3); (0x10594, 0x10595, 1, 0x105BB);
    (0x10C80, 0x10CB2, 1, 0x10CC0); (0x118A0, 0x118BF, 1, 0x118C0); (0x16E40, 0x16E5F, 1, 0x16E60);
    (0x1E900, 0x1E921, 1, 0x1E922)
  ]%N.

(** The property Cased (DerivedCoreProperties.txt), as ranges. *)
Definition Cased : list (N * N) :=
  [
    (0x41, 0x5A); (0x61, 0x7A); (0xAA, 0xAA); (0xB5, 0xB5); (0xBA, 0xBA);
    (0xC0, 0xD6); (0xD8, 0xF6); (0xF8, 0x1BA); (0x1BC, 0x1BF); (0x1C4, 0x293);
    (0x295, 0x2B8); (0x2C0, 0x2C1); (0x2E0, 0x2E4); (0x345, 0x345); (0x370, 0x373);
    (0x376, 0x377); (0x37A, 0x37D); (0x37F, 0x37F); (0x386, 0x386); (0x388, 0x38A);
    (0x38C, 0x38C); (0x38E, 0x3A1); (0x3A3, 0x3F5); (0x3F7, 0x481); (0x48A, 0x52F);
    (0x531, 0x556); (0x560, 0x588); (0x10A0, 0x10C5); (0x10C7, 0x10C7); (0x10CD, 0x10CD);
    (0x10D0, 0x10FA); (0x10FD, 0x10FF); (0x13A0, 0x13F5); (0x13F8, 0x13FD); (0x1C80, 0x1C88);
    (0x1C90, 0x1CBA); (0x1CBD, 0x1CBF); (0x1D00, 0x1DBF); (0x1E00, 0x1F15); (0x1F18, 0x1F1D);
    (0x1F20, 0x1F45); (0x1F48, 0x1F4D); (0x1F50, 0x1F57); (0x1F59, 0x1F59); (0x1F5B, 0x1F5B);
    (0x1F5D, 0x1F5D); (0x1F5F, 0x1F7D); (0x1F80, 0x1FB4); (0x1FB6, 0x1FBC); (0x1FBE, 0x1FBE);
    (0x1FC2, 0x1FC4); (0x1FC6, 0x1FCC); (0x1FD0, 0x1FD3); (0x1FD6, 0x1FDB); (0x1FE0, 0x1FEC);
    (0x1FF2, 0x1FF4); (0x1FF6, 0x1FFC); (0x2071, 0x2071); (0x207F, 0x207F); (0x2090, 0x209C);
    (0x2102, 0x2102); (0x2107, 0x2107); (0x210A, 0x2113); (0x2115, 0x2115); (0x2119, 0x211D);
    (0x2124, 0x2124); (0x2126, 0x2126); (0x2128, 0x2128); (0x212A, 0x212D); (0x212F, 0x2134);
    (0x2139, 0x2139); (0x213C, 0x213F); (0x2145, 0x2149); (0x214E, 0x214E); (0x2160, 0x217F);
    (0x2183, 0x2184); (0x24B6, 0x24E9); (0x2C00, 0x2CE4); (0x2CEB, 0x2CEE); (0x2CF2, 0x2CF3);
    (0x2D00, 0x2D25); (0x2D27, 0x2D27); (0x2D2D, 0x2D2D); (0xA640, 0xA66D); (0xA680, 0xA69D);
    (0xA722, 0xA787); (0xA78B, 0xA78E); (0xA790, 0xA7CA); (0xA7D0, 0xA7D1); (0xA7D3, 0xA7D3);
    (0xA7D5, 0xA7D9); (0xA7F5, 0xA7F6); (0xA7F8, 0xA7FA); (0xAB30, 0xAB5A); (0xAB5C, 0xAB68);
    (0xAB70, 0xABBF); (0xFB00, 0xFB06); (0xFB13, 0xFB17); (0xFF21, 0xFF3A); (0xFF41, 0xFF5A);
    (0x10400, 0x1044F); (0x104B0, 0x104D3); (0x104D8, 0x104FB); (0x10570, 0x1057A); (0x1057C, 0x1058A);
    (0x1058C, 0x10592); (0x10594, 0x10595); (0x10597, 0x105A1); (0x105A3, 0x105B1); (0x105B3, 0x105B9);
    (0x105BB, 0x105BC); (0x10780, 0x10780); (0x10783, 0x10785); (0x10787, 0x107B0); (0x107B2, 0x107BA);
    (0x10C80, 0x10CB2); (0x10CC0, 0x10CF2); (0x118A0, 0x118DF); (0x16E40, 0x16E7F); (0x1D400, 0x1D454);
    (0x1D456, 0x1D49C); (0x1D49E, 0x1D49F); (0x1D4A2, 0x1D4A2); (0x1D4A5, 0x1D4A6); (0x1D4A9, 0x1D4AC);
    (0x1D4AE, 0x1D4B9); (0x1D4BB, 0x1D4BB); (0x1D4BD, 0x1D4C3); (0x1D4C5, 0x1D505); (0x1D507, 0x1D50A);
    (0x1D50D, 0x1D514); (0x1D516, 0x1D51C); (0x1D51E, 0x1D539); (0x1D53B, 0x1D53E); (0x1D540, 0x1D544);
    (0x1D546, 0x1D546); (0x1D54A, 0x1D550); (0x1D552, 0x1D6A5); (0x1D6A8, 0x1D6C0); (0x1D6C2, 0x1D6DA);
    (0x1D6DC, 0x1D6FA); (0x1D6FC, 0x1D714); (0x1D716, 0x1D734); (0x1D736, 0x1D74E); (0x1D750, 0x1D76E);
    (0x1D770, 0x1D788); (0x1D78A, 0x1D7A8); (0x1D7AA, 0x1D7C2); (0x1D7C4, 0x1D7CB); (0x1DF00, 0x1DF09);
    (0x1DF0B, 0x1DF1E); (0x1E900, 0x1E943); (0x1F130, 0x1F149); (0x1F150, 0x1F169); (0x1F170, 0x1F189)
  ]%N.

(** The property Case_Ignorable (DerivedCoreProperties.txt), as ranges. *)
Definition Case_Ignorable : list (N * N) :=
  [
    (0x27, 0x27); (0x2E, 0x2E); (0x3A, 0x3A); (0x5E, 0x5E); (0x60, 0x60);
    (0xA8, 0xA8); (0xAD, 0xAD); (0xAF, 0xAF); (0xB4, 0xB4); (0xB7, 0xB8);
    (0x2B0, 0x36F); (0x374, 0x375); (0x37A, 0x37A); (0x384, 0x385); (0x387, 0x387);
    (0x483, 0x489); (0x559, 0x559); (0x55F, 0x55F); (0x591, 0x5BD); (0x5BF, 0x5BF);
    (0x5C1, 0x5C2); (0x5C4, 0x5C5); (0x5C7, 0x5C7); (0x5F4, 0x5F4); (0x600, 0x605);
    (0x610, 0x61A); (0x61C, 0x61C); (0x640, 0x640); (0x64B, 0x65F); (0x670, 0x670);
    (0x6D6, 0x6DD); (0x6DF, 0x6E8); (0x6EA, 0x6ED); (0x70F, 0x70F); (0x711, 0x711);
    (0x730, 0x74A); (0x7A6, 0x7B0); (0x7EB, 0x7F5); (0x7FA, 0x7FA); (0x7FD, 0x7FD);
    (0x816, 0x82D); (0x859, 0x85B); (0x888, 0x888); (0x890, 0x891); (0x898, 0x89F);
    (0x8C9, 0x902); (0x93A, 0x93A); (0x93C, 0x93C); (0x941, 0x948); (0x94D, 0x94D);
    (0x951, 0x957); (0x962, 0x963); (0x971, 0x971); (0x981, 0x981); (0x9BC, 0x9BC);
    (0x9C1, 0x9C4); (0x9CD, 0x9CD); (0x9E2, 0x9E3); (0x9FE, 0x9FE); (0xA01, 0xA02);
    (0xA3C, 0xA3C); (0xA41, 0xA42); (0xA47, 0xA48); (0xA4B, 0xA4D); (0xA51, 0xA51);
    (0xA70, 0xA71); (0xA75, 0xA75); (0xA81, 0xA82); (0xABC, 0xABC); (0xAC1, 0xAC5);
    (0xAC7, 0xAC8); (0xACD, 0xACD); (0xAE2, 0xAE3); (0xAFA, 0xAFF); (0xB01, 0xB01);
    (0xB3C, 0xB3C); (0xB3F, 0xB3F); (0xB41, 0xB44); (0xB4D, 0xB4D); (0xB55, 0xB56);
    (0xB62, 0xB63); (0xB82, 0xB82); (0xBC0, 0xBC0); (0xBCD, 0xBCD); (0xC00, 0xC00);
    (0xC04, 0xC04); (0xC3C, 0xC3C); (0xC3E, 0xC40); (0xC46, 0xC48); (0xC4A, 0xC4D);
    (0xC55, 0xC56); (0xC62, 0xC63); (0xC81, 0xC81); (0xCBC, 0xCBC); (0xCBF, 0xCBF);
    (0xCC6, 0xCC6); (0xCCC, 0xCCD); (0xCE2, 0xCE3); (0xD00, 0xD01); (0xD3B, 0xD3C);
    (0xD41, 0xD44); (0xD4D, 0xD4D); (0xD62, 0xD63); (0xD81, 0xD81); (0xDCA, 0xDCA);
    (0xDD2, 0xDD4); (0xDD6, 0xDD6); (0xE31, 0xE31); (0xE34, 0xE3A); (0xE46, 0xE4E);
    (0xEB1, 0xEB1); (0xEB4, 0xEBC); (0xEC6, 0xEC6); (0xEC8, 0xECD); (0xF18, 0xF19);
    (0xF35, 0xF35); (0xF37, 0xF37); (0xF39, 0xF39); (0xF71, 0xF7E); (0xF80, 0xF84);
    (0xF86, 0xF87); (0xF8D, 0xF97); (0xF99, 0xFBC); (0xFC6, 0xFC6); (0x102D, 0x1030);
    (0x1032, 0x1037); (0x1039, 0x103A); (0x103D, 0x103E); (0x1058, 0x1059); (0x105E, 0x1060);
    (0x1071, 0x1074); (0x1082, 0x1082); (0x1085, 0x1086); (0x108D, 0x108D); (0x109D, 0x109D);
    (0x10FC, 0x10FC); (0x135D, 0x135F); (0x1712, 0x1714); (0x1732, 0x1733); (0x1752, 0x1753);
    (0x1772, 0x1773); (0x17B4, 0x17B5); (0x17B7, 0x17BD); (0x17C6, 0x17C6); (0x17C9, 0x17D3);
    (0x17D7, 0x17D7); (0x17DD, 0x17DD); (0x180B, 0x180F); (0x1843, 0x1843); (0x1885, 0x1886);
    (0x18A9, 0x18A9); (0x1920, 0x1922); (0x1927, 0x1928); (0x1932, 0x1932); (0x1939, 0x193B);
    (0x1A17, 0x1A18); (0x1A1B, 0x1A1B); (0x1A56, 0x1A56); (0x1A58, 0x1A5E); (0x1A60, 0x1A60);
    (0x1A62, 0x1A62); (0x1A65, 0x1A6C); (0x1A73, 0x1A7C); (0x1A7F, 0x1A7F); (0x1AA7, 0x1AA7);
    (0x1AB0, 0x1ACE); (0x1B00, 0x1B03); (0x1B34, 0x1B34); (0x1B36, 0x1B3A); (0x1B3C, 0x1B3C);
    (0x1B42, 0x1B42); (0x1B6B, 0x1B73); (0x1B80, 0x1B81); (0x1BA2, 0x1BA5); (0x1BA8, 0x1BA9);
    (0x1BAB, 0x1BAD); (0x1BE6, 0x1BE6); (0x1BE8, 0x1BE9); (0x1BED, 0x1BED); (0x1BEF, 0x1BF1);
    (0x1C2C, 0x1C33); (0x1C36, 0x1C37); (0x1C78, 0x1C7D); (0x1CD0, 0x1CD2); (0x1CD4, 0x1CE0);
    (0x1CE2, 0x1CE8); (0x1CED, 0x1CED); (0x1CF4, 0x1CF4); (0x1CF8, 0x1CF9); (0x1D2C, 0x1D6A);
    (0x1D78, 0x1D78); (0x1D9B, 0x1DFF); (0x1FBD, 0x1FBD); (0x1FBF, 0x1FC1); (0x1FCD, 0x1FCF);
    (0x1FDD, 0x1FDF); (0x1FED, 0x1FEF); (0x1FFD, 0x1FFE); (0x200B, 0x200F); (0x2018, 0x2019);
    (0x2024, 0x2024); (0x2027, 0x2027); (0x202A, 0x202E); (0x2060, 0x2064); (0x2066, 0x206F);
    (0x2071, 0x2071); (0x207F, 0x207F); (0x2090, 0x209C); (0x20D0, 0x20F0); (0x2C7C, 0x2C7D);
    (0x2CEF, 0x2CF1); (0x2D6F, 0x2D6F); (0x2D7F, 0x2D7F); (0x2DE0, 0x2DFF); (0x2E2F, 0x2E2F);
    (0x3005, 0x3005); (0x302A, 0x302D); (0x3031, 0x3035); (0x303B, 0x303B); (0x3099, 0x309E);
    (0x30FC, 0x30FE); (0xA015, 0xA015); (0xA4F8, 0xA4FD); (0xA60C, 0xA60C); (0xA66F, 0xA672);
    (0xA674, 0xA67D); (0xA67F, 0xA67F); (0xA69C, 0xA69F); (0xA6F0, 0xA6F1); (0xA700, 0xA721);
    (0xA770, 0xA770); (0xA788, 0xA78A); (0xA7F2, 0xA7F4); (0xA7F8, 0xA7F9); (0xA802, 0xA802);
    (0xA806, 0xA806); (0xA80B, 0xA80B); (0xA825, 0xA826); (0xA82C, 0xA82C); (0xA8C4, 0xA8C5);
    (0xA8E0, 0xA8F1); (0xA8FF, 0xA8FF); (0xA926, 0xA92D); (0xA947, 0xA951); (0xA980, 0xA982);
    (0xA9B3, 0xA9B3); (0xA9B6, 0xA9B9); (0xA9BC, 0xA9BD); (0xA9CF, 0xA9CF); (0xA9E5, 0xA9E6);
    (0xAA29, 0xAA2E); (0xAA31, 0xAA32); (0xAA35, 0xAA36); (0xAA43, 0xAA43); (0xAA4C, 0xAA4C);
    (0xAA70, 0xAA70); (0xAA7C, 0xAA7C); (0xAAB0, 0xAAB0); (0xAAB2, 0xAAB4); (0xAAB7, 0xAAB8);
    (0xAABE, 0xAABF); (0xAAC1, 0xAAC1); (0xAADD, 0xAADD); (0xAAEC, 0xAAED); (0xAAF3, 0xAAF4);
    (0xAAF6, 0xAAF6); (0xAB5B, 0xAB5F); (0xAB69, 0xAB6B); (0xABE5, 0xABE5); (0xABE8, 0xABE8);
    (0xABED, 0xABED); (0xFB1E, 0xFB1E); (0xFBB2, 0xFBC2); (0xFE00, 0xFE0F); (0xFE13, 0xFE13);
    (0xFE20, 0xFE2F); (0xFE52, 0xFE52); (0xFE55, 0xFE55); (0xFEFF, 0xFEFF); (0xFF07, 0xFF07);
    (0xFF0E, 0xFF0E); (0xFF1A, 0xFF1A); (0xFF3E, 0xFF3E); (0xFF40, 0xFF40); (0xFF70, 0xFF70);
    (0xFF9E, 0xFF9F); (0xFFE3, 0xFFE3); (0xFFF9, 0xFFFB); (0x101FD, 0x101FD); (0x102E0, 0x102E0);
    (0x10376, 0x1037A); (0x10780, 0x10785); (0x10787, 0x107B0); (0x107B2, 0x107BA); (0x10A01, 0x10A03);
    (0x10A05, 0x10A06); (0x10A0C, 0x10A0F); (0x10A38, 0x10A3A); (0x10A3F, 0x10A3F); (0x10AE5, 0x10AE6);
    (0x10D24, 0x10D27); (0x10EAB, 0x10EAC); (0x10F46, 0x10F50); (0x10F82, 0x10F85); (0x11001, 0x11001);
    (0x11038, 0x11046); (0x11070, 0x11070); (0x11073, 0x11074); (0x1107F, 0x11081); (0x110B3, 0x110B6);
    (0x110B9, 0x110BA); (0x110BD, 0x110BD); (0x110C2, 0x110C2); (0x110CD, 0x110CD); (0x11100, 0x11102);
    (0x11127, 0x1112B); (0x1112D, 0x11134); (0x11173, 0x11173); (0x11180, 0x11181); (0x111B6, 0x111BE);
    (0x111C9, 0x111CC); (0x111CF, 0x111CF); (0x1122F, 0x11231); (0x11234, 0x11234); (0x11236, 0x11237);
    (0x1123E, 0x1123E); (0x112DF, 0x112DF); (0x112E3, 0x112EA); (0x11300, 0x11301); (0x1133B, 0x1133C);
    (0x11340, 0x11340); (0x11366, 0x1136C); (0x11370, 0x11374); (0x11438, 0x1143F); (0x11442, 0x11444);
    (0x11446, 0x11446); (0x1145E, 0x1145E); (0x114B3, 0x114B8); (0x114BA, 0x114BA); (0x114BF, 0x114C0);
    (0x114C2, 0x114C3); (0x115B2, 0x115B5); (0x115BC, 0x115BD); (0x115BF, 0x115C0); (0x115DC, 0x115DD);
    (0x11633, 0x1163A); (0x1163D, 0x1163D); (0x1163F, 0x11640); (0x116AB, 0x116AB); (0x116AD, 0x116AD);
    (0x116B0, 0x116B5); (0x116B7, 0x116B7); (0x1171D, 0x1171F); (0x11722, 0x11725); (0x11727, 0x1172B);
    (0x1182F, 0x11837); (0x11839, 0x1183A); (0x1193B, 0x1193C); (0x1193E, 0x1193E); (0x11943, 0x11943);
    (0x119D4, 0x119D7); (0x119DA, 0x119DB); (0x119E0, 0x119E0); (0x11A01, 0x11A0A); (0x11A33, 0x11A38);
    (0x11A3B, 0x11A3E); (0x11A47, 0x11A47); (0x11A51, 0x11A56); (0x11A59, 0x11A5B); (0x11A8A, 0x11A96);
    (0x11A98, 0x11A99); (0x11C30, 0x11C36); (0x11C38, 0x11C3D); (0x11C3F, 0x11C3F); (0x11C92, 0x11CA7);
    (0x11CAA, 0x11CB0); (0x11CB2, 0x11CB3); (0x11CB5, 0x11CB6); (0x11D31, 0x11D36); (0x11D3A, 0x11D3A);
    (0x11D3C, 0x11D3D); (0x11D3F, 0x11D45); (0x11D47, 0x11D47); (0x11D90, 0x11D91); (0x11D95, 0x11D95);
    (0x11D97, 0x11D97); (0x11EF3, 0x11EF4); (0x13430, 0x13438); (0x16AF0, 0x16AF4); (0x16B30, 0x16B36);
    (0x16B40, 0x16B43); (0x16F4F, 0x16F4F); (0x16F8F, 0x16F9F); (0x16FE0, 0x16FE1); (0x16FE3, 0x16FE4);
    (0x1AFF0, 0x1AFF3); (0x1AFF5, 0x1AFFB); (0x1AFFD, 0x1AFFE); (0x1BC9D, 0x1BC9E); (0x1BCA0, 0x1BCA3);
    (0x1CF00, 0x1CF2D); (0x1CF30, 0x1CF46); (0x1D167, 0x1D169); (0x1D173, 0x1D182); (0x1D185, 0x1D18B);
    (0x1D1AA, 0x1D1AD); (0x1D242, 0x1D244); (0x1DA00, 0x1DA36); (0x1DA3B, 0x1DA6C); (0x1DA75, 0x1DA75);
    (0x1DA84, 0x1DA84); (0x1DA9B, 0x1DA9F); (0x1DAA1, 0x1DAAF); (0x1E000, 0x1E006); (0x1E008, 0x1E018);
    (0x1E01B, 0x1E021); (0x1E023, 0x1E024); (0x1E026, 0x1E02A); (0x1E130, 0x1E13D); (0x1E2AE, 0x1E2AE);
    (0x1E2EC, 0x1E2EF); (0x1E8D0, 0x1E8D6); (0x1E944, 0x1E94B); (0x1F3FB, 0x1F3FF); (0xE0001, 0xE0001);
    (0xE0020, 0xE007F); (0xE0100, 0xE01EF)
  ]%N.

Fixpoint mapped (rules : list (N * N * N * N)) (c : N) : N :=
  match rules with
  | [] => c
  | (first, last, step, target) :: rest =>
      if ((first <=? c) && (c <=? last) && ((c - first) mod step =? 0))%N
      then (target + (c - first))%N
      else mapped rest c
  end.

Definition within (ranges : list (N * N)) (c : N) : bool :=
  existsb (fun r => ((fst r <=? c) && (c <=? snd r))%N) ranges.

(** The lower case of one character, its context apart: U+0130 becomes
    U+0069 U+0307 (SpecialCasing.txt), any other character what the table
    says, or itself. *)
Definition toLower (c : N) : list N :=
  if (c =? 0x130)%N then [0x69; 0x307]%N else [mapped lowerMapping c].

(** Does a cased letter come next in this direction, after case-ignorable
    characters only? *)
Fixpoint casedLetterNext (text : list symbol) : bool :=
  match text with
  | Scalar c :: rest => if within Case_Ignorable c then casedLetterNext rest else within Cased c
  | _ => false
  end.

(** The lower case of [text], which the characters [before] precede, the
    nearest first.  A capital sigma U+03A3 becomes the final sigma U+03C2
    when a cased letter precedes it and none follows it (Final_Sigma), and
    U+03C3 otherwise. *)
Fixpoint toLowercase (before text : list symbol) : list symbol :=
  match text with
  | [] => []
  | Scalar c :: rest =>
      (if (c =? 0x3A3)%N then
         [Scalar (if casedLetterNext before && negb (casedLetterNext rest)
                  then 0x3C2 else 0x3C3)%N]
       else map Scalar (toLower c))
      ++ toLowercase (Scalar c :: before) rest
  | Stray b :: rest => Stray b :: toLowercase (Stray b :: before) rest
  end.

Definition toLowerCase (s : string) : string :=
  encode (toLowercase [] (decode s)).

End Unicode.

(* ================================================================== *)
(** * [JSON.stringify] on the object that is hashed *)
(* ================================================================== *)

Module Json.

Definition hex_nibble (n : N) : ascii :=
  if (n <? 10)%N then ascii_of_N (48 + n) else ascii_of_N (87 + n).

(** QuoteJSONString of ECMA-262, on the bytes of a well-formed string: the
    quote, the backslash and the control characters are escaped, every other
    byte is copied. *)
Definition escape_char (c : ascii) : string :=
  let n := N_of_ascii c in
  if (n =? 34)%N then String "\" (String quote_char EmptyString)
  else if (n =? 92)%N then "\\"
  else if (n =? 8)%N then "\b"
  else if (n =? 9)%N then "\t"
  else if (n =? 10)%N then "\n"
  else if (n =? 12)%N then "\f"
  else if (n =? 13)%N then "\r"
  else if (n <? 32)%N then
    "\u00" ++ String (hex_nibble (n / 16)) (String (hex_nibble (n mod 16)) EmptyString)
  else String c EmptyString.

Fixpoint escape (s : string) : string :=
  match s with
  | EmptyString => EmptyString
  | String c s' => escape_char c ++ escape s'
  end.

Definition str (s : string) : string :=
  String quote_char (escape s ++ String quote_char EmptyString).

(** A member [name:value] of an object; [name] needs no escaping here. *)
Definition member (name value : string) : string :=
  String quote_char (name ++ String quote_char (":" ++ value)).

Definition obj (members : list string) : string := "{" ++ join "," members ++ "}".
Definition arr (items : list string) : string := "[" ++ join "," items ++ "]".

End Json.

(* ================================================================== *)
(** * Types of the service *)
(* ================================================================== *)

(** Modelled from the spec: [ModMetadata] is declared in [mod-types.ts],
    which is not part of the sources at hand.  The spec describes an overlay
    by a stable short name, a version and the path of its content root; the
    service and its caller read the fields [id], [name], [shortname],
    [version] and [installPath], all used as strings. *)
Record ModMetadata := {
  id : string;
  name : string;
  shortname : string;
  version : string;
  installPath : string
}.

Record DeltaBakingOptions := {
  baseGameType : string;
  mods : list ModMetadata;
  engineVersion : string
}.

(** A path: the components below the root of the file system. *)
Definition path := list string.

Record BakedGameResult := {
  gameType : string;
  archivePath : path;
  hash : string
}.

(** The ambient constants: [WRITE_DATA_PATH] of [@main/config/app] (not part
    of the sources at hand, hence a parameter) and [process.cwd()]. *)
Record config := {
  WRITE_DATA_PATH : path;
  process_cwd : path
}.

(* ================================================================== *)
(** * generateCombinationHash *)
(* ================================================================== *)

Definition modIdentityJson (m : ModMetadata) : string :=
  Json.obj [ Json.member "shortname" (Json.str (shortname m));
             Json.member "version" (Json.str (version m));
             Json.member "installPath" (Json.str (installPath m)) ].

(** The [content] that is hashed. *)
Definition combinationContent (baseGameType : string) (mods : list ModMetadata)
    (engineVersion : string) : string :=
  Json.obj [ Json.member "baseGameType" (Json.str baseGameType);
             Json.member "engineVersion" (Json.str engineVersion);
             Json.member "mods" (Json.arr (map modIdentityJson mods)) ].

(** [createHash("sha256").update(content).digest("hex").substring(0, 16)] *)
Definition digest16 (content : string) : string :=
  substring 0 16 (Sha256.hexdigest content).

Definition generateCombinationHash (baseGameType : string) (mods : list ModMetadata)
    (engineVersion : string) : string :=
  digest16 (combinationContent baseGameType mods engineVersion).

(* ================================================================== *)
(** * Paths *)
(* ================================================================== *)

Fixpoint split_on (sep : ascii) (s : string) : list string :=
  match s with
  | EmptyString => [EmptyString]
  | String c s' =>
      if Ascii.eqb c sep then EmptyString :: split_on sep s'
      else match split_on sep s' with
           | seg :: segs => String c seg :: segs
           | [] => [String c EmptyString]
           end
  end.

(** One step of the lexical normalisation of [path.join]/[path.resolve]. *)
Definition push_segment (p : path) (seg : string) : path :=
  if String.eqb seg "" then p
  else if String.eqb seg "." then p
  else if String.eqb seg ".." then removelast p
  else p ++ [seg].

(** [path.join(p, s)] for an already resolved [p] and a path string [s]. *)
Definition join_path (p : path) (s : string) : path :=
  fold_left push_segment (split_on "/" s) p.

(** The location a path string denotes: absolute, or relative to the
    working directory. *)
Definition resolve (cwd : path) (s : string) : path :=
  if String.prefix "/" s then join_path [] s else join_path cwd s.

Fixpoint path_eqb (p q : path) : bool :=
  match p, q with
  | [], [] => true
  | x :: p', y :: q' => String.eqb x y && path_eqb p' q'
  | _, _ => false
  end.

Fixpoint is_prefix (p q : path) : bool :=
  match p, q with
  | [], _ => true
  | x :: p', y :: q' => String.eqb x y && is_prefix p' q'
  | _ :: _, [] => false
  end.

(** Two paths are [apart] when neither lies on the branch of the other:
    they part at a component both have. *)
Fixpoint apart (p q : path) : bool :=
  match p, q with
  | x :: p', y :: q' => if String.eqb x y then apart p' q' else true
  | _, _ => false
  end.

(** The string of an absolute path. *)
Definition path_string (p : path) : string :=
  match p with
  | [] => "/"
  | _ => String.concat "" (map (fun seg => "/" ++ seg)%string p)
  end.

(** [s.endsWith(ext)] on the string of a path: decided by its last
    component, since a separator never occurs in [ext]. *)
Definition path_endsWith (p : path) (ext : string) : bool :=
  match p with
  | [] => false
  | _ => endsWith (last p "") ext
  end.

(* ================================================================== *)
(** * The file system *)
(* ================================================================== *)

#[warnings="-register-all"]
Inductive node : Type :=
| File (mtime : Z) (content : string)
| Dir (mtime : Z) (entries : list (string * node)).

Definition node_mtime (n : node) : Z :=
  match n with File t _ => t | Dir t _ => t end.

Definition is_dir (n : node) : bool :=
  match n with Dir _ _ => true | File _ _ => false end.

Fixpoint lookup_entry (x : string) (es : list (string * node)) : option node :=
  match es with
  | [] => None
  | (y, c) :: es' => if String.eqb x y then Some c else lookup_entry x es'
  end.

Fixpoint set_entry (x : string) (c : node) (es : list (string * node))
  : list (string * node) :=
  match es with
  | [] => [(x, c)]
  | (y, c0) :: es' =>
      if String.eqb x y then (y, c) :: es' else (y, c0) :: set_entry x c es'
  end.

Definition remove_entry (x : string) (es : list (string * node))
  : list (string * node) :=
  filter (fun e => negb (String.eqb x (fst e))) es.

Fixpoint find (p : path) (n : node) : option node :=
  match p with
  | [] => Some n
  | x :: p' =>
      match n with
      | File _ _ => None
      | Dir _ es =>
          match lookup_entry x es with
          | Some c => find p' c
          | None => None
          end
      end
  end.

Definition read_file (p : path) (n : node) : option string :=
  match find p n with
  | Some (File _ c) => Some c
  | _ => None
  end.

(** Set the node at [p], whose parent must be a directory; a directory that
    gains an entry gets the modification time [now]. *)
Fixpoint put (now : Z) (p : path) (new : node) (n : node) : option node :=
  match p with
  | [] => Some new
  | x :: p' =>
      match n with
      | File _ _ => None
      | Dir t es =>
          match p', lookup_entry x es with
          | [], None => Some (Dir now (set_entry x new es))
          | [], Some _ => Some (Dir t (set_entry x new es))
          | _ :: _, None => None
          | _ :: _, Some c =>
              match put now p' new c with
              | Some c' => Some (Dir t (set_entry x c' es))
              | None => None
              end
          end
      end
  end.

(** [mkdir -p]: fails when a component of the path is a file. *)
Fixpoint mkdir_p (now : Z) (p : path) (n : node) : option node :=
  match n with
  | File _ _ => None
  | Dir t es =>
      match p with
      | [] => Some n
      | x :: p' =>
          match lookup_entry x es with
          | Some c =>
              match mkdir_p now p' c with
              | Some c' => Some (Dir t (set_entry x c' es))
              | None => None
              end
          | None =>
              match mkdir_p now p' (Dir now []) with
              | Some c' => Some (Dir now (set_entry x c' es))
              | None => None
              end
          end
      end
  end.

(** [rm -rf]: a missing path is left alone. *)
Fixpoint remove (now : Z) (p : path) (n : node) : node :=
  match p, n with
  | x :: p', Dir t es =>
      match p', lookup_entry x es with
      | [], Some _ => Dir now (remove_entry x es)
      | _ :: _, Some c => Dir t (set_entry x (remove now p' c) es)
      | _, None => n
      end
  | _, _ => n
  end.

(** The tree that a recursive copy of [src] leaves at a destination holding
    [dst]: directories are merged, files overwritten; a file cannot replace a
    directory nor a directory a file. *)
Fixpoint copy_onto (now : Z) (src : node) (dst : option node) : option node :=
  match src with
  | File _ c =>
      match dst with
      | Some (Dir _ _) => None
      | _ => Some (File now c)
      end
  | Dir _ es =>
      let fix merge (es : list (string * node)) (t : Z) (des : list (string * node))
          : option node :=
        match es with
        | [] => Some (Dir t des)
        | (x, c) :: es' =>
            match copy_onto now c (lookup_entry x des) with
            | Some c' =>
                merge es'
                      (match lookup_entry x des with Some _ => t | None => now end)
                      (set_entry x c' des)
            | None => None
            end
        end in
      match dst with
      | Some (File _ _) => None
      | Some (Dir t des) => merge es t des
      | None => merge es now []
      end
  end.

(* ================================================================== *)
(** * The world and the monad of the service *)
(* ================================================================== *)

Inductive syscall :=
| Access | Stat | Readdir | Mkdir | CopyFile | Cp | WriteFile | Rm.

Definition syscall_eqb (a b : syscall) : bool :=
  match a, b with
  | Access, Access | Stat, Stat | Readdir, Readdir | Mkdir, Mkdir
  | CopyFile, CopyFile | Cp, Cp | WriteFile, WriteFile | Rm, Rm => true
  | _, _ => false
  end.

(** What is thrown: the rejection of an [fs] call, or [new Error(message)]. *)
Inductive error :=
| FsError (code : string) (call : syscall) (target : path)
| JsError (message : string).

Inductive level := LDebug | LInfo | LWarn | LError.

Record log_entry := {
  log_level : level;
  log_message : string;
  log_detail : option error
}.

(** A write that an [fs] call performed. *)
Inductive fs_write :=
| WMkdir (p : path)
| WCopyFile (src dest : path)
| WCp (src dest : path)
| WWriteFile (p : path)
| WRm (p : path).

(** [faults] lists the calls that the environment rejects (permissions, a
    busy or broken device): a call of that kind on that path throws. *)
Record world := {
  root : node;
  clock : Z;
  faults : list (syscall * path);
  logs : list log_entry;
  writes : list fs_write
}.

Definition failing (w : world) (call : syscall) (p : path) : bool :=
  existsb (fun f => syscall_eqb call (fst f) && path_eqb p (snd f)) (faults w).

Definition with_root (w : world) (r : node) (done : fs_write) : world :=
  {| root := r; clock := clock w; faults := faults w; logs := logs w;
     writes := writes w ++ [done] |}.

Definition with_log (w : world) (e : log_entry) : world :=
  {| root := root w; clock := clock w; faults := faults w; logs := logs w ++ [e];
     writes := writes w |}.

(** The result of running a computation: a value, a thrown error, or
    [OutOfFuel] when the bound on the recursion depth was reached (a
    computation that needs more steps than it was given). *)
Inductive outcome (A : Type) :=
| Ok (a : A)
| Throw (e : error)
| OutOfFuel.
Arguments Ok {A} a.
Arguments Throw {A} e.
Arguments OutOfFuel {A}.

Definition M (A : Type) : Type := world -> outcome A * world.

Definition ret {A} (a : A) : M A := fun w => (Ok a, w).
Definition throw {A} (e : error) : M A := fun w => (Throw e, w).
Definition out_of_fuel {A} : M A := fun w => (OutOfFuel, w).

Definition bind {A B} (m : M A) (k : A -> M B) : M B :=
  fun w =>
    match m w with
    | (Ok a, w') => k a w'
    | (Throw e, w') => (Throw e, w')
    | (OutOfFuel, w') => (OutOfFuel, w')
    end.

(** [try { body } catch (error) { handler }] *)
Definition try_catch {A} (body : M A) (handler : error -> M A) : M A :=
  fun w =>
    match body w with
    | (Throw e, w') => handler e w'
    | r => r
    end.

Declare Scope service_scope.
Delimit Scope service_scope with service.
Notation "x <- m ;; k" := (bind m (fun x => k))
  (at level 61, m at next level, right associativity) : service_scope.
Notation "m ;; k" := (bind m (fun _ => k))
  (at level 61, right associativity) : service_scope.
Local Open Scope service_scope.

(** [for (const x of xs) { body }] *)
Fixpoint for_each {A} (xs : list A) (body : A -> M unit) : M unit :=
  match xs with
  | [] => ret tt
  | x :: xs' => body x ;; for_each xs' body
  end.

Definition log (l : level) (message : string) (detail : option error) : M unit :=
  fun w => (Ok tt, with_log w {| log_level := l; log_message := message;
                                 log_detail := detail |}).

Definition date_now : M Z := fun w => (Ok (clock w), w).

(** ** The calls of [fs] *)

Definition rejected {A} (code : string) (call : syscall) (p : path) : M A :=
  throw (FsError code call p).

(** Every call first meets the environment. *)
Definition guarded {A} (call : syscall) (p : path) (m : M A) : M A :=
  fun w => if failing w call p then rejected "EIO" call p w else m w.

Definition fs_access (p : path) : M unit :=
  guarded Access p (fun w =>
    match find p (root w) with
    | Some _ => (Ok tt, w)
    | None => rejected "ENOENT" Access p w
    end).

Record Stats := { isDirectory : bool; isFile : bool; mtime_getTime : Z }.

Definition fs_stat (p : path) : M Stats :=
  guarded Stat p (fun w =>
    match find p (root w) with
    | Some n => (Ok {| isDirectory := is_dir n; isFile := negb (is_dir n);
                       mtime_getTime := node_mtime n |}, w)
    | None => rejected "ENOENT" Stat p w
    end).

Record Dirent := { d_name : string; d_isDirectory : bool }.

Definition dirents (es : list (string * node)) : list Dirent :=
  map (fun e => {| d_name := fst e; d_isDirectory := is_dir (snd e) |}) es.

(** [fs.readdir(p, { withFileTypes: true })] *)
Definition fs_readdir_types (p : path) : M (list Dirent) :=
  guarded Readdir p (fun w =>
    match find p (root w) with
    | Some (Dir _ es) => (Ok (dirents es), w)
    | Some (File _ _) => rejected "ENOTDIR" Readdir p w
    | None => rejected "ENOENT" Readdir p w
    end).

(** [fs.readdir(p)] *)
Definition fs_readdir (p : path) : M (list string) :=
  ds <- fs_readdir_types p ;; ret (map d_name ds).

(** [fs.mkdir(p, { recursive: true })] *)
Definition fs_mkdir (p : path) : M unit :=
  guarded Mkdir p (fun w =>
    match mkdir_p (clock w) p (root w) with
    | Some r => (Ok tt, with_root w r (WMkdir p))
    | None => rejected "EEXIST" Mkdir p w
    end).

(** [fs.copyFile(src, dest)]: [dest] is created or overwritten. *)
Definition fs_copyFile (src dest : path) : M unit :=
  guarded CopyFile src (fun w =>
    match find src (root w) with
    | Some (File _ c) =>
        match find dest (root w) with
        | Some (Dir _ _) => rejected "EISDIR" CopyFile dest w
        | _ =>
            match put (clock w) dest (File (clock w) c) (root w) with
            | Some r => (Ok tt, with_root w r (WCopyFile src dest))
            | None => rejected "ENOENT" CopyFile dest w
            end
        end
    | Some (Dir _ _) => rejected "EISDIR" CopyFile src w
    | None => rejected "ENOENT" CopyFile src w
    end).

(** [fs.writeFile(p, content, "utf-8")] *)
Definition fs_writeFile (p : path) (content : string) : M unit :=
  guarded WriteFile p (fun w =>
    match find p (root w) with
    | Some (Dir _ _) => rejected "EISDIR" WriteFile p w
    | _ =>
        match put (clock w) p (File (clock w) content) (root w) with
        | Some r => (Ok tt, with_root w r (WWriteFile p))
        | None => rejected "ENOENT" WriteFile p w
        end
    end).

(** [fs.rm(p, { recursive: true, force: true })] *)
Definition fs_rm (p : path) : M unit :=
  guarded Rm p (fun w => (Ok tt, with_root w (remove (clock w) p (root w)) (WRm p))).

(** [fs.cp(src, dest, { recursive: true })]: the parent of [dest] is created
    when missing; [dest] may not lie inside [src].  The copy is taken as one
    step: it happens as a whole or is rejected. *)
Definition fs_cp (src dest : path) : M unit :=
  guarded Cp src (fun w =>
    match find src (root w) with
    | None => rejected "ENOENT" Cp src w
    | Some s =>
        if is_prefix src dest then rejected "ERR_FS_CP_EINVAL" Cp dest w
        else
          match mkdir_p (clock w) (removelast dest) (root w) with
          | None => rejected "ENOTDIR" Cp dest w
          | Some r1 =>
              match copy_onto (clock w) s (find dest r1) with
              | None => rejected "ERR_FS_CP_DIR_TO_NON_DIR" Cp dest w
              | Some merged =>
                  match put (clock w) dest merged r1 with
                  | Some r2 => (Ok tt, with_root w r2 (WCp src dest))
                  | None => rejected "ENOTDIR" Cp dest w
                  end
              end
          end
    end).

(* ================================================================== *)
(** * DeltaBakingService *)
(* ================================================================== *)

Definition log_info (message : string) : M unit := log LInfo message None.
Definition log_debug (message : string) : M unit := log LDebug message None.
Definition log_warn (message : string) (e : error) : M unit := log LWarn message (Some e).
Definition log_error (message : string) (e : error) : M unit := log LError message (Some e).

(** [path.join(WRITE_DATA_PATH, "baked-games")] *)
Definition bakedGamesDir (cfg : config) : path := WRITE_DATA_PATH cfg ++ ["baked-games"].

(** The constructor: [ensureBakedGamesDirSync]. *)
Definition ensureBakedGamesDirSync (cfg : config) : M unit :=
  try_catch (fs_mkdir (bakedGamesDir cfg))
            (fun e => log_error "Failed to create baked games directory:" e).

(** Utility to check if file/directory exists. *)
Definition fileExists (filePath : path) : M bool :=
  try_catch (fs_access filePath ;; ret true) (fun _ => ret false).

(** Checks if a path is a valid game archive. *)
Definition isValidGameArchive (archivePath : path) : M bool :=
  try_catch
    (stat <- fs_stat archivePath ;;
     if isDirectory stat && path_endsWith archivePath ".sdd" then
       fileExists (archivePath ++ ["modinfo.lua"])
     else if isFile stat && (path_endsWith archivePath ".sdz" || path_endsWith archivePath ".sd7") then
       ret true
     else ret false)
    (fun _ => ret false).

(** The filter of [findBaseGame] on the names of a search directory. *)
Definition isCandidate (gameType file : string) : bool :=
  includes (Unicode.toLowerCase file) (Unicode.toLowerCase gameType)
  || includes (Unicode.toLowerCase file) "byar"
  || includes (Unicode.toLowerCase file) "beyond".

(** The inner loop of [findBaseGame]: the first valid candidate, if any. *)
Fixpoint firstValidCandidate (searchDir : path) (candidates : list string)
  : M (option path) :=
  match candidates with
  | [] => ret None
  | candidate :: rest =>
      let fullPath := searchDir ++ [candidate] in
      valid <- isValidGameArchive fullPath ;;
      if valid then
        log_info ("📁 Found base game at: " ++ path_string fullPath) ;; ret (Some fullPath)
      else firstValidCandidate searchDir rest
  end.

(** The outer loop of [findBaseGame]. *)
Fixpoint searchBaseGame (gameType : string) (possiblePaths : list path) : M path :=
  match possiblePaths with
  | [] => throw (JsError ("Base game not found for: " ++ gameType))
  | searchDir :: rest =>
      present <- fileExists searchDir ;;
      if negb present then searchBaseGame gameType rest
      else
        files <- fs_readdir searchDir ;;
        let candidates := filter (isCandidate gameType) files in
        found <- firstValidCandidate searchDir candidates ;;
        match found with
        | Some fullPath => ret fullPath
        | None => searchBaseGame gameType rest
        end
  end.

Definition possiblePaths (cfg : config) (engineVersion : string) : list path :=
  [ WRITE_DATA_PATH cfg ++ ["games"];
    join_path (join_path (process_cwd cfg ++ ["assets"; "engine"]) engineVersion) "games";
    process_cwd cfg ++ ["assets"; "games"] ].

(** Finds the base game archive in the engine directories. *)
Definition findBaseGame (cfg : config) (gameType engineVersion : string) : M path :=
  log_info ("🔍 Looking for base game files for: " ++ gameType) ;;
  searchBaseGame gameType (possiblePaths cfg engineVersion).

(** Extracts an archive to a destination directory. *)
Definition extractArchive (archivePath destDir : path) : M unit :=
  stat <- fs_stat archivePath ;;
  if isDirectory stat then
    log_info ("📂 Copying directory: " ++ path_string archivePath ++ " -> "
              ++ path_string destDir) ;;
    fs_cp archivePath destDir
  else
    throw (JsError ("Zip extraction not yet implemented for: " ++ path_string archivePath)).

(** The body of the loop of [overlayDirectory]; [recurse] is the function
    itself. *)
Definition overlayEntry (recurse : path -> path -> M unit) (srcDir destDir : path)
    (entry : Dirent) : M unit :=
  let srcPath := srcDir ++ [d_name entry] in
  let destPath := destDir ++ [d_name entry] in
  if d_isDirectory entry then
    fs_mkdir destPath ;;
    recurse srcPath destPath
  else
    fs_copyFile srcPath destPath ;;
    log_debug ("📄 Overlaid file: " ++ d_name entry).

(** Overlays source directory onto destination directory.  The recursion
    follows the tree as it is read from the disk at each level, so its depth
    is bounded by [fuel]. *)
Fixpoint overlayDirectory (fuel : nat) (srcDir destDir : path) : M unit :=
  match fuel with
  | O => out_of_fuel
  | S fuel' =>
      entries <- fs_readdir_types srcDir ;;
      for_each entries (overlayEntry (overlayDirectory fuel') srcDir destDir)
  end.

(** Applies a mod's delta changes to the baked game directory. *)
Definition applyModDelta (cfg : config) (fuel : nat) (mod_ : ModMetadata)
    (bakedGameDir : path) : M unit :=
  let modPath := resolve (process_cwd cfg) (installPath mod_) in
  log_info ("🔄 Overlaying mod files from: " ++ installPath mod_) ;;
  overlayDirectory fuel modPath bakedGameDir.

Definition modInfoContent (baseGameType : string) (mods : list ModMetadata) : string :=
  let modNames := join " + " (map name mods) in
  let shortname :=
    ("baked-" ++ substring 0 8 (generateCombinationHash baseGameType mods ""))%string in
  "return {" ++ newline ++
  "    name='" ++ baseGameType ++ " + " ++ modNames ++ "'," ++ newline ++
  "    description='Baked game combining " ++ baseGameType ++ " with "
     ++ string_of_nat (length mods) ++ " mod(s)'," ++ newline ++
  "    version='baked-1.0.0'," ++ newline ++
  "    shortname='" ++ shortname ++ "'," ++ newline ++
  "    game='Beyond All Reason'," ++ newline ++
  "    shortGame='BAR'," ++ newline ++
  "    modtype=1, -- Game type" ++ newline ++
  "    depend = {" ++ newline ++
  "        -- Base game dependencies inherited" ++ newline ++
  "    }" ++ newline ++
  "}".

(** Creates a modinfo.lua for the baked game. *)
Definition createBakedGameModInfo (bakedGameDir : path) (baseGameType : string)
    (mods : list ModMetadata) : M unit :=
  let modInfoPath := bakedGameDir ++ ["modinfo.lua"] in
  fs_writeFile modInfoPath (modInfoContent baseGameType mods) ;;
  log_info "📝 Created baked game modinfo.lua".

(** Cleans up a failed baking attempt. *)
Definition cleanupBakedGame (bakedGameDir : path) : M unit :=
  try_catch
    (present <- fileExists bakedGameDir ;;
     if present then
       fs_rm bakedGameDir ;;
       log_info ("🧹 Cleaned up failed baking attempt: " ++ path_string bakedGameDir)
     else ret tt)
    (fun e => log_warn "Failed to cleanup baked game directory:" e).

Definition bakedGameName (options : DeltaBakingOptions) : string :=
  "baked-" ++ generateCombinationHash (baseGameType options) (mods options)
                                      (engineVersion options).

(** [path.join(this.bakedGamesDir, bakedGameName)] *)
Definition bakedGameDir (cfg : config) (options : DeltaBakingOptions) : path :=
  bakedGamesDir cfg ++ [bakedGameName options].

(** [`${bakedGameDir}.sdd`] *)
Definition bakedGameArchive (cfg : config) (options : DeltaBakingOptions) : path :=
  bakedGamesDir cfg ++ [(bakedGameName options ++ ".sdd")%string].

Definition bakedResult (cfg : config) (options : DeltaBakingOptions) : BakedGameResult :=
  {| gameType := bakedGameName options;
     archivePath := bakedGameArchive cfg options;
     hash := generateCombinationHash (baseGameType options) (mods options)
                                     (engineVersion options) |}.

(** The [try] block of [bakeGame]: steps 1 to 3. *)
Definition buildBakedGame (cfg : config) (fuel : nat) (options : DeltaBakingOptions)
  : M BakedGameResult :=
  baseGamePath <- findBaseGame cfg (baseGameType options) (engineVersion options) ;;
  extractArchive baseGamePath (bakedGameDir cfg options) ;;
  for_each (mods options) (fun mod_ =>
    log_info ("📦 Applying mod delta: " ++ name mod_) ;;
    applyModDelta cfg fuel mod_ (bakedGameDir cfg options)) ;;
  createBakedGameModInfo (bakedGameDir cfg options) (baseGameType options) (mods options) ;;
  log_info ("✅ Successfully baked game: " ++ bakedGameName options) ;;
  ret (bakedResult cfg options).

(** The [catch] block of [bakeGame]. *)
Definition bakeFailed (cfg : config) (options : DeltaBakingOptions) (e : error)
  : M BakedGameResult :=
  log_error "❌ Failed to bake game:" e ;;
  cleanupBakedGame (bakedGameDir cfg options) ;;
  throw e.

Definition startingMessage (options : DeltaBakingOptions) : string :=
  "🏗️ Starting delta baking for base game: " ++ baseGameType options
  ++ " with " ++ string_of_nat (length (mods options)) ++ " mods".

Definition bakingMessage (options : DeltaBakingOptions) : string :=
  "🔨 Baking new game combination: " ++ bakedGameName options.

(** Bakes a base game with mod deltas into a single game archive. *)
Definition bakeGame (cfg : config) (fuel : nat) (options : DeltaBakingOptions)
  : M BakedGameResult :=
  log_info (startingMessage options) ;;
  cached <- fileExists (bakedGameArchive cfg options) ;;
  if cached then
    log_info ("✅ Found existing baked game: " ++ bakedGameName options) ;;
    ret (bakedResult cfg options)
  else
    log_info (bakingMessage options) ;;
    try_catch (buildBakedGame cfg fuel options) (bakeFailed cfg options).

Definition default_maxAge : Z := 7 * 24 * 60 * 60 * 1000.

(** The body of the loop of [cleanupOldBakedGames]. *)
Definition sweepEntry (cfg : config) (maxAge now : Z) (entry : Dirent) : M unit :=
  if d_isDirectory entry && startsWith (d_name entry) "baked-" then
    let entryPath := bakedGamesDir cfg ++ [d_name entry] in
    stat <- fs_stat entryPath ;;
    if (now - mtime_getTime stat >? maxAge)%Z then
      fs_rm entryPath ;;
      log_info ("🧹 Cleaned up old baked game: " ++ d_name entry)
    else ret tt
  else ret tt.

(** The [try] block of [cleanupOldBakedGames]. *)
Definition sweepBakedGames (cfg : config) (maxAge : Z) : M unit :=
  present <- fileExists (bakedGamesDir cfg) ;;
  if negb present then ret tt
  else
    entries <- fs_readdir_types (bakedGamesDir cfg) ;;
    now <- date_now ;;
    for_each entries (sweepEntry cfg maxAge now).

(** Cleans up old baked games to save disk space. *)
Definition cleanupOldBakedGames (cfg : config) (maxAge : Z) : M unit :=
  try_catch (sweepBakedGames cfg maxAge)
            (fun e => log_warn "Failed to cleanup old baked games:" e).

(* ================================================================== *)
(** * Regular expressions of the composable, with [String.prototype.replace] *)
(* ================================================================== *)

(** The two patterns of [useModIntegration] are made of single characters,
    classes of ASCII characters and [\s], in sequence and under [*] and
    [+]; the matchers below are those of the ECMAScript semantics for
    these, on the UTF-8 bytes of the text. *)

Module RegExp.

(** A matcher takes a prefix off its input and hands what is left to its
    continuation; when the continuation fails the matcher tries its next
    alternative, which is the backtracking of the engine.  The answer is
    what is left of the input after the whole match. *)
Definition continuation := string -> option string.
Definition matcher := string -> continuation -> option string.

(** An item takes one character off the input: [rest] when it accepts. *)
Definition item := string -> option string.

(** A pattern character under the flag [i]: the pattern is in ASCII, and so
    is every character that has the same canonical form as one of its
    letters. *)
Definition char_i (c : ascii) : item :=
  fun s =>
    match s with
    | String x rest => if Ascii.eqb (lower_ascii x) (lower_ascii c) then Some rest else None
    | EmptyString => None
    end.

(** A class of ASCII characters, [[...]]. *)
Definition any_of (cs : list ascii) : item :=
  fun s =>
    match s with
    | String x rest => if existsb (Ascii.eqb x) cs then Some rest else None
    | EmptyString => None
    end.

(** The complement of a class of ASCII characters, [[^...]].  A character
    of several bytes is taken byte by byte: none of its bytes is in the
    class. *)
Definition none_of (cs : list ascii) : item :=
  fun s =>
    match s with
    | String x rest => if existsb (Ascii.eqb x) cs then None else Some rest
    | EmptyString => None
    end.

Definition byte_is (c : ascii) (n : N) : bool := (N_of_ascii c =? n)%N.

(** [\s]: the white space and line terminators of ECMAScript, in UTF-8:
    U+0009 to U+000D, U+0020, U+00A0, U+1680, U+2000 to U+200A, U+2028,
    U+2029, U+202F, U+205F, U+3000 and U+FEFF. *)
Definition white : item :=
  fun s =>
    match s with
    | EmptyString => None
    | String c rest =>
        let n := N_of_ascii c in
        if ((9 <=? n) && (n <=? 13))%N || (n =? 32)%N then Some rest
        else
          match rest with
          | String c2 rest2 =>
              if byte_is c 0xC2 && byte_is c2 0xA0 then Some rest2
              else
                match rest2 with
                | String c3 rest3 =>
                    let n3 := N_of_ascii c3 in
                    if (byte_is c 0xE1 && byte_is c2 0x9A && byte_is c3 0x80)
                       || (byte_is c 0xE2 && byte_is c2 0x80
                           && (((0x80 <=? n3) && (n3 <=? 0x8A))%N
                               || byte_is c3 0xA8 || byte_is c3 0xA9 || byte_is c3 0xAF))
                       || (byte_is c 0xE2 && byte_is c2 0x81 && byte_is c3 0x9F)
                       || (byte_is c 0xE3 && byte_is c2 0x80 && byte_is c3 0x80)
                       || (byte_is c 0xEF && byte_is c2 0xBB && byte_is c3 0xBF)
                    then Some rest3
                    else None
                | EmptyString => None
                end
          | EmptyString => None
          end
    end.

Definition one (a : item) : matcher :=
  fun s k => match a s with Some rest => k rest | None => None end.

Definition seq (m1 m2 : matcher) : matcher :=
  fun s k => m1 s (fun rest => m2 rest k).

(** A greedy repetition takes one more item first and falls back to
    stopping here.  Every item takes at least one byte, so the repetition
    runs at most as many times as the input has bytes. *)
Fixpoint repeat_at_most (bound : nat) (a : item) (s : string) (k : continuation)
  : option string :=
  match bound with
  | O => k s
  | S bound' =>
      match a s with
      | Some rest =>
          match repeat_at_most bound' a rest k with
          | Some r => Some r
          | None => k s
          end
      | None => k s
      end
  end.

(** [a*] *)
Definition star (a : item) : matcher :=
  fun s k => repeat_at_most (String.length s) a s k.

(** [a+] *)
Definition plus (a : item) : matcher := seq (one a) (star a).

(** A word of the pattern under the flag [i]. *)
Fixpoint word_i (w : string) : matcher :=
  match w with
  | EmptyString => fun s k => k s
  | String c w' => seq (one (char_i c)) (word_i w')
  end.

(** The first match, trying the start positions from left to right: what
    precedes the match, the match, and what follows it. *)
Fixpoint exec_from (re : matcher) (before s : string) : option (string * string * string) :=
  match re s Some with
  | Some rest =>
      Some (before, substring 0 (String.length s - String.length rest) s, rest)
  | None =>
      match s with
      | EmptyString => None
      | String c s' => exec_from re (before ++ String c EmptyString)%string s'
      end
  end.

Definition exec (re : matcher) (s : string) : option (string * string * string) :=
  exec_from re "" s.

(** The text that a replacement string stands for (GetSubstitution), for a
    pattern without groups: [$$] is a dollar sign, [$&] the match, [$`]
    what precedes it and [$'] what follows it; any other dollar sign,
    before a digit or [<] too, stands for itself. *)
Fixpoint getSubstitution (matched before after template : string) : string :=
  match template with
  | EmptyString => EmptyString
  | String c rest =>
      if byte_is c 36 then
        match rest with
        | String d rest' =>
            if byte_is d 36 then String c (getSubstitution matched before after rest')
            else if byte_is d 38 then (matched ++ getSubstitution matched before after rest')%string
            else if byte_is d 96 then (before ++ getSubstitution matched before after rest')%string
            else if byte_is d 39 then (after ++ getSubstitution matched before after rest')%string
            else String c (getSubstitution matched before after rest)
        | EmptyString => String c EmptyString
        end
      else String c (getSubstitution matched before after rest)
  end.

(** [s.replace(re, replacement)] for a pattern without the flag [g]. *)
Definition replace (re : matcher) (replacement s : string) : string :=
  match exec re s with
  | None => s
  | Some (before, matched, after) =>
      (before ++ getSubstitution matched before after replacement ++ after)%string
  end.

End RegExp.

(* ================================================================== *)
(** * useModIntegration *)
(* ================================================================== *)

(** The composable of the renderer that turns the selected mods into what
    the launch of a game needs: the paths of the mods, the mod sections of a
    start script and the script with its game type replaced.  Its source
    follows the service in the same source text.

    The composable reads [selectedMods.value], here the argument
    [selectedMods]; what it writes with [console.log] is returned beside
    its result, oldest line first.  [bakeGameWithMods] hands the request
    to [window.mod.bakeGameWithMods], whose other end is not part of the
    sources at hand, and is left out. *)
Definition logged (A : Type) : Type := A * list string.

Definition modPaths (selectedMods : list ModMetadata) : list string :=
  map installPath selectedMods.

Definition hasMods (selectedMods : list ModMetadata) : bool :=
  (0 <? length selectedMods)%nat.

(** [/[/\\]/] *)
Definition isSeparator (c : ascii) : bool :=
  RegExp.byte_is c 47 || RegExp.byte_is c 92.

(** [s.split(re)] for a pattern [re] that matches one character. *)
Fixpoint split_where (sep : ascii -> bool) (s : string) : list string :=
  match s with
  | EmptyString => [EmptyString]
  | String c s' =>
      if sep c then EmptyString :: split_where sep s'
      else match split_where sep s' with
           | seg :: segs => String c seg :: segs
           | [] => [String c EmptyString]
           end
  end.

(** [a[a.length - 1]] in a template literal. *)
Definition lastPart (pathParts : list string) : string :=
  match nth_error pathParts (length pathParts - 1) with
  | Some part => part
  | None => "undefined"
  end.

(** Extract the archive name from the install path. *)
Definition archiveName (mod_ : ModMetadata) : string :=
  let pathParts := split_where isSeparator (installPath mod_) in
  lastPart pathParts.

(** [xs.forEach((x, index) => ...)] on the variables that the callback
    assigns. *)
Fixpoint forEach_from {A V : Type} (index : nat) (xs : list A) (body : A -> nat -> V -> V)
    (state : V) : V :=
  match xs with
  | [] => state
  | x :: xs' => forEach_from (S index) xs' body (body x index state)
  end.

Definition forEach {A V : Type} (xs : list A) (body : A -> nat -> V -> V) (state : V) : V :=
  forEach_from 0 xs body state.

(** Generates Spring engine compatible mod script content. *)
Definition generateModScriptContent (selectedMods : list ModMetadata) : string :=
  if negb (hasMods selectedMods) then ""
  else
    forEach selectedMods (fun mod_ index (scriptContent : string) =>
      let scriptContent :=
        (scriptContent ++ newline ++ "[MUTATOR" ++ string_of_nat index ++ "]" ++ newline)%string in
      let scriptContent := (scriptContent ++ "{" ++ newline)%string in
      let scriptContent :=
        (scriptContent ++ "    Name=" ++ shortname mod_ ++ ";" ++ newline)%string in
      let scriptContent :=
        (scriptContent ++ "    Archive=" ++ archiveName mod_ ++ ";" ++ newline)%string in
      let scriptContent := (scriptContent ++ "}" ++ newline)%string in
      scriptContent) "".

Definition modScriptContent (selectedMods : list ModMetadata) : string :=
  generateModScriptContent selectedMods.

(** [/gametype\s*=\s*[^;\n\r]+[;\n\r]/i] *)
Definition gametypeLine : RegExp.matcher :=
  let terminators := [";"%char; ascii_of_nat 10; ascii_of_nat 13] in
  RegExp.seq (RegExp.word_i "gametype")
    (RegExp.seq (RegExp.star RegExp.white)
       (RegExp.seq (RegExp.one (RegExp.char_i "="))
          (RegExp.seq (RegExp.star RegExp.white)
             (RegExp.seq (RegExp.plus (RegExp.none_of terminators))
                (RegExp.one (RegExp.any_of terminators)))))).

(** Injects mod content into a Spring script at the appropriate location. *)
Definition injectModsIntoScript (selectedMods : list ModMetadata) (script : string)
  : logged string :=
  if negb (hasMods selectedMods) then (script, [])
  else if (length selectedMods =? 1)%nat then
    match selectedMods with
    | mod_ :: _ =>
        let modifiedScript :=
          RegExp.replace gametypeLine
            ("gametype = " ++ archiveName mod_ ++ ";" ++ newline)%string script in
        (modifiedScript,
         [("🎯 Using GameType approach - setting gametype = " ++ archiveName mod_)%string])
    | [] => (script, [])  (* not reached: the length is 1 *)
    end
  else
    (script, ["⚠️ Multiple mods selected - GameType approach only works for single mods"]).

(* ================================================================== *)
(** * What the proofs speak of *)
(* ================================================================== *)

(** ** Relations between the world before and after a computation *)

(** A computation respects a relation between worlds when the world it
    leaves is related to the one it started in, whatever its outcome. *)
Definition respects (R : world -> world -> Prop) {A} (m : M A) : Prop :=
  forall w, R w (snd (m w)).

(** Nothing was written. *)
Definition quiet (w w' : world) : Prop :=
  root w' = root w /\ writes w' = writes w /\ clock w' = clock w /\ faults w' = faults w.

(** The paths in [P] still hold what they held; clock and faults are those
    of the environment. *)
Definition keeps (P : path -> Prop) (w w' : world) : Prop :=
  clock w' = clock w /\ faults w' = faults w /\
  forall q, P q -> find q (root w') = find q (root w).

Definition keeping (P : path -> Prop) {A} (m : M A) := respects (keeps P) m.

Definition extends (w w' : world) : Prop := exists done, writes w' = writes w ++ done.

Definition extending {A} (m : M A) := respects extends m.

Definition outside (d : path) (q : path) : Prop := apart d q = true.

(** Computations that do not depend on the depth bound. *)
Definition unbounded {A} (m : M A) : Prop := forall w, fst (m w) <> OutOfFuel.

(** ** What the calls of the service answer and leave *)

(** A text of ASCII characters only. *)
Fixpoint isAscii (s : string) : bool :=
  match s with
  | EmptyString => true
  | String c rest => (N_of_ascii c <? 0x80)%N && isAscii rest
  end.

Definition present (n : option node) : bool :=
  match n with Some _ => true | None => false end.

(** The answer of [fileExists]. *)
Definition exists_at (w : world) (p : path) : bool :=
  negb (failing w Access p) && present (find p (root w)).

(** The answer of [isValidGameArchive]. *)
Definition valid_at (w : world) (p : path) : bool :=
  if failing w Stat p then false
  else match find p (root w) with
       | None => false
       | Some n =>
           if is_dir n && path_endsWith p ".sdd" then exists_at w (p ++ ["modinfo.lua"])
           else if negb (is_dir n) && (path_endsWith p ".sdz" || path_endsWith p ".sd7")
                then true else false
       end.

(** The world in which the [try] block of [bakeGame] starts. *)
Definition bakeStarted (options : DeltaBakingOptions) (w : world) : world :=
  with_log (with_log w {| log_level := LInfo; log_message := startingMessage options;
                          log_detail := None |})
           {| log_level := LInfo; log_message := bakingMessage options; log_detail := None |}.

Definition applyMods (cfg : config) (fuel : nat) (options : DeltaBakingOptions)
  : list ModMetadata -> M unit :=
  fun ms => for_each ms (fun mod_ =>
    log_info ("📦 Applying mod delta: " ++ name mod_) ;;
    applyModDelta cfg fuel mod_ (bakedGameDir cfg options)).

(** The kind under which a listing shows the name [f] first. *)
Definition listed_as (f : string) (ds : list Dirent) : option bool :=
  option_map d_isDirectory (List.find (fun e => String.eqb (d_name e) f) ds).

(** An entry that the sweep removes. *)
Definition eligible (now maxAge : Z) (e : string * node) : bool :=
  is_dir (snd e) && startsWith (fst e) "baked-" && (now - node_mtime (snd e) >? maxAge)%Z.

(** The call that the environment rejects when the sweep comes to a listed
    entry: the stat of a directory named baked-..., or the removal of one
    that is old enough. *)
Definition sweepRejection (cfg : config) (maxAge now : Z) (w : world) (e : string * node)
  : option error :=
  let entryPath := bakedGamesDir cfg ++ [fst e] in
  if is_dir (snd e) && startsWith (fst e) "baked-" then
    if failing w Stat entryPath then Some (FsError "EIO" Stat entryPath)
    else if (now - node_mtime (snd e) >? maxAge)%Z && failing w Rm entryPath
         then Some (FsError "EIO" Rm entryPath)
         else None
  else None.

Definition sweepWarning (e : error) : log_entry :=
  {| log_level := LWarn; log_message := "Failed to cleanup old baked games:";
     log_detail := Some e |}.

(** The number of directory levels of a tree. *)
Fixpoint height (n : node) : nat :=
  match n with
  | File _ _ => 0
  | Dir _ es =>
      let fix tallest (es : list (string * node)) : nat :=
        match es with
        | [] => 0
        | (_, c) :: es' => Nat.max (height c) (tallest es')
        end in
      S (tallest es)
  end.

(** The levels below a path: those of the directory there, none when the
    path holds a file or nothing. *)
Definition levels (p : path) (r : node) : nat :=
  match find p r with
  | Some n => height n
  | None => 0
  end.

(** ** The resolver as the specification words it *)

(** §4.2 of the specification: a directory ending in the expanded extension
    that contains the manifest marker, or a file with a packaged-archive
    extension. *)
Definition isValidArtifact_spec (r : node) (p : path) : bool :=
  match find p r with
  | Some (Dir _ es) =>
      path_endsWith p ".sdd" && present (lookup_entry "modinfo.lua" es)
  | Some (File _ _) => path_endsWith p ".sdz" || path_endsWith p ".sd7"
  | None => false
  end.

(** §4.2: "contains", as a position at which the word is read in the text. *)
Definition occurs_in (word text : string) : bool :=
  existsb (fun i => String.eqb (substring i (String.length word) text) word)
          (seq 0 (S (String.length text))).

(** §4.2: the known aliases of a base type. *)
Definition aliases_spec : list string := ["byar"; "beyond"].

(** §4.2: the name "case-insensitively contains the requested type or a
    known alias": one of these words occurs in the name, both taken to
    lower case. *)
Definition nameMatches_spec (gameType name : string) : bool :=
  existsb (fun word => occurs_in (Unicode.toLowerCase word) (Unicode.toLowerCase name))
          (gameType :: aliases_spec).

(** The entries of one search directory whose name matches, in listing order. *)
Definition candidates_spec (r : node) (gameType : string) (dir : path) : list path :=
  match find dir r with
  | Some (Dir _ es) => map (fun f => dir ++ [f]) (filter (nameMatches_spec gameType) (map fst es))
  | _ => []
  end.

(** §4.2: the first validated match in search order. *)
Definition resolveBase_spec (r : node) (gameType : string) (dirs : list path) : option path :=
  List.find (isValidArtifact_spec r) (flat_map (candidates_spec r gameType) dirs).

(** A search folder that is there and is not a directory. *)
Definition notDirectory (r : node) (dir : path) : bool :=
  match find dir r with
  | Some (File _ _) => true
  | _ => false
  end.

(** The elements of a list before the first one that [stop] holds of. *)
Fixpoint before_first {A} (stop : A -> bool) (xs : list A) : list A :=
  match xs with
  | [] => []
  | x :: rest => if stop x then [] else x :: before_first stop rest
  end.

(** The resolution of a base: the first validated match of the search
    folders that precede the first one which is not a directory; without a
    match, the error of reading that one, or "not found" when every folder
    was searched. *)
Definition baseResolution (r : node) (gameType : string) (dirs : list path) : outcome path :=
  match resolveBase_spec r gameType (before_first (notDirectory r) dirs) with
  | Some p => Ok p
  | None =>
      match List.find (notDirectory r) dirs with
      | Some dir => Throw (FsError "ENOTDIR" Readdir dir)
      | None => Throw (JsError ("Base game not found for: " ++ gameType))
      end
  end.

(** ** Reading the serialisation back *)

Definition unhex (c : ascii) : option N :=
  let n := N_of_ascii c in
  if ((48 <=? n) && (n <=? 57))%N then Some (n - 48)%N
  else if ((97 <=? n) && (n <=? 102))%N then Some (n - 87)%N
  else None.

(** Reads one character of a JSON string body back; [None] at the closing
    quote, at the end and on what [Json.escape] never writes. *)
Definition unescape_head (s : string) : option (ascii * string) :=
  match s with
  | EmptyString => None
  | String c rest =>
      if (N_of_ascii c =? 34)%N then None
      else if (N_of_ascii c =? 92)%N then
        match rest with
        | String e rest' =>
            let k := N_of_ascii e in
            if (k =? 34)%N then Some (e, rest')
            else if (k =? 92)%N then Some (e, rest')
            else if (k =? 98)%N then Some (ascii_of_N 8, rest')
            else if (k =? 116)%N then Some (ascii_of_N 9, rest')
            else if (k =? 110)%N then Some (ascii_of_N 10, rest')
            else if (k =? 102)%N then Some (ascii_of_N 12, rest')
            else if (k =? 114)%N then Some (ascii_of_N 13, rest')
            else if (k =? 117)%N then
              match rest' with
              | String _ (String _ (String h (String l rest''))) =>
                  match unhex h, unhex l with
                  | Some a, Some b => Some (ascii_of_N (16 * a + b), rest'')
                  | _, _ => None
                  end
              | _ => None
              end
            else None
        | EmptyString => None
        end
      else Some (c, rest)
  end.

(** The three fields that the fingerprint is computed from. *)
Definition identity (m : ModMetadata) : string * string * string :=
  (shortname m, version m, installPath m).

(** * A small installation, for the examples *)

Module Demo.

Definition cfg : config := {| WRITE_DATA_PATH := ["data"]; process_cwd := ["app"] |}.

Definition overlay (short dir : string) : ModMetadata :=
  {| id := short; name := short; shortname := short; version := "v1";
     installPath := "/mods/" ++ dir |}.

Definition overlay1 : ModMetadata := overlay "patch1" "patch1".
Definition overlay2 : ModMetadata := overlay "patch2" "patch2".

Definition base : node :=
  Dir 0 [("modinfo.lua", File 0 "return { name='demo' }"); ("f", File 0 "base")].

Definition disk (cache : list (string * node)) : node :=
  Dir 0 [ ("data", Dir 0 [ ("games", Dir 0 [("demo.sdd", base)]);
                           ("baked-games", Dir 0 cache) ]);
          ("mods", Dir 0 [ ("patch1", Dir 0 [("f", File 0 "v1")]);
                           ("patch2", Dir 0 [("f", File 0 "v2")]) ]) ].

Definition world_with (r : node) (now : Z) (fs : list (syscall * path)) : world :=
  {| root := r; clock := now; faults := fs; logs := []; writes := [] |}.

(** A fresh installation: an empty cache, nothing fails. *)
Definition fresh : world := world_with (disk []) 1000 [].

Definition request (ms : list ModMetadata) : DeltaBakingOptions :=
  {| baseGameType := "demo"; mods := ms; engineVersion := "ev1" |}.

End Demo.

Definition relabelled (m : ModMetadata) : ModMetadata :=
  {| id := "other id"; name := "Other Name"; shortname := shortname m;
     version := version m; installPath := installPath m |}.

Definition moved (m : ModMetadata) (to : string) : ModMetadata :=
  {| id := id m; name := name m; shortname := shortname m;
     version := version m; installPath := to |}.

Definition unreadable_source : world :=
  Demo.world_with (Demo.disk []) 1000 [(CopyFile, ["mods"; "patch2"; "f"])].

(** An installation whose games folder in the data root is a regular
    file, with a base among the bundled assets. *)
Definition games_folder_is_a_file : world :=
  Demo.world_with
    (Dir 0 [ ("data", Dir 0 [ ("games", File 0 "not a folder"); ("baked-games", Dir 0 []) ]);
             ("app", Dir 0 [ ("assets", Dir 0 [ ("games", Dir 0 [("demo.sdd", Demo.base)]) ]) ]);
             ("mods", Dir 0 [ ("patch1", Dir 0 [("f", File 0 "v1")]) ]) ])
    1000 [].

Definition aged_cache : world :=
  Demo.world_with
    (Demo.disk [ ("baked-00", Dir 400 []); ("baked-01", Dir 399 []); ("notes.txt", File 0 "x") ])
    1000 [].

Definition stuck_entry : world :=
  Demo.world_with
    (Demo.disk [ ("baked-00", Dir 0 []); ("baked-01", Dir 0 []) ])
    1000 [(Rm, ["data"; "baked-games"; "baked-00"])].

(** A cache of three old entries: the stat of the second is rejected, and
    so is the removal of the third and the listing of another folder. *)
Definition unreadable_entry : world :=
  Demo.world_with
    (Demo.disk [ ("baked-00", Dir 0 []); ("baked-01", Dir 0 []); ("baked-02", Dir 0 []) ])
    1000 [ (Stat, ["data"; "baked-games"; "baked-01"]);
           (Rm, ["data"; "baked-games"; "baked-02"]);
           (Readdir, ["data"; "games"]) ].

(** An installation in which the file that base and overlays share is the
    manifest, as in every real mod. *)
Definition manifests : world :=
  Demo.world_with
    (Dir 0 [ ("data", Dir 0 [ ("games", Dir 0 [("demo.sdd", Dir 0 [("modinfo.lua", File 0 "base")])]);
                              ("baked-games", Dir 0 []) ]);
             ("mods", Dir 0 [ ("patch1", Dir 0 [("modinfo.lua", File 0 "v1")]);
                              ("patch2", Dir 0 [("modinfo.lua", File 0 "v2")]) ]) ])
    1000 [].

Definition plain_directory : world :=
  Demo.world_with (Dir 0 [("plain", Dir 0 [("modinfo.lua", File 0 "return {}")])]) 1000 [].

(** A destination that contains the source of the overlay: [/a/b] is
    overlaid onto [/a]. *)
Definition nested : world :=
  Demo.world_with
    (Dir 0 [("a", Dir 0 [("b", Dir 0 [ ("b", Dir 0 [ ("b", Dir 0 [("d", Dir 0 [("x", File 0 "new")])]);
                                                     ("d", Dir 0 []) ]);
                                       ("d", Dir 0 [("x", File 0 "old")]) ])])])
    5 [].

(** An installation with files below the top of the base and of the
    overlays. *)
Definition layered : world :=
  Demo.world_with
    (Dir 0 [ ("data", Dir 0 [ ("games", Dir 0 [("demo.sdd",
                                 Dir 0 [ ("modinfo.lua", File 0 "return { name='demo' }");
                                         ("units", Dir 0 [ ("tank.lua", File 0 "base tank");
                                                           ("ship.lua", File 0 "base ship") ]) ])]);
                              ("baked-games", Dir 0 []) ]);
             ("mods", Dir 0 [ ("patch1", Dir 0 [("units", Dir 0 [("tank.lua", File 0 "tank 1")])]);
                              ("patch2", Dir 0 [("units", Dir 0 [("tank.lua", File 0 "tank 2")])]) ]) ])
    1000 [].

(** ** What the further properties speak of *)

(** A digit of lower-case hexadecimal notation. *)
Definition is_lower_hex (c : ascii) : bool :=
  let n := N_of_ascii c in
  (((48 <=? n) && (n <=? 57)) || ((97 <=? n) && (n <=? 102)))%N.

Fixpoint all_chars (p : ascii -> bool) (s : string) : bool :=
  match s with
  | EmptyString => true
  | String c s' => p c && all_chars p s'
  end.

(** The two worlds hold the same tree and the same rejections. *)
Definition same_disk (w1 w2 : world) : Prop :=
  root w1 = root w2 /\ faults w1 = faults w2.

Fixpoint distinct (names : list string) : bool :=
  match names with
  | [] => true
  | x :: rest => negb (existsb (String.eqb x) rest) && distinct rest
  end.

(** No directory of the tree lists a name twice. *)
Fixpoint distinct_names (n : node) : bool :=
  match n with
  | File _ _ => true
  | Dir _ es =>
      distinct (map fst es) &&
      (fix each (es : list (string * node)) : bool :=
         match es with
         | [] => true
         | (_, c) :: es' => distinct_names c && each es'
         end) es
  end.

(** From [w] to [w'] nothing was written but removals of entries of the
    cache directory whose names are in [allowed], and what lies apart from
    all entries named baked-... is as it was. *)
Definition swept (cfg : config) (allowed : string -> Prop) (w w' : world) : Prop :=
  (exists removed,
     writes w' = writes w ++ map (fun name => WRm (bakedGamesDir cfg ++ [name])) removed /\
     Forall allowed removed) /\
  (forall q, (forall name, startsWith name "baked-" = true ->
                           apart (bakedGamesDir cfg ++ [name]) q = true) ->
             find q (root w') = find q (root w)).

(** The directory at [d] carries the time of the clock. *)
Definition stamped (d : path) (w : world) : Prop :=
  exists es, find d (root w) = Some (Dir (clock w) es).

(** The clock stands still and a directory that carries its time keeps
    carrying it. *)
Definition stamping (d : path) (w w' : world) : Prop :=
  clock w' = clock w /\ (stamped d w -> stamped d w').

(** The world of [w] at a later time. *)
Definition later (w : world) (now : Z) : world :=
  {| root := root w; clock := now; faults := faults w; logs := logs w; writes := writes w |}.

(** ** The shape of a gametype line *)

(** A space or a tab. *)
Definition isBlank (c : ascii) : bool :=
  RegExp.byte_is c 32 || RegExp.byte_is c 9.

(** A character that ends the gametype line: [;], line feed or carriage
    return. *)
Definition isTerminator (c : ascii) : bool :=
  RegExp.byte_is c 59 || RegExp.byte_is c 10 || RegExp.byte_is c 13.

(** A visible ASCII character. *)
Definition isGraphic (c : ascii) : bool :=
  let n := N_of_ascii c in ((33 <=? n) && (n <=? 126))%N.

Definition terminators : list ascii := [";"%char; ascii_of_nat 10; ascii_of_nat 13].

(** The shape of a gametype line: the key word in any case, blanks, the
    equals sign, blanks, a value of characters that do not end the line and
    whose first is visible, and the character that ends the line. *)
Definition gametypeAssignment (key blanks1 blanks2 value : string) (terminator : ascii)
  : string :=
  (key ++ blanks1 ++ "=" ++ blanks2 ++ value ++ String terminator "")%string.

Definition wellFormedLine (key blanks1 blanks2 value : string) (terminator : ascii) : bool :=
  String.eqb (toLowerCase key) "gametype"
  && all_chars isBlank blanks1 && all_chars isBlank blanks2
  && match value with
     | String c _ => isGraphic c
     | EmptyString => false
     end
  && all_chars (fun c => negb (isTerminator c)) value
  && isTerminator terminator.

(** ** More installations and a script, for the examples *)

(** A cache in which the archive of the request [patch1] is present, as a
    regular file of no content. *)
Definition cached_file : world :=
  Demo.world_with
    (Demo.disk [ ((bakedGameName (Demo.request [Demo.overlay1]) ++ ".sdd")%string, File 0 "") ])
    1000 [].

(** A world in which the only base is a packaged archive. *)
Definition packaged_base : world :=
  Demo.world_with
    (Dir 0 [ ("data", Dir 0 [ ("games", Dir 0 [("demo.sdz", File 0 "PK")]);
                              ("baked-games", Dir 0 []) ]);
             ("mods", Dir 0 [ ("patch1", Dir 0 [("f", File 0 "v1")]) ]) ])
    1000 [].

(** An installation in which the overlay holds a file where the base
    holds a directory. *)
Definition clashing : world :=
  Demo.world_with
    (Dir 0 [ ("base", Dir 0 [ ("units", Dir 0 [("tank.lua", File 0 "base tank")]) ]);
             ("patch", Dir 0 [ ("units", File 0 "not a directory") ]) ])
    1000 [].

(** A script in which the game type is the second setting. *)
Definition startScript : string :=
  ("[game]" ++ newline ++ "{" ++ newline
   ++ "    mapname=Red Comet;" ++ newline
   ++ "    GameType = Beyond All Reason test-25000;" ++ newline
   ++ "    gametype=ignored;" ++ newline
   ++ "}" ++ newline)%string.

(* ================================================================== *)
(** * Lemmas *)
(* ================================================================== *)

(** * Directory entries *)

Lemma lookup_set_same x c es : lookup_entry x (set_entry x c es) = Some c.
Proof.
  induction es as [|[y c0] es IH]; simpl.
  - now rewrite String.eqb_refl.
  - destruct (String.eqb x y) eqn:E; simpl; rewrite E; auto.
Qed.

Lemma lookup_set_other x y c es :
  x <> y -> lookup_entry y (set_entry x c es) = lookup_entry y es.
Proof.
  intros N. induction es as [|[z c0] es IH]; simpl.
  - destruct (String.eqb y x) eqn:E; auto.
    apply String.eqb_eq in E. congruence.
  - destruct (String.eqb x z) eqn:E; simpl.
    + apply String.eqb_eq in E. subst z.
      destruct (String.eqb y x) eqn:E'; auto.
      apply String.eqb_eq in E'. congruence.
    + now rewrite IH.
Qed.

Lemma lookup_remove_same x es : lookup_entry x (remove_entry x es) = None.
Proof.
  induction es as [|[y c0] es IH]; simpl; auto.
  destruct (String.eqb x y) eqn:E; simpl; auto. now rewrite E.
Qed.

Lemma lookup_remove_other x y es :
  x <> y -> lookup_entry y (remove_entry x es) = lookup_entry y es.
Proof.
  intros N. induction es as [|[z c0] es IH]; simpl; auto.
  destruct (String.eqb x z) eqn:E; simpl.
  - apply String.eqb_eq in E. subst z.
    destruct (String.eqb y x) eqn:E'; auto.
    apply String.eqb_eq in E'. congruence.
  - now rewrite IH.
Qed.

Lemma set_entry_same x c es : lookup_entry x es = Some c -> set_entry x c es = es.
Proof.
  induction es as [|[y c0] es IH]; simpl; try discriminate.
  destruct (String.eqb x y) eqn:E; intros H.
  - now inversion H.
  - now rewrite IH.
Qed.

(** * Paths *)

Lemma apart_sym p q : apart p q = apart q p.
Proof.
  revert q. induction p as [|x p IH]; destruct q as [|y q]; simpl; auto.
  rewrite (String.eqb_sym y x). destruct (String.eqb x y); auto.
Qed.

Lemma apart_app_l p q r : apart p q = true -> apart (p ++ r) q = true.
Proof.
  revert q. induction p as [|x p IH]; destruct q as [|y q]; simpl; try discriminate.
  destruct (String.eqb x y); auto.
Qed.

Lemma apart_app_r p q r : apart p q = true -> apart p (q ++ r) = true.
Proof. rewrite !(apart_sym p). apply apart_app_l. Qed.

Lemma apart_siblings p x y r s : x <> y -> apart (p ++ x :: r) (p ++ y :: s) = true.
Proof.
  intros N. induction p as [|z p IH]; simpl.
  - destruct (String.eqb x y) eqn:E; auto. apply String.eqb_eq in E. congruence.
  - now rewrite String.eqb_refl.
Qed.

Lemma apart_not_prefix p q : apart p q = true -> is_prefix q p = false.
Proof.
  revert q. induction p as [|x p IH]; destruct q as [|y q]; simpl; try discriminate; auto.
  rewrite (String.eqb_sym y x). destruct (String.eqb x y); simpl; auto.
Qed.

Lemma is_prefix_app p r : is_prefix p (p ++ r) = true.
Proof. induction p; simpl; auto. now rewrite String.eqb_refl. Qed.

Lemma is_prefix_spec p q : is_prefix p q = true -> exists r, q = p ++ r.
Proof.
  revert q. induction p as [|x p IH]; intros q H; simpl in *.
  - now exists q.
  - destruct q as [|y q]; try discriminate.
    apply andb_prop in H. destruct H as [E H]. apply String.eqb_eq in E. subst y.
    destruct (IH _ H) as [r ->]. now exists r.
Qed.

(** * Reading the tree *)

Lemma find_app p r n :
  find (p ++ r) n = match find p n with Some c => find r c | None => None end.
Proof.
  revert n. induction p as [|x p IH]; intros n; simpl; auto.
  destruct n as [|t es]; auto.
  destruct (lookup_entry x es); auto.
Qed.

Lemma find_cons_file x r t c : find (x :: r) (File t c) = None.
Proof. reflexivity. Qed.

(** * Writing the tree *)

Lemma put_find_under now p new n n' r :
  put now p new n = Some n' -> find (p ++ r) n' = find r new.
Proof.
  revert n n'. induction p as [|x p IH]; intros n n' H; simpl in *.
  - now inversion H.
  - destruct n as [|t es]; try discriminate.
    destruct p as [|x' p'].
    + destruct (lookup_entry x es); inversion H; subst; simpl;
        now rewrite lookup_set_same.
    + destruct (lookup_entry x es) as [c|] eqn:L; try discriminate.
      destruct (put now (x' :: p') new c) as [c'|] eqn:P; try discriminate.
      inversion H; subst. cbn [find app]. rewrite lookup_set_same.
      now apply (IH c c').
Qed.

Lemma put_frame now p new n n' q :
  put now p new n = Some n' -> apart p q = true -> find q n' = find q n.
Proof.
  revert n n' q. induction p as [|x p IH]; intros n n' q H A; simpl in *.
  - discriminate.
  - destruct q as [|y q]; try discriminate.
    destruct n as [|t es]; try discriminate.
    destruct (String.eqb x y) eqn:E.
    + apply String.eqb_eq in E. subst y.
      destruct p as [|x' p']; [simpl in A; discriminate|].
      destruct (lookup_entry x es) as [c|] eqn:L; try discriminate.
      destruct (put now (x' :: p') new c) as [c'|] eqn:P; try discriminate.
      inversion H; subst. cbn [find]. rewrite lookup_set_same, L.
      now apply (IH c c').
    + assert (N : x <> y) by (intros ->; now rewrite String.eqb_refl in E).
      destruct p as [|x' p'].
      * destruct (lookup_entry x es); inversion H; subst; cbn [find];
          now rewrite lookup_set_other.
      * destruct (lookup_entry x es) as [c|] eqn:L; try discriminate.
        destruct (put now (x' :: p') new c) as [c'|] eqn:P; try discriminate.
        inversion H; subst. cbn [find]. now rewrite lookup_set_other.
Qed.

Lemma mkdir_p_is_dir now p n n' : mkdir_p now p n = Some n' -> is_dir n' = true.
Proof.
  destruct p as [|x p]; destruct n as [|t es]; simpl; try discriminate.
  - intros H; now inversion H.
  - destruct (lookup_entry x es).
    + destruct (mkdir_p now p n); intros H; inversion H; auto.
    + destruct (mkdir_p now p (Dir now [])); intros H; inversion H; auto.
Qed.

(** [mkdir -p p] changes nothing but the directories on the way to [p]. *)
Lemma mkdir_p_frame now p n n' q :
  mkdir_p now p n = Some n' -> is_prefix q p = false -> find q n' = find q n.
Proof.
  revert n n' q. induction p as [|x p IH]; intros n n' q H A.
  - destruct n; simpl in H; inversion H; auto.
  - destruct q as [|y q]; [discriminate|].
    destruct n as [|t es]; [discriminate|]. simpl in H. simpl in A.
    destruct (String.eqb y x) eqn:E; simpl in A.
    + apply String.eqb_eq in E. subst y.
      destruct (lookup_entry x es) as [c|] eqn:L.
      * destruct (mkdir_p now p c) as [c'|] eqn:P; [|discriminate].
        inversion H; subst. cbn [find]. rewrite lookup_set_same, L.
        now apply (IH c c').
      * destruct (mkdir_p now p (Dir now [])) as [c'|] eqn:P; [|discriminate].
        inversion H; subst. cbn [find]. rewrite lookup_set_same, L.
        rewrite (IH _ _ q P A). destruct q; [discriminate|]. reflexivity.
    + assert (N : x <> y) by (intros ->; now rewrite String.eqb_refl in E).
      destruct (lookup_entry x es) as [c|] eqn:L.
      * destruct (mkdir_p now p c) as [c'|] eqn:P; [|discriminate].
        inversion H; subst. cbn [find]. now rewrite lookup_set_other.
      * destruct (mkdir_p now p (Dir now [])) as [c'|] eqn:P; [|discriminate].
        inversion H; subst. cbn [find]. now rewrite lookup_set_other.
Qed.

Lemma mkdir_p_find now p n n' :
  mkdir_p now p n = Some n' -> exists t es, find p n' = Some (Dir t es).
Proof.
  revert n n'. induction p as [|x p IH]; intros n n' H.
  - destruct n as [|t es]; simpl in H; inversion H; subst. now exists t, es.
  - destruct n as [|t es]; [discriminate|]. simpl in H.
    destruct (lookup_entry x es) as [c|] eqn:L.
    + destruct (mkdir_p now p c) as [c'|] eqn:P; [|discriminate].
      inversion H; subst. cbn [find]. rewrite lookup_set_same. eauto.
    + destruct (mkdir_p now p (Dir now [])) as [c'|] eqn:P; [|discriminate].
      inversion H; subst. cbn [find]. rewrite lookup_set_same. eauto.
Qed.

Lemma remove_frame now p n q : apart p q = true -> find q (remove now p n) = find q n.
Proof.
  revert n q. induction p as [|x p IH]; intros n q A; simpl in *.
  - discriminate.
  - destruct q as [|y q]; try discriminate.
    destruct n as [|t es]; auto.
    destruct (String.eqb x y) eqn:E.
    + apply String.eqb_eq in E. subst y.
      destruct p as [|x' p']; [simpl in A; discriminate|].
      destruct (lookup_entry x es) as [c|] eqn:L; auto.
      cbn [find]. rewrite lookup_set_same, L. now apply IH.
    + assert (N : x <> y) by (intros ->; now rewrite String.eqb_refl in E).
      destruct p as [|x' p']; destruct (lookup_entry x es) as [c|] eqn:L; auto; cbn [find].
      * now rewrite lookup_remove_other.
      * now rewrite lookup_set_other.
Qed.

Lemma remove_find_under now p n r : p <> [] -> find (p ++ r) (remove now p n) = None.
Proof.
  revert n. induction p as [|x p IH]; intros n N; [congruence|].
  destruct n as [|t es]; [reflexivity|]. simpl.
  destruct p as [|x' p'].
  - destruct (lookup_entry x es) as [c|] eqn:L; cbn [find app].
    + now rewrite lookup_remove_same.
    + now rewrite L.
  - destruct (lookup_entry x es) as [c|] eqn:L; cbn [find app].
    + rewrite lookup_set_same. apply IH. discriminate.
    + cbn [app]. now rewrite L.
Qed.

(** * Computations that respect a relation between worlds *)

Section Respect.
Variable R : world -> world -> Prop.
Hypothesis R_refl : forall w, R w w.
Hypothesis R_trans : forall a b c, R a b -> R b c -> R a c.
Hypothesis R_log : forall w e, R w (with_log w e).

Lemma respects_ret {A} (a : A) : respects R (ret a).
Proof. intros w. apply R_refl. Qed.

Lemma respects_throw {A} e : respects R (@throw A e).
Proof. intros w. apply R_refl. Qed.

Lemma respects_out_of_fuel {A} : respects R (@out_of_fuel A).
Proof. intros w. apply R_refl. Qed.

Lemma respects_log l s d : respects R (log l s d).
Proof. intros w. apply R_log. Qed.

Lemma respects_date_now : respects R date_now.
Proof. intros w. apply R_refl. Qed.

Lemma respects_bind {A B} (m : M A) (k : A -> M B) :
  respects R m -> (forall a, respects R (k a)) -> respects R (bind m k).
Proof.
  intros Hm Hk w. unfold bind. specialize (Hm w).
  destruct (m w) as [[a|e|] w1]; simpl in *; auto.
  eapply R_trans; [exact Hm|apply Hk].
Qed.

Lemma respects_try_catch {A} (m : M A) (h : error -> M A) :
  respects R m -> (forall e, respects R (h e)) -> respects R (try_catch m h).
Proof.
  intros Hm Hh w. unfold try_catch. specialize (Hm w).
  destruct (m w) as [[a|e|] w1]; simpl in *; auto.
  eapply R_trans; [exact Hm|apply Hh].
Qed.

Lemma respects_for_each {A} (xs : list A) (body : A -> M unit) :
  (forall x, In x xs -> respects R (body x)) -> respects R (for_each xs body).
Proof.
  induction xs as [|x xs IH]; intros H; simpl.
  - apply respects_ret.
  - apply respects_bind; [apply H; now left|].
    intros _. apply IH. intros y Hy. apply H. now right.
Qed.

Lemma respects_guarded {A} call p (m : M A) : respects R m -> respects R (guarded call p m).
Proof.
  intros Hm w. unfold guarded. destruct (failing w call p); [apply R_refl|apply Hm].
Qed.

Lemma respects_if {A} (b : bool) (m1 m2 : M A) :
  respects R m1 -> respects R m2 -> respects R (if b then m1 else m2).
Proof. now destruct b. Qed.

(** The calls that only read. *)
Lemma respects_fs_access p : respects R (fs_access p).
Proof.
  apply respects_guarded. intros w. destruct (find p (root w)); apply R_refl.
Qed.

Lemma respects_fs_stat p : respects R (fs_stat p).
Proof.
  apply respects_guarded. intros w. destruct (find p (root w)); apply R_refl.
Qed.

Lemma respects_fs_readdir_types p : respects R (fs_readdir_types p).
Proof.
  apply respects_guarded. intros w.
  destruct (find p (root w)) as [[|]|]; apply R_refl.
Qed.

Lemma respects_fs_readdir p : respects R (fs_readdir p).
Proof.
  apply respects_bind; [apply respects_fs_readdir_types|intros; apply respects_ret].
Qed.

Lemma respects_fileExists p : respects R (fileExists p).
Proof.
  apply respects_try_catch.
  - apply respects_bind; [apply respects_fs_access|intros; apply respects_ret].
  - intros; apply respects_ret.
Qed.

Lemma respects_isValidGameArchive p : respects R (isValidGameArchive p).
Proof.
  apply respects_try_catch; [|intros; apply respects_ret].
  apply respects_bind; [apply respects_fs_stat|]. intros st.
  repeat apply respects_if; try apply respects_ret. apply respects_fileExists.
Qed.

Lemma respects_firstValidCandidate d cs : respects R (firstValidCandidate d cs).
Proof.
  induction cs as [|c cs IH]; simpl; [apply respects_ret|].
  apply respects_bind; [apply respects_isValidGameArchive|]. intros b.
  apply respects_if; auto.
  apply respects_bind; [apply respects_log|intros; apply respects_ret].
Qed.

Lemma respects_searchBaseGame g ds : respects R (searchBaseGame g ds).
Proof.
  induction ds as [|d ds IH]; simpl; [apply respects_throw|].
  apply respects_bind; [apply respects_fileExists|]. intros b.
  apply respects_if; auto.
  apply respects_bind; [apply respects_fs_readdir|]. intros fs.
  apply respects_bind; [apply respects_firstValidCandidate|].
  intros [p|]; [apply respects_ret|auto].
Qed.

Lemma respects_findBaseGame cfg g ev : respects R (findBaseGame cfg g ev).
Proof.
  apply respects_bind; [apply respects_log|]. intros _. apply respects_searchBaseGame.
Qed.
End Respect.

(** ** The relations *)

Lemma quiet_refl w : quiet w w.
Proof. now repeat split. Qed.
Lemma quiet_trans a b c : quiet a b -> quiet b c -> quiet a c.
Proof. unfold quiet. intuition congruence. Qed.
Lemma quiet_log w e : quiet w (with_log w e).
Proof. now repeat split. Qed.

Lemma keeps_refl P w : keeps P w w.
Proof. now repeat split. Qed.
Lemma keeps_trans P a b c : keeps P a b -> keeps P b c -> keeps P a c.
Proof.
  intros (C1 & F1 & H1) (C2 & F2 & H2). repeat split; try congruence.
  intros q Hq. now rewrite H2, H1.
Qed.
Lemma keeps_log P w e : keeps P w (with_log w e).
Proof. now repeat split. Qed.

Lemma keeps_weaken (P Q : path -> Prop) w w' :
  (forall q, Q q -> P q) -> keeps P w w' -> keeps Q w w'.
Proof. intros I (C & F & H). repeat split; auto. Qed.

Lemma quiet_keeps P w w' : quiet w w' -> keeps P w w'.
Proof. intros (Hr & _ & C & F). repeat split; auto. intros; now rewrite Hr. Qed.

Create HintDb service.
#[global] Hint Resolve quiet_refl quiet_trans quiet_log keeps_refl keeps_trans keeps_log
  : service.

(** ** The calls that write *)

Lemma is_prefix_removelast q d :
  is_prefix q (removelast d) = true -> is_prefix q d = true.
Proof.
  revert q. induction d as [|x d IH]; intros q H; auto.
  destruct d as [|y d].
  - simpl in H. destruct q; [reflexivity|discriminate].
  - destruct q as [|z q]; [reflexivity|].
    change (removelast (x :: y :: d)) with (x :: removelast (y :: d)) in H.
    simpl in H |- *. apply andb_prop in H. destruct H as [E H].
    rewrite E. simpl. now apply IH.
Qed.

Section Writes.
Variable P : path -> Prop.

Lemma keeping_fs_mkdir p :
  (forall q, P q -> is_prefix q p = false) -> keeping P (fs_mkdir p).
Proof.
  intros H w. unfold fs_mkdir, guarded. destruct (failing w Mkdir p); [apply keeps_refl|].
  destruct (mkdir_p (clock w) p (root w)) as [r|] eqn:E; [|apply keeps_refl].
  repeat split; auto. simpl. intros q Hq. eapply mkdir_p_frame; eauto.
Qed.

Lemma keeping_fs_copyFile s d :
  (forall q, P q -> apart d q = true) -> keeping P (fs_copyFile s d).
Proof.
  intros H w. unfold fs_copyFile, guarded.
  destruct (failing w CopyFile s); [apply keeps_refl|].
  destruct (find s (root w)) as [[t c|]|]; try apply keeps_refl.
  destruct (put (clock w) d (File (clock w) c) (root w)) as [r|] eqn:E.
  - destruct (find d (root w)) as [[|]|]; try apply keeps_refl;
      (repeat split; auto; simpl; intros q Hq; eapply put_frame; eauto).
  - destruct (find d (root w)) as [[|]|]; apply keeps_refl.
Qed.

Lemma keeping_fs_writeFile p c :
  (forall q, P q -> apart p q = true) -> keeping P (fs_writeFile p c).
Proof.
  intros H w. unfold fs_writeFile, guarded.
  destruct (failing w WriteFile p); [apply keeps_refl|].
  destruct (put (clock w) p (File (clock w) c) (root w)) as [r|] eqn:E.
  - destruct (find p (root w)) as [[|]|]; try apply keeps_refl;
      (repeat split; auto; simpl; intros q Hq; eapply put_frame; eauto).
  - destruct (find p (root w)) as [[|]|]; apply keeps_refl.
Qed.

Lemma keeping_fs_rm p :
  (forall q, P q -> apart p q = true) -> keeping P (fs_rm p).
Proof.
  intros H w. unfold fs_rm, guarded.
  destruct (failing w Rm p); [apply keeps_refl|].
  repeat split; auto. simpl. intros q Hq. apply remove_frame; auto.
Qed.

Lemma keeping_fs_cp s d :
  (forall q, P q -> apart d q = true) -> keeping P (fs_cp s d).
Proof.
  intros H w. unfold fs_cp, guarded.
  destruct (failing w Cp s); [apply keeps_refl|].
  destruct (find s (root w)) as [sn|]; [|apply keeps_refl].
  destruct (is_prefix s d); [apply keeps_refl|].
  destruct (mkdir_p (clock w) (removelast d) (root w)) as [r1|] eqn:E1; [|apply keeps_refl].
  destruct (copy_onto (clock w) sn (find d r1)) as [m|]; [|apply keeps_refl].
  destruct (put (clock w) d m r1) as [r2|] eqn:E2; [|apply keeps_refl].
  repeat split; auto. simpl. intros q Hq.
  rewrite (put_frame _ _ _ _ _ q E2 (H q Hq)).
  eapply mkdir_p_frame; eauto.
  destruct (is_prefix q (removelast d)) eqn:Pq; auto.
  apply is_prefix_removelast in Pq.
  pose proof (apart_not_prefix _ _ (H q Hq)). congruence.
Qed.
End Writes.

(** Everything [overlayDirectory] writes lies below its destination. *)
Lemma keeping_overlayEntry (recurse : path -> path -> M unit) s d e :
  (forall s' d', keeping (fun q => apart d' q = true) (recurse s' d')) ->
  keeping (fun q => apart (d ++ [d_name e]) q = true) (overlayEntry recurse s d e).
Proof.
  intros IH. unfold overlayEntry. destruct (d_isDirectory e).
  - apply respects_bind; eauto with service.
    + apply keeping_fs_mkdir. intros q Hq. now apply apart_not_prefix.
    + intros _. apply IH.
  - apply respects_bind; eauto with service.
    + apply keeping_fs_copyFile. auto.
    + intros _. apply respects_log. auto with service.
Qed.

Lemma keeping_overlayDirectory fuel s d :
  keeping (fun q => apart d q = true) (overlayDirectory fuel s d).
Proof.
  revert s d. induction fuel as [|fuel IH]; intros s d; simpl.
  - apply respects_out_of_fuel; auto with service.
  - apply respects_bind; eauto with service.
    + apply respects_fs_readdir_types; auto with service.
    + intros es. apply respects_for_each; eauto with service.
      intros e _ w. eapply keeps_weaken; [|apply (keeping_overlayEntry _ s d e IH w)].
      intros q Hq. now apply apart_app_l.
Qed.

(** * The serialisation can be read back *)

Section Serialisation.
Local Open Scope string_scope.

Lemma unescape_head_escape_char c rest :
unescape_head (Json.escape_char c ++ rest) = Some (c, rest).
Proof.
destruct c as [[|] [|] [|] [|] [|] [|] [|] [|]]; reflexivity.
Qed.

Lemma string_app_assoc (a b c : string) : (a ++ b) ++ c = a ++ (b ++ c).
Proof. induction a; simpl; congruence. Qed.

Lemma string_app_inv_head (a x y : string) : a ++ x = a ++ y -> x = y.
Proof. induction a; simpl; intros H; [auto|inversion H; auto]. Qed.

Lemma escape_inj_app s1 s2 r1 r2 :
Json.escape s1 ++ String quote_char r1 = Json.escape s2 ++ String quote_char r2 ->
s1 = s2 /\ r1 = r2.
Proof.
revert s2. induction s1 as [|c1 s1 IH]; intros [|c2 s2] H; simpl in H.
- inversion H; auto.
- apply (f_equal unescape_head) in H. rewrite string_app_assoc, unescape_head_escape_char in H.
  discriminate.
- apply (f_equal unescape_head) in H. rewrite string_app_assoc, unescape_head_escape_char in H.
  discriminate.
- apply (f_equal unescape_head) in H.
  rewrite !string_app_assoc, !unescape_head_escape_char in H.
  inversion H; subst. destruct (IH _ H2). subst. auto.
Qed.

(** Bring an equation between serialisations to the next string body. *)
Ltac json_norm H :=
repeat first [rewrite !string_app_assoc in H | progress cbn [String.append] in H].
Ltac json_strip H :=
repeat match type of H with
       | String _ _ = String _ _ => injection H as H
       end.
Ltac json_field H E :=
json_norm H; json_strip H; apply escape_inj_app in H; destruct H as [E H].

Lemma str_inj_app s1 s2 r1 r2 :
Json.str s1 ++ r1 = Json.str s2 ++ r2 -> s1 = s2 /\ r1 = r2.
Proof.
unfold Json.str. intros H. json_field H E. auto.
Qed.

Lemma modIdentityJson_inj_app m1 m2 r1 r2 :
modIdentityJson m1 ++ r1 = modIdentityJson m2 ++ r2 ->
identity m1 = identity m2 /\ r1 = r2.
Proof.
unfold modIdentityJson, Json.obj, Json.member, Json.str, join, identity.
cbn [String.concat]. intros H.
json_field H E1. json_field H E2. json_field H E3.
json_norm H. json_strip H. split; congruence.
Qed.

Lemma modIdentityJson_head m : exists t, modIdentityJson m = String "{" t.
Proof. unfold modIdentityJson, Json.obj. simpl. eauto. Qed.

Lemma mods_inj_app ms1 ms2 r1 r2 :
join "," (map modIdentityJson ms1) ++ String "]" r1
= join "," (map modIdentityJson ms2) ++ String "]" r2 ->
map identity ms1 = map identity ms2 /\ r1 = r2.
Proof.
revert ms2. induction ms1 as [|m1 ms1 IH]; intros [|m2 ms2] H.
- simpl in H. inversion H; auto.
- exfalso. simpl in H. destruct (modIdentityJson_head m2) as [t E].
  destruct ms2; rewrite E in H; simpl in H; discriminate.
- exfalso. simpl in H. destruct (modIdentityJson_head m1) as [t E].
  destruct ms1; rewrite E in H; simpl in H; discriminate.
- unfold join in *. cbn [map String.concat] in H.
  destruct ms1 as [|m1' ms1]; destruct ms2 as [|m2' ms2]; cbn [map] in H.
  + apply modIdentityJson_inj_app in H. destruct H as [E H]. inversion H. simpl.
    split; congruence.
  + exfalso. rewrite !string_app_assoc in H.
    apply modIdentityJson_inj_app in H. destruct H as [_ H]. simpl in H. discriminate.
  + exfalso. rewrite !string_app_assoc in H.
    apply modIdentityJson_inj_app in H. destruct H as [_ H]. simpl in H. discriminate.
  + rewrite !string_app_assoc in H.
    apply modIdentityJson_inj_app in H. destruct H as [E H].
    cbn [String.append] in H. injection H as H.
    destruct (IH (m2' :: ms2) H) as [E' R].
    split; auto. cbn [map] in *. congruence.
Qed.

Lemma combinationContent_inj b1 ms1 e1 b2 ms2 e2 :
combinationContent b1 ms1 e1 = combinationContent b2 ms2 e2 ->
b1 = b2 /\ e1 = e2 /\ map identity ms1 = map identity ms2.
Proof.
unfold combinationContent, Json.obj, Json.member, Json.arr, Json.str, join at 1 3.
cbn [String.concat]. intros H.
json_field H E1. json_field H E2.
json_norm H. json_strip H.
apply mods_inj_app in H. destruct H as [E3 _]. auto.
Qed.

Lemma modIdentityJson_identity ms1 ms2 :
map identity ms1 = map identity ms2 ->
map modIdentityJson ms1 = map modIdentityJson ms2.
Proof.
revert ms2. induction ms1 as [|m1 ms1 IH]; intros [|m2 ms2] H; try discriminate; auto.
cbn [map] in H. injection H as E1 E2 E3 H. cbn [map]. f_equal; auto.
unfold modIdentityJson. now rewrite E1, E2, E3.
Qed.

Lemma combinationContent_identity b e ms1 ms2 :
map identity ms1 = map identity ms2 ->
combinationContent b ms1 e = combinationContent b ms2 e.
Proof.
intros H. unfold combinationContent. now rewrite (modIdentityJson_identity _ _ H).
Qed.

End Serialisation.

(** * What the reading calls return *)

Lemma fileExists_run p w : fileExists p w = (Ok (exists_at w p), w).
Proof.
  unfold fileExists, try_catch, bind, fs_access, guarded, exists_at, rejected, throw, ret.
  destruct (failing w Access p); simpl; auto.
  destruct (find p (root w)); reflexivity.
Qed.

Lemma failing_nil w call p : faults w = [] -> failing w call p = false.
Proof. unfold failing. now intros ->. Qed.

Lemma exists_at_keeps (P : path -> Prop) w w' p :
  keeps P w w' -> P p -> exists_at w' p = exists_at w p.
Proof.
  intros (C & F & H) Hp. unfold exists_at, failing. now rewrite F, (H p Hp).
Qed.

Lemma isValidGameArchive_run p w : isValidGameArchive p w = (Ok (valid_at w p), w).
Proof.
  unfold isValidGameArchive, try_catch, bind, fs_stat, guarded, valid_at, rejected, throw.
  destruct (failing w Stat p); simpl; auto.
  destruct (find p (root w)) as [n|]; simpl; auto.
  destruct (is_dir n && path_endsWith p ".sdd").
  - now rewrite fileExists_run.
  - destruct (negb (is_dir n) && (path_endsWith p ".sdz" || path_endsWith p ".sd7")); reflexivity.
Qed.

(** * findBaseGame against the resolver of the specification *)

Lemma valid_at_spec w p :
  faults w = [] -> valid_at w p = isValidArtifact_spec (root w) p.
Proof.
  intros F. unfold valid_at, isValidArtifact_spec, exists_at.
  rewrite !failing_nil by auto. simpl.
  rewrite find_app.
  destruct (find p (root w)) as [[t c|t es]|]; simpl; auto.
  - destruct (path_endsWith p ".sdz" || path_endsWith p ".sd7"); auto.
  - destruct (path_endsWith p ".sdd"); simpl; auto.
    destruct (lookup_entry "modinfo.lua" es); auto.
Qed.

Lemma list_find_app {A} (f : A -> bool) (xs ys : list A) :
  List.find f (xs ++ ys) =
  match List.find f xs with Some x => Some x | None => List.find f ys end.
Proof. induction xs as [|x xs IH]; simpl; auto. destruct (f x); auto. Qed.

Lemma with_log_faults w e : faults (with_log w e) = faults w.
Proof. reflexivity. Qed.

Lemma firstValidCandidate_run d cs w :
  faults w = [] ->
  exists w', quiet w w' /\
    firstValidCandidate d cs w =
      (Ok (List.find (isValidArtifact_spec (root w)) (map (fun f => d ++ [f]) cs)), w').
Proof.
  intros F. induction cs as [|c cs IH]; simpl.
  - exists w. split; auto with service.
  - unfold bind at 1. rewrite isValidGameArchive_run, valid_at_spec by auto.
    destruct (isValidArtifact_spec (root w) (d ++ [c])).
    + eexists. split; [|reflexivity]. apply quiet_log.
    + exact IH.
Qed.

Lemma lower_scalar_ascii c :
  (N_of_ascii c <? 0x80)%N = true ->
  Unicode.encode (map Unicode.Scalar (Unicode.toLower (N_of_ascii c)))
  = String (lower_ascii c) EmptyString /\
  (N_of_ascii c =? 0x3A3)%N = false.
Proof.
  destruct c as [[] [] [] [] [] [] [] []]; intros H; try discriminate H;
    vm_compute; split; reflexivity.
Qed.

(** On an ASCII text the case conversion of Unicode is the one of the
    ASCII letters. *)
Lemma toLowerCase_ascii s :
  isAscii s = true -> Unicode.toLowerCase s = toLowerCase s.
Proof.
  unfold Unicode.toLowerCase. generalize (@nil Unicode.symbol).
  induction s as [|c s IH]; intros before H; [reflexivity|].
  cbn [isAscii] in H. apply andb_prop in H. destruct H as [Hc Hs].
  cbn [Unicode.decode]. rewrite Hc. cbn [Unicode.toLowercase].
  destruct (lower_scalar_ascii c Hc) as [E N]. rewrite N.
  cbn [toLowerCase]. rewrite <- (IH (Unicode.Scalar (N_of_ascii c) :: before) Hs).
  unfold Unicode.toLower in *.
  destruct (N_of_ascii c =? 0x130)%N.
  - vm_compute in E. discriminate E.
  - cbn [map app Unicode.encode] in *.
    revert E. generalize (Unicode.mapped Unicode.lowerMapping (N_of_ascii c)). intros m.
    unfold Unicode.encode_scalar.
    destruct (m <? 0x80)%N; [|destruct (m <? 0x800)%N; [|destruct (m <? 0x10000)%N]];
      intros E; try discriminate E.
    now inversion E.
Qed.

Lemma prefix_substring word text :
  prefix word text = String.eqb (substring 0 (String.length word) text) word.
Proof.
  destruct (prefix word text) eqn:P.
  - apply prefix_correct in P. rewrite P. symmetry. apply String.eqb_refl.
  - symmetry. apply String.eqb_neq. intros E. apply prefix_correct in E. congruence.
Qed.

Lemma existsb_seq_shift (f : nat -> bool) n :
  existsb f (seq 1 n) = existsb (fun i => f (S i)) (seq 0 n).
Proof.
  rewrite <- seq_shift. induction (seq 0 n) as [|i l IH]; [reflexivity|].
  cbn [map existsb]. now rewrite IH.
Qed.

(** The method [includes] finds what occurs at some position. *)
Lemma includes_occurs word : forall text, includes text word = occurs_in word text.
Proof.
  unfold occurs_in. induction text as [|c text IH].
  - cbn [includes String.length seq existsb]. apply f_equal2; [|reflexivity].
    apply prefix_substring.
  - cbn [includes]. rewrite IH. change (String.length (String c text)) with (S (String.length text)).
    change (seq 0 (S (S (String.length text)))) with (0 :: seq 1 (S (String.length text))).
    cbn [existsb]. rewrite existsb_seq_shift. apply f_equal2.
    + apply prefix_substring.
    + reflexivity.
Qed.

Lemma aliases_lower word :
  In word aliases_spec -> Unicode.toLowerCase word = word.
Proof. intros [<-|[<-|[]]]; vm_compute; reflexivity. Qed.

(** The filter of the code is the one that the specification words. *)
Lemma isCandidate_spec g f : isCandidate g f = nameMatches_spec g f.
Proof.
  unfold isCandidate, nameMatches_spec, aliases_spec. cbn [existsb].
  rewrite (aliases_lower "byar"), (aliases_lower "beyond") by (cbn; auto).
  rewrite !includes_occurs, orb_false_r. symmetry. apply orb_assoc.
Qed.

Lemma searchBaseGame_run g dirs w :
  faults w = [] ->
  exists w', quiet w w' /\
    searchBaseGame g dirs w = (baseResolution (root w) g dirs, w').
Proof.
  intros F. revert w F. induction dirs as [|d dirs IH]; intros w F.
  - exists w. split; auto with service.
  - cbn [searchBaseGame]. unfold bind at 1. rewrite fileExists_run.
    unfold exists_at. rewrite failing_nil by auto. cbn [negb andb].
    unfold baseResolution. cbn [before_first List.find]. unfold notDirectory at 1 3.
    destruct (find d (root w)) as [[t c|t es]|] eqn:E; cbn [present negb].
    + unfold bind at 1, fs_readdir, bind at 1, fs_readdir_types, guarded.
      rewrite failing_nil by auto. rewrite E.
      exists w. split; auto with service.
    + unfold resolveBase_spec. cbn [flat_map]. rewrite list_find_app.
      unfold candidates_spec at 1. rewrite E.
      unfold bind at 1, fs_readdir, bind at 1, fs_readdir_types, guarded.
      rewrite failing_nil by auto. rewrite E. cbn [ret].
      destruct (firstValidCandidate_run d
                  (filter (isCandidate g) (map d_name (dirents es))) w F) as (w1 & Q1 & R1).
      unfold bind at 1. rewrite R1.
      assert (N : map d_name (dirents es) = map fst es).
      { unfold dirents. rewrite map_map. reflexivity. }
      rewrite N, (filter_ext _ _ (isCandidate_spec g)).
      destruct (List.find (isValidArtifact_spec (root w))
                  (map (fun f => d ++ [f]) (filter (nameMatches_spec g) (map fst es))))
        as [p|] eqn:Fd.
      * exists w1. split; auto.
      * destruct Q1 as (R & W & C & Fa).
        destruct (IH w1) as (w2 & Q2 & R2); [congruence|].
        exists w2. split.
        -- eapply quiet_trans; [|exact Q2]. repeat split; auto.
        -- rewrite R2. unfold baseResolution, resolveBase_spec. rewrite R. reflexivity.
    + unfold resolveBase_spec. cbn [flat_map]. rewrite list_find_app.
      unfold candidates_spec at 1. rewrite E. cbn [List.find].
      apply IH; auto.
Qed.

(** * The bake writes below its working directory only *)

Lemma keeping_extractArchive a d : keeping (outside d) (extractArchive a d).
Proof.
  apply respects_bind; eauto with service.
  - apply respects_fs_stat; eauto with service.
  - intros st. destruct (isDirectory st).
    + apply respects_bind; eauto with service.
      * apply respects_log; eauto with service.
      * intros _. apply keeping_fs_cp. auto.
    + apply respects_throw; eauto with service.
Qed.

Lemma keeping_applyModDelta cfg fuel m d : keeping (outside d) (applyModDelta cfg fuel m d).
Proof.
  apply respects_bind; eauto with service.
  - apply respects_log; eauto with service.
  - intros _. apply keeping_overlayDirectory.
Qed.

Lemma keeping_createBakedGameModInfo d b ms :
  keeping (outside d) (createBakedGameModInfo d b ms).
Proof.
  apply respects_bind; eauto with service.
  - apply keeping_fs_writeFile. intros q Hq. now apply apart_app_l.
  - intros _. apply respects_log; eauto with service.
Qed.

Lemma keeping_cleanupBakedGame d : keeping (outside d) (cleanupBakedGame d).
Proof.
  apply respects_try_catch; eauto with service.
  - apply respects_bind; eauto with service.
    + apply respects_fileExists; eauto with service.
    + intros [|].
      * apply respects_bind; eauto with service.
        -- apply keeping_fs_rm. auto.
        -- intros _. apply respects_log; eauto with service.
      * apply respects_ret; eauto with service.
  - intros e. apply respects_log; eauto with service.
Qed.

Lemma keeping_buildBakedGame cfg fuel options :
  keeping (outside (bakedGameDir cfg options)) (buildBakedGame cfg fuel options).
Proof.
  unfold buildBakedGame.
  apply respects_bind; eauto with service.
  { apply respects_findBaseGame; eauto with service. }
  intros base. apply respects_bind; eauto with service.
  { apply keeping_extractArchive. }
  intros _. apply respects_bind; eauto with service.
  { apply respects_for_each; eauto with service. intros m _.
    apply respects_bind; eauto with service.
    - apply respects_log; eauto with service.
    - intros _. apply keeping_applyModDelta. }
  intros _. apply respects_bind; eauto with service.
  { apply keeping_createBakedGameModInfo. }
  intros _. apply respects_bind; eauto with service.
  { apply respects_log; eauto with service. }
  intros _. apply respects_ret; eauto with service.
Qed.

Lemma keeping_bakeFailed cfg options e :
  keeping (outside (bakedGameDir cfg options)) (bakeFailed cfg options e).
Proof.
  apply respects_bind; eauto with service.
  { apply respects_log; eauto with service. }
  intros _. apply respects_bind; eauto with service.
  { apply keeping_cleanupBakedGame. }
  intros _. apply respects_throw; eauto with service.
Qed.

Lemma keeping_bakeGame cfg fuel options :
  keeping (outside (bakedGameDir cfg options)) (bakeGame cfg fuel options).
Proof.
  unfold bakeGame.
  apply respects_bind; eauto with service.
  { apply respects_log; eauto with service. }
  intros _. apply respects_bind; eauto with service.
  { apply respects_fileExists; eauto with service. }
  intros [|].
  - apply respects_bind; eauto with service.
    + apply respects_log; eauto with service.
    + intros _. apply respects_ret; eauto with service.
  - apply respects_bind; eauto with service.
    + apply respects_log; eauto with service.
    + intros _. apply respects_try_catch; eauto with service.
      * apply keeping_buildBakedGame.
      * intros e. apply (keeping_bakeFailed cfg options e).
Qed.

(** The working directory and the archive that the cache check looks for
    are different entries of the cache directory. *)
Lemma append_neq (s t : string) : t <> ""%string -> (s ++ t)%string <> s.
Proof.
  intros N. induction s as [|c s IH]; simpl; [exact N|].
  intros E. now inversion E.
Qed.

Lemma archive_outside cfg options :
  outside (bakedGameDir cfg options) (bakedGameArchive cfg options).
Proof.
  unfold outside, bakedGameDir, bakedGameArchive.
  apply apart_siblings. intros E. symmetry in E. revert E. apply append_neq. discriminate.
Qed.

(** The cleanup never throws, and removes the directory unless the
    environment rejects one of its two calls. *)
Lemma cleanupBakedGame_run d w :
  d <> [] ->
  exists w', cleanupBakedGame d w = (Ok tt, w') /\
    (failing w Access d = false -> failing w Rm d = false -> find d (root w') = None).
Proof.
  intros N. unfold cleanupBakedGame, try_catch, bind. rewrite fileExists_run.
  unfold exists_at.
  destruct (failing w Access d) eqn:FA; cbn [negb andb].
  - eexists. split; [reflexivity|]. discriminate.
  - destruct (find d (root w)) eqn:E; cbn [present].
    + unfold fs_rm, guarded. destruct (failing w Rm d) eqn:FR.
      * eexists. split; [reflexivity|]. discriminate.
      * eexists. split; [reflexivity|]. intros _ _. simpl.
        pose proof (remove_find_under (clock w) d (root w) [] N) as X.
        now rewrite app_nil_r in X.
    + eexists. split; [reflexivity|]. now intros _ _.
Qed.

Lemma bakeFailed_run cfg options e w :
  exists w', bakeFailed cfg options e w = (Throw e, w') /\
    (failing w Access (bakedGameDir cfg options) = false ->
     failing w Rm (bakedGameDir cfg options) = false ->
     find (bakedGameDir cfg options) (root w') = None).
Proof.
  unfold bakeFailed, bind at 1, log_error, log. unfold bind.
  destruct (cleanupBakedGame_run (bakedGameDir cfg options)
              (with_log w {| log_level := LError; log_message := "❌ Failed to bake game:";
                             log_detail := Some e |})) as (w' & R & H).
  { unfold bakedGameDir. destruct (bakedGamesDir cfg); discriminate. }
  rewrite R. exists w'. split; [reflexivity|]. exact H.
Qed.

Lemma exists_at_with_log w e p : exists_at (with_log w e) p = exists_at w p.
Proof. reflexivity. Qed.

Lemma bakeStarted_quiet options w : quiet w (bakeStarted options w).
Proof. repeat split. Qed.

(** The two branches of [bakeGame]. *)
Lemma bakeGame_hit cfg fuel options w :
  exists_at w (bakedGameArchive cfg options) = true ->
  exists w', quiet w w' /\ bakeGame cfg fuel options w = (Ok (bakedResult cfg options), w').
Proof.
  intros H. unfold bakeGame, bind at 1, log_info, log. unfold bind at 1.
  rewrite fileExists_run, exists_at_with_log, H.
  eexists. split; [|reflexivity]. repeat split.
Qed.

Lemma bakeGame_miss cfg fuel options w :
  exists_at w (bakedGameArchive cfg options) = false ->
  bakeGame cfg fuel options w =
  try_catch (buildBakedGame cfg fuel options) (bakeFailed cfg options) (bakeStarted options w).
Proof.
  intros H. unfold bakeGame, bind at 1, log_info, log. unfold bind at 1.
  rewrite fileExists_run, exists_at_with_log, H. reflexivity.
Qed.

(** * The trace of writes only grows *)

Lemma extends_refl w : extends w w.
Proof. exists []. now rewrite app_nil_r. Qed.
Lemma extends_trans a b c : extends a b -> extends b c -> extends a c.
Proof. intros [d1 H1] [d2 H2]. exists (d1 ++ d2). now rewrite H2, H1, app_assoc. Qed.
Lemma extends_log w e : extends w (with_log w e).
Proof. exists []. simpl. now rewrite app_nil_r. Qed.
Lemma extends_with_root w r d : extends w (with_root w r d).
Proof. now exists [d]. Qed.
Lemma quiet_extends w w' : quiet w w' -> extends w w'.
Proof. intros (_ & W & _). exists []. now rewrite app_nil_r. Qed.

#[global] Hint Resolve extends_refl extends_trans extends_log extends_with_root : service.

Lemma extending_fs_mkdir p : extending (fs_mkdir p).
Proof.
  intros w. unfold fs_mkdir, guarded. destruct (failing w Mkdir p); auto with service.
  destruct (mkdir_p (clock w) p (root w)); simpl; auto with service.
Qed.

Lemma extending_fs_copyFile s d : extending (fs_copyFile s d).
Proof.
  intros w. unfold fs_copyFile, guarded. destruct (failing w CopyFile s); auto with service.
  destruct (find s (root w)) as [[|]|]; simpl; auto with service.
  destruct (find d (root w)) as [[|]|]; simpl; auto with service;
    destruct (put (clock w) d _ (root w)); simpl; auto with service.
Qed.

Lemma extending_fs_writeFile p c : extending (fs_writeFile p c).
Proof.
  intros w. unfold fs_writeFile, guarded. destruct (failing w WriteFile p); auto with service.
  destruct (find p (root w)) as [[|]|]; simpl; auto with service;
    destruct (put (clock w) p _ (root w)); simpl; auto with service.
Qed.

Lemma extending_fs_rm p : extending (fs_rm p).
Proof.
  intros w. unfold fs_rm, guarded. destruct (failing w Rm p); simpl; auto with service.
Qed.

Lemma extending_overlayDirectory fuel s d : extending (overlayDirectory fuel s d).
Proof.
  revert s d. induction fuel as [|fuel IH]; intros s d; simpl.
  - apply respects_out_of_fuel; auto with service.
  - apply respects_bind; eauto with service.
    + apply respects_fs_readdir_types; auto with service.
    + intros es. apply respects_for_each; eauto with service.
      intros e _. unfold overlayEntry. destruct (d_isDirectory e).
      * apply respects_bind; eauto with service.
        -- apply extending_fs_mkdir.
        -- intros _. apply IH.
      * apply respects_bind; eauto with service.
        -- apply extending_fs_copyFile.
        -- intros _. apply respects_log. auto with service.
Qed.

Lemma extending_applyModDelta cfg fuel m d : extending (applyModDelta cfg fuel m d).
Proof.
  apply respects_bind; eauto with service.
  - apply respects_log; auto with service.
  - intros _. apply extending_overlayDirectory.
Qed.

Lemma extending_createBakedGameModInfo d b ms : extending (createBakedGameModInfo d b ms).
Proof.
  apply respects_bind; eauto with service.
  - apply extending_fs_writeFile.
  - intros _. apply respects_log; auto with service.
Qed.

(** ** Taking a completed run apart *)

Lemma bind_Ok_inv {A B} (m : M A) (k : A -> M B) w b w' :
  bind m k w = (Ok b, w') -> exists a w1, m w = (Ok a, w1) /\ k a w1 = (Ok b, w').
Proof.
  unfold bind. destruct (m w) as [[a|e|] w1]; try discriminate. eauto.
Qed.

Lemma for_each_Ok_inv {A} (x : A) xs body w w' :
  for_each (x :: xs) body w = (Ok tt, w') ->
  exists w1, body x w = (Ok tt, w1) /\ for_each xs body w1 = (Ok tt, w').
Proof.
  simpl. intros H. apply bind_Ok_inv in H. destruct H as ([] & w1 & H1 & H2). eauto.
Qed.

Lemma extractArchive_Ok a d w w' :
  extractArchive a d w = (Ok tt, w') ->
  writes w' = writes w ++ [WCp a d] /\
  exists n, find a (root w) = Some n /\ is_dir n = true.
Proof.
  unfold extractArchive. intros H.
  apply bind_Ok_inv in H. destruct H as (st & w1 & H1 & H2).
  unfold fs_stat, guarded in H1. destruct (failing w Stat a); [discriminate|].
  destruct (find a (root w)) as [n|] eqn:E; [|discriminate].
  inversion H1; subst. cbn [isDirectory] in H2.
  destruct (is_dir n) eqn:Dn; [|discriminate].
  apply bind_Ok_inv in H2. destruct H2 as ([] & w2 & H2 & H3).
  inversion H2; subst.
  unfold fs_cp, guarded in H3.
  match type of H3 with (if ?c then _ else _) = _ => destruct c; [discriminate|] end.
  cbn [with_log root clock] in H3. rewrite E in H3.
  destruct (is_prefix a d); [discriminate|].
  destruct (mkdir_p (clock w1) (removelast d) (root w1)) as [r1|]; [|discriminate].
  destruct (copy_onto (clock w1) n (find d r1)) as [m|]; [|discriminate].
  destruct (put (clock w1) d m r1) as [r2|]; [|discriminate].
  inversion H3; subst. simpl. split; eauto.
Qed.

(** A build that completes has copied the base into the working directory. *)
Lemma buildBakedGame_copies cfg fuel options w res w' :
  buildBakedGame cfg fuel options w = (Ok res, w') ->
  exists base done,
    writes w' = writes w ++ WCp base (bakedGameDir cfg options) :: done.
Proof.
  unfold buildBakedGame. intros H.
  apply bind_Ok_inv in H. destruct H as (base & w1 & H1 & H).
  apply bind_Ok_inv in H. destruct H as ([] & w2 & H2 & H).
  apply bind_Ok_inv in H. destruct H as ([] & w3 & H3 & H).
  apply bind_Ok_inv in H. destruct H as ([] & w4 & H4 & H).
  apply bind_Ok_inv in H. destruct H as ([] & w5 & H5 & H).
  inversion H; subst. inversion H5; subst.
  pose proof (respects_findBaseGame quiet quiet_refl quiet_trans quiet_log cfg
                (baseGameType options) (engineVersion options) w) as Q.
  rewrite H1 in Q. destruct Q as (_ & W1 & _). cbn [snd] in W1.
  apply extractArchive_Ok in H2. destruct H2 as [W2 _].
  assert (X3 : extends w2 w3).
  { pose proof (respects_for_each extends extends_refl extends_trans (mods options)
      (fun mod_ => log_info ("📦 Applying mod delta: " ++ name mod_) ;;
                   applyModDelta cfg fuel mod_ (bakedGameDir cfg options))) as X.
    unfold respects in X. specialize (fun Hb => X Hb w2). rewrite H3 in X. apply X.
    intros m _. apply respects_bind; eauto with service.
    - apply respects_log; auto with service.
    - intros _. apply extending_applyModDelta. }
  pose proof (extending_createBakedGameModInfo (bakedGameDir cfg options)
                (baseGameType options) (mods options) w3) as X4.
  rewrite H4 in X4. simpl in X4.
  destruct X3 as [d3 E3]. destruct X4 as [d4 E4].
  exists base, (d3 ++ d4). cbn [with_log writes] in *. rewrite E4, E3, W2, W1.
  rewrite <- !app_assoc. reflexivity.
Qed.

Lemma try_catch_Ok_inv {A} (body : M A) (h : error -> M A) w a w' :
  try_catch body h w = (Ok a, w') ->
  (forall e w1, fst (h e w1) <> Ok a) ->
  body w = (Ok a, w').
Proof.
  unfold try_catch. destruct (body w) as [[a0|e|] w1]; auto.
  intros H N. exfalso. apply (N e w1). now rewrite H.
Qed.

Lemma bakeGame_archive_unchanged cfg fuel options w :
  exists_at (snd (bakeGame cfg fuel options w)) (bakedGameArchive cfg options)
  = exists_at w (bakedGameArchive cfg options).
Proof.
  eapply exists_at_keeps; [apply keeping_bakeGame|apply archive_outside].
Qed.

(** When the build throws, so does [bakeGame], with the same error. *)
Lemma bakeGame_throws cfg fuel options w e w1 :
  exists_at w (bakedGameArchive cfg options) = false ->
  buildBakedGame cfg fuel options (bakeStarted options w) = (Throw e, w1) ->
  exists w',
    bakeGame cfg fuel options w = (Throw e, w') /\
    exists_at w' (bakedGameArchive cfg options) = false /\
    (failing w Access (bakedGameDir cfg options) = false ->
     failing w Rm (bakedGameDir cfg options) = false ->
     find (bakedGameDir cfg options) (root w') = None).
Proof.
  intros Miss Build.
  pose proof (keeping_bakeGame cfg fuel options w) as K.
  rewrite (bakeGame_miss _ _ _ _ Miss) in *.
  unfold try_catch in *. rewrite Build in *.
  destruct (bakeFailed_run cfg options e w1) as (w' & R & Gone).
  rewrite R in *. exists w'. split; [reflexivity|]. split.
  - cbn [snd] in K.
    rewrite (exists_at_keeps _ _ _ _ K (archive_outside cfg options)). exact Miss.
  - pose proof (keeping_buildBakedGame cfg fuel options (bakeStarted options w)) as K1.
    rewrite Build in K1. destruct K1 as (_ & F1 & _). cbn [snd] in F1.
    change (faults (bakeStarted options w)) with (faults w) in F1.
    unfold failing in *. rewrite F1 in Gone. exact Gone.
Qed.

(** * findBaseGame as a search in order *)

Lemma findBaseGame_run cfg g ev w :
  faults w = [] ->
  exists w', quiet w w' /\
    findBaseGame cfg g ev w = (baseResolution (root w) g (possiblePaths cfg ev), w').
Proof.
  intros F. unfold findBaseGame, bind, log_info, log.
  destruct (searchBaseGame_run g (possiblePaths cfg ev)
              (with_log w {| log_level := LInfo;
                             log_message := "🔍 Looking for base game files for: " ++ g;
                             log_detail := None |}) F) as (w' & Q & R).
  exists w'. split.
  - eapply quiet_trans; [apply quiet_log|exact Q].
  - exact R.
Qed.

(** * The fingerprint *)

(** The digest against the test vectors of FIPS 180-4, and the key of one
    combination against the value that Node computes for it. *)
Example hexdigest_abc :
  Sha256.hexdigest "abc"
  = "ba7816bf8f01cfea414140de5dae2223b00361a396177a9cb410ff61f20015ad".
Proof. vm_compute. reflexivity. Qed.

Example hexdigest_two_blocks :
  Sha256.hexdigest "abcdbcdecdefdefgefghfghighijhijkijkljklmklmnlmnomnopnopq"
  = "248d6a61d20638b8e5c026930c3e6039a33ce45964ff2167f6ecedd419db06c1".
Proof. vm_compute. reflexivity. Qed.

Example generateCombinationHash_demo :
  generateCombinationHash "demo"
    [{| id := "p"; name := "Patch"; shortname := "patch"; version := "v1";
        installPath := "/mods/patch.sdd" |}] "ev1"
  = "c1fba63b447350b6".
Proof. vm_compute. reflexivity. Qed.

(** * The sweep *)

Lemma lookup_entry_In x c es : lookup_entry x es = Some c -> In (x, c) es.
Proof.
  induction es as [|[y c0] es IH]; simpl; [discriminate|].
  destruct (String.eqb x y) eqn:E.
  - apply String.eqb_eq in E. subst. intros H. inversion H. now left.
  - auto.
Qed.

Lemma lookup_entry_NoDup x c es :
  NoDup (map fst es) -> In (x, c) es -> lookup_entry x es = Some c.
Proof.
  induction es as [|[y c0] es IH]; simpl; intros ND I; [contradiction|].
  inversion ND as [|? ? NI ND']; subst.
  destruct I as [I|I].
  - inversion I; subst. now rewrite String.eqb_refl.
  - destruct (String.eqb x y) eqn:E.
    + apply String.eqb_eq in E. subst. exfalso. apply NI.
      change y with (fst (y, c)). now apply in_map.
    + auto.
Qed.

Lemma find_child d x r t es :
  find d r = Some (Dir t es) -> find (d ++ [x]) r = lookup_entry x es.
Proof.
  intros E. rewrite find_app, E. simpl. destruct (lookup_entry x es); auto.
Qed.

Section Sweep.
Variable cfg : config.
Variable maxAge : Z.
Let cache := bakedGamesDir cfg.

Lemma cache_child_neq x : cache ++ [x] <> [].
Proof. destruct cache; discriminate. Qed.

Lemma sweepEntry_keep now e c w :
  find (cache ++ [fst e]) (root w) = Some c ->
  is_dir c = is_dir (snd e) -> node_mtime c = node_mtime (snd e) ->
  failing w Stat (cache ++ [fst e]) = false ->
  eligible now maxAge e = false ->
  sweepEntry cfg maxAge now {| d_name := fst e; d_isDirectory := is_dir (snd e) |} w
  = (Ok tt, w).
Proof.
  intros F D T FS El. unfold sweepEntry, eligible in *. cbn [d_name d_isDirectory].
  destruct (is_dir (snd e) && startsWith (fst e) "baked-"); [|reflexivity].
  cbn [andb] in El. unfold bind, fs_stat, guarded. fold cache. rewrite FS, F.
  cbn [mtime_getTime]. rewrite T, El. reflexivity.
Qed.

Lemma sweepEntry_evict now e c w :
  find (cache ++ [fst e]) (root w) = Some c ->
  node_mtime c = node_mtime (snd e) ->
  failing w Stat (cache ++ [fst e]) = false ->
  failing w Rm (cache ++ [fst e]) = false ->
  eligible now maxAge e = true ->
  exists w',
    sweepEntry cfg maxAge now {| d_name := fst e; d_isDirectory := is_dir (snd e) |} w
    = (Ok tt, w') /\
    root w' = remove (clock w) (cache ++ [fst e]) (root w) /\
    clock w' = clock w /\ faults w' = faults w /\
    writes w' = writes w ++ [WRm (cache ++ [fst e])].
Proof.
  intros F T FS FR El. unfold sweepEntry, eligible in *. cbn [d_name d_isDirectory].
  apply andb_prop in El. destruct El as [El1 El2]. rewrite El1.
  unfold bind, fs_stat, guarded. fold cache. rewrite FS, F.
  cbn [mtime_getTime]. rewrite T, El2.
  unfold fs_rm, guarded. rewrite FR. eexists. split; [reflexivity|]. now repeat split.
Qed.

Lemma sweepRejection_faults now w w' e :
  faults w' = faults w ->
  sweepRejection cfg maxAge now w' e = sweepRejection cfg maxAge now w e.
Proof. intros F. unfold sweepRejection, failing. now rewrite F. Qed.

Lemma sweepRejection_none now w e :
  sweepRejection cfg maxAge now w e = None ->
  (is_dir (snd e) && startsWith (fst e) "baked-" = true ->
   failing w Stat (cache ++ [fst e]) = false) /\
  (eligible now maxAge e = true -> failing w Rm (cache ++ [fst e]) = false).
Proof.
  unfold sweepRejection, eligible. fold cache.
  destruct (is_dir (snd e) && startsWith (fst e) "baked-"); cbn [andb].
  - destruct (failing w Stat (cache ++ [fst e])); [discriminate|].
    destruct (now - node_mtime (snd e) >? maxAge)%Z; cbn [andb].
    + destruct (failing w Rm (cache ++ [fst e])); [discriminate|auto].
    + split; [auto|discriminate].
  - split; discriminate.
Qed.

Lemma sweepEntry_skip now e w :
  is_dir (snd e) && startsWith (fst e) "baked-" = false ->
  sweepEntry cfg maxAge now {| d_name := fst e; d_isDirectory := is_dir (snd e) |} w
  = (Ok tt, w).
Proof. intros H. unfold sweepEntry. cbn [d_name d_isDirectory]. now rewrite H. Qed.

(** The entry at which the sweep stops. *)
Lemma sweepEntry_stops now e err w :
  find (cache ++ [fst e]) (root w) = Some (snd e) ->
  sweepRejection cfg maxAge now w e = Some err ->
  sweepEntry cfg maxAge now {| d_name := fst e; d_isDirectory := is_dir (snd e) |} w
  = (Throw err, w).
Proof.
  intros F. unfold sweepRejection, sweepEntry. cbn [d_name d_isDirectory]. fold cache.
  destruct (is_dir (snd e) && startsWith (fst e) "baked-"); [|discriminate].
  unfold bind at 1, fs_stat, guarded.
  destruct (failing w Stat (cache ++ [fst e])).
  - intros H. inversion H. reflexivity.
  - rewrite F. cbn [mtime_getTime].
    destruct (now - node_mtime (snd e) >? maxAge)%Z; cbn [andb]; [|discriminate].
    unfold bind at 1, fs_rm, guarded.
    destruct (failing w Rm (cache ++ [fst e])); [|discriminate].
    intros H. inversion H. reflexivity.
Qed.

(** The loop over a listing whose entries are all in place and on which
    no call that the sweep makes is rejected. *)
Lemma sweep_loop_served now es w :
  NoDup (map fst es) ->
  (forall e, In e es -> find (cache ++ [fst e]) (root w) = Some (snd e)) ->
  (forall e, In e es -> sweepRejection cfg maxAge now w e = None) ->
  exists w',
    for_each (dirents es) (sweepEntry cfg maxAge now) w = (Ok tt, w') /\
    clock w' = clock w /\ faults w' = faults w /\
    writes w' = writes w
                ++ map (fun e => WRm (cache ++ [fst e])) (filter (eligible now maxAge) es) /\
    (forall e, In e es -> eligible now maxAge e = true ->
               find (cache ++ [fst e]) (root w') = None) /\
    (forall q, (forall e, In e es -> eligible now maxAge e = true ->
                          apart (cache ++ [fst e]) q = true) ->
               find q (root w') = find q (root w)).
Proof.
  revert w. induction es as [|e es IH]; intros w ND Here NF.
  - exists w. simpl. rewrite app_nil_r. repeat split; auto. intros e [].
  - inversion ND as [|? ? NI ND']; subst.
    assert (Other : forall e', In e' es -> fst e <> fst e').
    { intros e' I E. apply NI. rewrite E. now apply in_map. }
    cbn [dirents map for_each]. unfold bind at 1.
    destruct (sweepRejection_none now w e (NF e (or_introl eq_refl))) as [FS FR].
    destruct (eligible now maxAge e) eqn:El.
    + assert (Bk : is_dir (snd e) && startsWith (fst e) "baked-" = true).
      { unfold eligible in El. apply andb_prop in El. tauto. }
      specialize (FS Bk). specialize (FR eq_refl).
      destruct (sweepEntry_evict now e (snd e) w (Here e (or_introl eq_refl)) eq_refl FS FR El)
        as (w1 & R1 & Root1 & C1 & F1 & W1).
      rewrite R1.
      destruct (IH w1 ND') as (w' & R & C & F & W & Gone & Frame).
      * intros e' I. rewrite Root1, remove_frame.
        -- apply Here. now right.
        -- apply apart_siblings. now apply Other.
      * intros e' I. rewrite (sweepRejection_faults now w w1 e' F1). apply NF. now right.
      * exists w'. split; [exact R|]. split; [congruence|]. split; [congruence|].
        split; [|split].
        -- rewrite W, W1. cbn [filter]. rewrite El. cbn [map].
           now rewrite <- app_assoc.
        -- intros e' [<-|I] El'.
           ++ rewrite Frame.
              ** rewrite Root1.
                 pose proof (remove_find_under (clock w) (cache ++ [fst e]) (root w) []
                               (cache_child_neq _)) as X.
                 now rewrite app_nil_r in X.
              ** intros e' I _. apply apart_siblings. intros E. now apply (Other e' I).
           ++ now apply Gone.
        -- intros q Hq. rewrite Frame.
           ++ rewrite Root1. apply remove_frame. apply Hq; [now left|exact El].
           ++ intros e' I El'. apply Hq; [now right|exact El'].
    + assert (Kept : sweepEntry cfg maxAge now
                         {| d_name := fst e; d_isDirectory := is_dir (snd e) |} w = (Ok tt, w)).
      { destruct (is_dir (snd e) && startsWith (fst e) "baked-") eqn:Bk.
        - apply (sweepEntry_keep now e (snd e) w (Here e (or_introl eq_refl)) eq_refl eq_refl
                   (FS eq_refl) El).
        - now apply sweepEntry_skip. }
      rewrite Kept.
      destruct (IH w ND') as (w' & R & C & F & W & Gone & Frame).
      * intros e' I. apply Here. now right.
      * intros e' I. apply NF. now right.
      * exists w'. split; [exact R|]. split; [exact C|]. split; [exact F|].
        split; [|split].
        -- rewrite W. cbn [filter]. now rewrite El.
        -- intros e' [<-|I] El'; [congruence|now apply Gone].
        -- intros q Hq. apply Frame. intros e' I El'. apply Hq; [now right|exact El'].
Qed.

(** The loop over a listing whose entries are all in place and on which
    no call is rejected. *)
Lemma sweep_loop now es w :
  NoDup (map fst es) ->
  (forall e, In e es -> find (cache ++ [fst e]) (root w) = Some (snd e)) ->
  (forall e, In e es -> failing w Stat (cache ++ [fst e]) = false /\
                        failing w Rm (cache ++ [fst e]) = false) ->
  exists w',
    for_each (dirents es) (sweepEntry cfg maxAge now) w = (Ok tt, w') /\
    clock w' = clock w /\ faults w' = faults w /\
    writes w' = writes w
                ++ map (fun e => WRm (cache ++ [fst e])) (filter (eligible now maxAge) es) /\
    (forall e, In e es -> eligible now maxAge e = true ->
               find (cache ++ [fst e]) (root w') = None) /\
    (forall q, (forall e, In e es -> eligible now maxAge e = true ->
                          apart (cache ++ [fst e]) q = true) ->
               find q (root w') = find q (root w)).
Proof.
  intros ND Here NF. apply sweep_loop_served; auto.
  intros e I. destruct (NF e I) as [FS FR]. unfold sweepRejection. fold cache.
  rewrite FS, FR, andb_false_r. now destruct (is_dir (snd e) && startsWith (fst e) "baked-").
Qed.

End Sweep.

Lemma sweepBakedGames_listing cfg maxAge w t es :
  failing w Access (bakedGamesDir cfg) = false ->
  failing w Readdir (bakedGamesDir cfg) = false ->
  find (bakedGamesDir cfg) (root w) = Some (Dir t es) ->
  sweepBakedGames cfg maxAge w
  = for_each (dirents es) (sweepEntry cfg maxAge (clock w)) w.
Proof.
  intros FA FR E. unfold sweepBakedGames, bind at 1. rewrite fileExists_run.
  unfold exists_at. rewrite FA, E. cbn [negb andb present].
  unfold bind at 1, fs_readdir_types, guarded. rewrite FR, E.
  unfold bind at 1, date_now. reflexivity.
Qed.

Lemma entries_in_place cfg w t es :
  find (bakedGamesDir cfg) (root w) = Some (Dir t es) -> NoDup (map fst es) ->
  forall e, In e es -> find (bakedGamesDir cfg ++ [fst e]) (root w) = Some (snd e).
Proof.
  intros E ND [x c] I. rewrite (find_child _ _ _ _ _ E). now apply lookup_entry_NoDup.
Qed.

(** * The sweep returns, and stops at the first failure *)

Lemma for_each_app_throw {A} (xs : list A) x ys body w w1 e w2 :
  for_each xs body w = (Ok tt, w1) ->
  body x w1 = (Throw e, w2) ->
  for_each (xs ++ x :: ys) body w = (Throw e, w2).
Proof.
  revert w. induction xs as [|a xs IH]; intros w H1 H2; simpl in *.
  - inversion H1; subst. unfold bind. now rewrite H2.
  - unfold bind in *. destruct (body a w) as [[[]|e0|] w0]; try discriminate.
    now apply IH.
Qed.

Lemma unbounded_bind {A B} (m : M A) (k : A -> M B) :
  unbounded m -> (forall a, unbounded (k a)) -> unbounded (bind m k).
Proof.
  intros Hm Hk w. unfold bind. specialize (Hm w).
  destruct (m w) as [[a|e|] w1]; simpl in *; try discriminate; auto. apply Hk.
Qed.

Lemma unbounded_for_each {A} (xs : list A) body :
  (forall x, unbounded (body x)) -> unbounded (for_each xs body).
Proof.
  intros H. induction xs; simpl; [discriminate|]. apply unbounded_bind; auto.
Qed.

Lemma unbounded_guarded {A} call p (m : M A) : unbounded m -> unbounded (guarded call p m).
Proof. intros H w. unfold guarded. destruct (failing w call p); [discriminate|apply H]. Qed.

Lemma unbounded_sweepEntry cfg maxAge now e : unbounded (sweepEntry cfg maxAge now e).
Proof.
  unfold sweepEntry. destruct (d_isDirectory e && startsWith (d_name e) "baked-");
    [|discriminate].
  apply unbounded_bind.
  - apply unbounded_guarded. intros w. destruct (find _ (root w)); discriminate.
  - intros st. destruct (now - mtime_getTime st >? maxAge)%Z; [|discriminate].
    apply unbounded_bind; [|discriminate].
    apply unbounded_guarded. discriminate.
Qed.

Lemma unbounded_sweepBakedGames cfg maxAge : unbounded (sweepBakedGames cfg maxAge).
Proof.
  unfold sweepBakedGames. apply unbounded_bind.
  - intros w. rewrite fileExists_run. discriminate.
  - intros b. destruct (negb b); [discriminate|].
    apply unbounded_bind.
    + apply unbounded_guarded. intros w. destruct (find _ (root w)) as [[|]|]; discriminate.
    + intros es. apply unbounded_bind; [discriminate|].
      intros now. apply unbounded_for_each. intros e. apply unbounded_sweepEntry.
Qed.

Lemma NoDup_app_apart {A} (l1 l2 : list A) :
  NoDup (l1 ++ l2) -> forall a, In a l1 -> In a l2 -> False.
Proof.
  induction l1 as [|x l1 IH]; intros ND a I1 I2; [contradiction|].
  cbn [app] in ND. inversion ND as [|? ? NI ND']; subst.
  destruct I1 as [<-|I1].
  - apply NI. apply in_or_app. now right.
  - now apply (IH ND' a).
Qed.

Lemma cleanupOldBakedGames_returns cfg maxAge w :
  exists w', cleanupOldBakedGames cfg maxAge w = (Ok tt, w').
Proof.
  unfold cleanupOldBakedGames, try_catch.
  pose proof (unbounded_sweepBakedGames cfg maxAge w) as U.
  destruct (sweepBakedGames cfg maxAge w) as [[[]|e|] w1]; simpl in U.
  - eauto.
  - eexists. reflexivity.
  - congruence.
Qed.

(** * What a completed call has done *)

Lemma fs_readdir_types_Ok p w ds w' :
  fs_readdir_types p w = (Ok ds, w') ->
  w' = w /\ exists t es, find p (root w) = Some (Dir t es) /\ ds = dirents es.
Proof.
  unfold fs_readdir_types, guarded. destruct (failing w Readdir p); [discriminate|].
  destruct (find p (root w)) as [[|t es]|]; try discriminate.
  intros H. inversion H; subst. eauto.
Qed.

Lemma fs_mkdir_Ok p w w' :
  fs_mkdir p w = (Ok tt, w') -> mkdir_p (clock w) p (root w) = Some (root w').
Proof.
  unfold fs_mkdir, guarded. destruct (failing w Mkdir p); [discriminate|].
  destruct (mkdir_p (clock w) p (root w)); [|discriminate].
  intros H. inversion H; subst. reflexivity.
Qed.

Lemma fs_copyFile_Ok s d w w' :
  fs_copyFile s d w = (Ok tt, w') ->
  exists t c,
    find s (root w) = Some (File t c) /\
    (forall t' es, find d (root w) <> Some (Dir t' es)) /\
    put (clock w) d (File (clock w) c) (root w) = Some (root w').
Proof.
  unfold fs_copyFile, guarded. destruct (failing w CopyFile s); [discriminate|].
  destruct (find s (root w)) as [[t c|]|]; try discriminate.
  destruct (find d (root w)) as [[|]|] eqn:E; try discriminate;
    (destruct (put (clock w) d (File (clock w) c) (root w)) eqn:P; [|discriminate];
     intros H; inversion H; subst; exists t, c; repeat split; auto; congruence).
Qed.

Lemma mkdir_p_file now p n t c : find p n = Some (File t c) -> mkdir_p now p n = None.
Proof.
  revert n. induction p as [|x p IH]; intros n H.
  - simpl in H. inversion H; subst. reflexivity.
  - destruct n as [|t0 es]; [reflexivity|]. simpl in *.
    destruct (lookup_entry x es) as [c0|]; [|discriminate].
    now rewrite (IH c0 H).
Qed.

Lemma is_prefix_below p x y r : is_prefix (p ++ x :: y :: r) (p ++ [x]) = false.
Proof.
  induction p as [|z p IH]; simpl.
  - now rewrite String.eqb_refl.
  - now rewrite String.eqb_refl.
Qed.

Lemma find_below_not_dir p r n :
  r <> [] -> (forall t es, find p n <> Some (Dir t es)) -> find (p ++ r) n = None.
Proof.
  intros N ND. rewrite find_app. destruct (find p n) as [[t c|t es]|]; auto.
  - destruct r; [congruence|reflexivity].
  - exfalso. eapply ND. reflexivity.
Qed.

Lemma lookup_entry_dirents x c es :
  In (x, c) es -> lookup_entry x es <> None.
Proof.
  induction es as [|[y c0] es IH]; simpl; [contradiction|].
  intros [I|I]; destruct (String.eqb x y) eqn:E; try discriminate; auto.
  inversion I; subst. now rewrite String.eqb_refl in E.
Qed.

Lemma dirents_listed e es t src r :
  In e (dirents es) -> find src r = Some (Dir t es) -> find (src ++ [d_name e]) r <> None.
Proof.
  intros I E. unfold dirents in I. apply in_map_iff in I. destruct I as ([x c] & <- & I).
  cbn [d_name fst]. rewrite (find_child _ _ _ _ _ E). eapply lookup_entry_dirents; eauto.
Qed.

(** * The overlay leaves alone what its source does not name *)

Section OverlayFrame.
Variable recurse : path -> path -> M unit.
Hypothesis recurse_keeps :
  forall s d, keeping (fun q => apart d q = true) (recurse s d).
Hypothesis recurse_frame :
  forall s d w w', recurse s d w = (Ok tt, w') -> apart s d = true ->
    forall r, find (s ++ r) (root w) = None ->
              find (d ++ r) (root w') = find (d ++ r) (root w).

Lemma overlayEntry_source s d e w o w' :
  overlayEntry recurse s d e w = (o, w') -> apart s d = true ->
  forall r, find (s ++ r) (root w') = find (s ++ r) (root w).
Proof.
  intros H A r. pose proof (keeping_overlayEntry recurse s d e recurse_keeps w) as K.
  rewrite H in K. destruct K as (_ & _ & K). apply K.
  rewrite apart_sym. apply apart_app_l. apply apart_app_r. exact A.
Qed.

Lemma overlayEntry_frame s d e w w' :
  overlayEntry recurse s d e w = (Ok tt, w') -> apart s d = true ->
  find (s ++ [d_name e]) (root w) <> None ->
  forall r, find (s ++ r) (root w) = None ->
            find (d ++ r) (root w') = find (d ++ r) (root w).
Proof.
  intros H A Listed r NoSrc.
  destruct r as [|m r'].
  { exfalso. apply Listed. rewrite find_app. rewrite app_nil_r in NoSrc. now rewrite NoSrc. }
  destruct (String.eqb (d_name e) m) eqn:Em.
  2:{ pose proof (keeping_overlayEntry recurse s d e recurse_keeps w) as K.
      rewrite H in K. destruct K as (_ & _ & K). apply K.
      apply apart_siblings. intros Eq. rewrite Eq, String.eqb_refl in Em. discriminate. }
  apply String.eqb_eq in Em. subst m.
  destruct r' as [|y r''].
  { congruence. }
  unfold overlayEntry in H. destruct (d_isDirectory e).
  - apply bind_Ok_inv in H. destruct H as ([] & w1 & H1 & H2).
    pose proof (fs_mkdir_Ok _ _ _ H1) as Mk.
    assert (Src1 : forall q, apart (d ++ [d_name e]) q = true ->
                             find q (root w1) = find q (root w)).
    { intros q Hq. eapply mkdir_p_frame; [exact Mk|]. now apply apart_not_prefix. }
    change (d ++ d_name e :: y :: r'') with (d ++ [d_name e] ++ y :: r'').
    rewrite app_assoc.
    rewrite (recurse_frame _ _ _ _ H2).
    + rewrite <- app_assoc. eapply mkdir_p_frame; [exact Mk|]. apply is_prefix_below.
    + apply apart_app_l, apart_app_r. exact A.
    + rewrite <- app_assoc. cbn [app]. rewrite Src1; [exact NoSrc|].
      rewrite apart_sym. apply apart_app_l, apart_app_r. exact A.
  - apply bind_Ok_inv in H. destruct H as ([] & w1 & H1 & H2).
    inversion H2; subst. cbn [with_log root].
    apply fs_copyFile_Ok in H1. destruct H1 as (t & c & _ & NotDir & Put).
    change (d ++ d_name e :: y :: r'') with (d ++ [d_name e] ++ y :: r'').
    rewrite app_assoc.
    rewrite (put_find_under _ _ _ _ _ (y :: r'') Put). cbn [find].
    symmetry. apply find_below_not_dir; [discriminate|exact NotDir].
Qed.

Lemma overlayLoop_frame s d ds w w' :
  for_each ds (overlayEntry recurse s d) w = (Ok tt, w') -> apart s d = true ->
  (forall e, In e ds -> find (s ++ [d_name e]) (root w) <> None) ->
  forall r, find (s ++ r) (root w) = None ->
            find (d ++ r) (root w') = find (d ++ r) (root w).
Proof.
  revert w. induction ds as [|e ds IH]; intros w H A Listed r NoSrc.
  - inversion H; subst. reflexivity.
  - apply for_each_Ok_inv in H. destruct H as (w1 & H1 & H2).
    pose proof (overlayEntry_source _ _ _ _ _ _ H1 A) as Src.
    rewrite (IH w1 H2 A).
    + apply (overlayEntry_frame _ _ _ _ _ H1 A); auto. apply Listed. now left.
    + intros e' I. rewrite Src. apply Listed. now right.
    + now rewrite Src.
Qed.
End OverlayFrame.

Lemma overlayDirectory_keeps_outside fuel s d w o w' :
  overlayDirectory fuel s d w = (o, w') ->
  forall q, apart d q = true -> find q (root w') = find q (root w).
Proof.
  intros H q Hq. pose proof (keeping_overlayDirectory fuel s d w) as K.
  rewrite H in K. destruct K as (_ & _ & K). now apply K.
Qed.

Lemma overlayDirectory_leaves_unnamed fuel :
  forall s d w w', overlayDirectory fuel s d w = (Ok tt, w') -> apart s d = true ->
    forall r, find (s ++ r) (root w) = None ->
              find (d ++ r) (root w') = find (d ++ r) (root w).
Proof.
  induction fuel as [|fuel IH]; intros s d w w' H A r NoSrc.
  - discriminate.
  - cbn [overlayDirectory] in H. apply bind_Ok_inv in H.
    destruct H as (ds & w1 & H1 & H2).
    apply fs_readdir_types_Ok in H1. destruct H1 as (-> & t & es & E & ->).
    apply (overlayLoop_frame (overlayDirectory fuel) (keeping_overlayDirectory fuel) IH
             s d (dirents es) w w' H2 A); auto.
    intros e I. eapply dirents_listed; eauto.
Qed.

(** * The overlay writes the files of its source *)

Lemma listed_as_dirents f es c :
  lookup_entry f es = Some c -> listed_as f (dirents es) = Some (is_dir c).
Proof.
  unfold listed_as. induction es as [|[y c0] es IH]; simpl; [discriminate|].
  rewrite (String.eqb_sym y f). destruct (String.eqb f y); auto.
  intros H. now inversion H.
Qed.

Section OverlayWrites.
Variable recurse : path -> path -> M unit.
Hypothesis recurse_keeps :
  forall s d, keeping (fun q => apart d q = true) (recurse s d).

Lemma overlayLoop_file s d f t v ds w w' :
  for_each ds (overlayEntry recurse s d) w = (Ok tt, w') -> apart s d = true ->
  find (s ++ [f]) (root w) = Some (File t v) ->
  read_file (d ++ [f]) (root w) = Some v \/ listed_as f ds = Some false ->
  read_file (d ++ [f]) (root w') = Some v.
Proof.
  revert w. induction ds as [|e ds IH]; intros w H A Src Done.
  - inversion H; subst. destruct Done as [Done|L]; [exact Done|discriminate].
  - apply for_each_Ok_inv in H. destruct H as (w1 & H1 & H2).
    pose proof (overlayEntry_source recurse recurse_keeps _ _ _ _ _ _ H1 A [f]) as Src1.
    apply (IH w1 H2 A); [congruence|].
    unfold listed_as in *. cbn [List.find] in Done.
    destruct (String.eqb (d_name e) f) eqn:Ef.
    + apply String.eqb_eq in Ef. left.
      unfold overlayEntry in H1. rewrite Ef in H1.
      destruct (d_isDirectory e) eqn:De.
      * exfalso. destruct Done as [Done|L]; [|cbn in L; congruence].
        apply bind_Ok_inv in H1. destruct H1 as ([] & w2 & H1 & _).
        apply fs_mkdir_Ok in H1. unfold read_file in Done.
        destruct (find (d ++ [f]) (root w)) as [[t0 c0|]|] eqn:E; try discriminate.
        rewrite (mkdir_p_file _ _ _ _ _ E) in H1. discriminate.
      * apply bind_Ok_inv in H1. destruct H1 as ([] & w2 & H1 & H3).
        inversion H3; subst. cbn [with_log root].
        apply fs_copyFile_Ok in H1. destruct H1 as (t0 & c0 & S0 & _ & Put).
        unfold read_file.
        pose proof (put_find_under _ _ _ _ _ [] Put) as X. rewrite app_nil_r in X.
        rewrite X. cbn [find]. congruence.
    + destruct Done as [Done|L]; [left|right; exact L].
      pose proof (keeping_overlayEntry recurse s d e recurse_keeps w) as K.
      rewrite H1 in K. destruct K as (_ & _ & K). unfold read_file in *.
      rewrite K; [exact Done|]. apply apart_siblings.
      intros Eq. rewrite Eq, String.eqb_refl in Ef. discriminate.
Qed.
End OverlayWrites.

(** After a successful overlay, a file at the top of the source is at the
    top of the destination, with the content it has in the source. *)
Lemma overlayDirectory_file fuel s d f t v w w' :
  overlayDirectory fuel s d w = (Ok tt, w') -> apart s d = true ->
  find (s ++ [f]) (root w) = Some (File t v) ->
  read_file (d ++ [f]) (root w') = Some v.
Proof.
  destruct fuel as [|fuel]; [discriminate|]. intros H A Src.
  cbn [overlayDirectory] in H. apply bind_Ok_inv in H.
  destruct H as (ds & w1 & H1 & H2).
  apply fs_readdir_types_Ok in H1. destruct H1 as (-> & t0 & es & E & ->).
  apply (overlayLoop_file (overlayDirectory fuel) (keeping_overlayDirectory fuel)
           s d f t v (dirents es) w w' H2 A Src).
  right. rewrite (find_child _ _ _ _ _ E) in Src.
  now rewrite (listed_as_dirents _ _ _ Src).
Qed.

(** * The order of the overlays in a bake *)

Lemma for_each_app_Ok_inv {A} (xs ys : list A) body w w' :
  for_each (xs ++ ys) body w = (Ok tt, w') ->
  exists w1, for_each xs body w = (Ok tt, w1) /\ for_each ys body w1 = (Ok tt, w').
Proof.
  revert w. induction xs as [|x xs IH]; intros w H.
  - exists w. now split.
  - cbn [app] in H. apply for_each_Ok_inv in H. destruct H as (w0 & H0 & H).
    destruct (IH w0 H) as (w1 & H1 & H2). exists w1. split; [|exact H2].
    simpl. unfold bind. now rewrite H0.
Qed.

Lemma keeping_applyMods cfg fuel options ms :
  keeping (outside (bakedGameDir cfg options)) (applyMods cfg fuel options ms).
Proof.
  apply respects_for_each; eauto with service. intros m _.
  apply respects_bind; eauto with service.
  - apply respects_log; auto with service.
  - intros _. apply keeping_applyModDelta.
Qed.

Lemma outside_cache cfg options q r :
  apart q (bakedGamesDir cfg) = true -> outside (bakedGameDir cfg options) (q ++ r).
Proof.
  intros A. unfold outside, bakedGameDir. rewrite apart_sym.
  apply apart_app_l, apart_app_r. exact A.
Qed.

(** * Enough fuel *)

Lemma height_entry x c t es :
  lookup_entry x es = Some c -> height c < height (Dir t es).
Proof.
  intros L. cbn [height]. apply Nat.lt_succ_r.
  induction es as [|[y c0] es IH]; [discriminate|].
  simpl in L. destruct (String.eqb x y).
  - inversion L; subst. apply Nat.le_max_l.
  - etransitivity; [now apply IH|apply Nat.le_max_r].
Qed.

Lemma levels_child p x r t es :
  find p r = Some (Dir t es) -> levels (p ++ [x]) r < S (levels p r) /\
                                 (levels (p ++ [x]) r < levels p r).
Proof.
  intros E. unfold levels. rewrite (find_child _ _ _ _ _ E), E.
  destruct (lookup_entry x es) as [c|] eqn:L.
  - pose proof (height_entry _ _ t _ L). lia.
  - cbn [height]. lia.
Qed.

Lemma unbounded_fs_mkdir p : unbounded (fs_mkdir p).
Proof.
  apply unbounded_guarded. intros w. destruct (mkdir_p _ _ _); discriminate.
Qed.

Lemma unbounded_fs_copyFile s d : unbounded (fs_copyFile s d).
Proof.
  apply unbounded_guarded. intros w.
  destruct (find s (root w)) as [[|]|]; try discriminate.
  destruct (find d (root w)) as [[|]|]; try discriminate;
    destruct (put _ _ _ _); discriminate.
Qed.

Lemma unbounded_fs_writeFile p c : unbounded (fs_writeFile p c).
Proof.
  apply unbounded_guarded. intros w.
  destruct (find p (root w)) as [[|]|]; try discriminate;
    destruct (put _ _ _ _); discriminate.
Qed.

Lemma unbounded_fs_rm p : unbounded (fs_rm p).
Proof. apply unbounded_guarded. discriminate. Qed.

Lemma unbounded_fs_stat p : unbounded (fs_stat p).
Proof. apply unbounded_guarded. intros w. destruct (find p (root w)); discriminate. Qed.

Lemma unbounded_fs_readdir_types p : unbounded (fs_readdir_types p).
Proof.
  apply unbounded_guarded. intros w. destruct (find p (root w)) as [[|]|]; discriminate.
Qed.

Lemma unbounded_fs_cp s d : unbounded (fs_cp s d).
Proof.
  apply unbounded_guarded. intros w.
  destruct (find s (root w)); [|discriminate].
  destruct (is_prefix s d); [discriminate|].
  destruct (mkdir_p _ _ _); [|discriminate].
  destruct (copy_onto _ _ _); [|discriminate].
  destruct (put _ _ _ _); discriminate.
Qed.

Lemma unbounded_log l s d : unbounded (log l s d).
Proof. discriminate. Qed.

Lemma unbounded_fileExists p : unbounded (fileExists p).
Proof. intros w. rewrite fileExists_run. discriminate. Qed.

Lemma unbounded_try_catch {A} (m : M A) h :
  unbounded m -> (forall e, unbounded (h e)) -> unbounded (try_catch m h).
Proof.
  intros Hm Hh w. unfold try_catch. specialize (Hm w).
  destruct (m w) as [[a|e|] w1]; simpl in *; try discriminate; auto. apply Hh.
Qed.

Lemma unbounded_findBaseGame cfg g ev : unbounded (findBaseGame cfg g ev).
Proof.
  apply unbounded_bind; [apply unbounded_log|]. intros _.
  induction (possiblePaths cfg ev) as [|d ds IH]; simpl; [discriminate|].
  apply unbounded_bind; [apply unbounded_fileExists|]. intros b.
  destruct (negb b); [exact IH|].
  apply unbounded_bind.
  { apply unbounded_bind; [apply unbounded_fs_readdir_types|discriminate]. }
  intros files. apply unbounded_bind.
  - induction (filter (isCandidate g) files) as [|c cs IHc]; simpl; [discriminate|].
    apply unbounded_bind.
    + intros w. rewrite isValidGameArchive_run. discriminate.
    + intros v. destruct v; [|exact IHc].
      apply unbounded_bind; [apply unbounded_log|discriminate].
  - intros [p|]; [discriminate|exact IH].
Qed.

Lemma unbounded_extractArchive a d : unbounded (extractArchive a d).
Proof.
  apply unbounded_bind; [apply unbounded_fs_stat|]. intros st.
  destruct (isDirectory st); [|discriminate].
  apply unbounded_bind; [apply unbounded_log|]. intros _. apply unbounded_fs_cp.
Qed.

Lemma unbounded_createBakedGameModInfo d b ms : unbounded (createBakedGameModInfo d b ms).
Proof.
  apply unbounded_bind; [apply unbounded_fs_writeFile|]. intros _. apply unbounded_log.
Qed.

Lemma unbounded_bakeFailed cfg options e : unbounded (bakeFailed cfg options e).
Proof.
  intros w. destruct (bakeFailed_run cfg options e w) as (w' & R & _). rewrite R. discriminate.
Qed.

(** ** The overlay ends within the levels of its source *)

Lemma overlayDirectory_ends fuel :
  forall s d w, apart s d = true -> levels s (root w) < fuel ->
                fst (overlayDirectory fuel s d w) <> OutOfFuel.
Proof.
  induction fuel as [|fuel IH]; intros s d w A B; [lia|].
  cbn [overlayDirectory]. unfold bind at 1.
  destruct (fs_readdir_types s w) as [[ds|e|] w0] eqn:R; cbn [fst]; try discriminate.
  2:{ pose proof (unbounded_fs_readdir_types s w) as U. now rewrite R in U. }
  apply fs_readdir_types_Ok in R. destruct R as (-> & t & es & E & ->).
  assert (Low : forall e, levels (s ++ [d_name e]) (root w) < fuel).
  { intros e. pose proof (proj2 (levels_child s (d_name e) (root w) t es E)). lia. }
  clear B E.
  assert (Src : forall r, find (s ++ r) (root w) = find (s ++ r) (root w)) by reflexivity.
  revert Src. generalize w at 1 3 as w1. generalize (dirents es) as ds. clear es t.
  induction ds as [|e ds IHds]; intros w1 Src; [discriminate|].
  cbn [for_each]. unfold bind at 1.
  destruct (overlayEntry (overlayDirectory fuel) s d e w1) as [[[]|err|] w2] eqn:Step;
    cbn [fst]; try discriminate.
  - apply IHds. intros r.
    rewrite (overlayEntry_source _ (keeping_overlayDirectory fuel) _ _ _ _ _ _ Step A r).
    apply Src.
  - exfalso. unfold overlayEntry in Step. destruct (d_isDirectory e).
    + unfold bind in Step.
      destruct (fs_mkdir (d ++ [d_name e]) w1) as [[[]|err|] w3] eqn:Mk; try discriminate.
      * apply (IH (s ++ [d_name e]) (d ++ [d_name e]) w3).
        -- apply apart_app_l, apart_app_r. exact A.
        -- unfold levels. apply fs_mkdir_Ok in Mk.
           rewrite (mkdir_p_frame _ _ _ _ (s ++ [d_name e]) Mk).
           ++ rewrite Src. apply Low.
           ++ apply apart_not_prefix. apply apart_app_l, apart_app_r.
              rewrite apart_sym. exact A.
        -- now rewrite Step.
      * pose proof (unbounded_fs_mkdir (d ++ [d_name e]) w1) as U. rewrite Mk in U.
        now apply U.
    + unfold bind in Step.
      destruct (fs_copyFile (s ++ [d_name e]) (d ++ [d_name e]) w1) as [[[]|err|] w3] eqn:Cp;
        try discriminate.
      pose proof (unbounded_fs_copyFile (s ++ [d_name e]) (d ++ [d_name e]) w1) as U.
      rewrite Cp in U. now apply U.
Qed.

(** ** The bake ends when its overlays do *)

Lemma ends_bind {A B} (m : M A) (k : A -> M B) w :
  fst (m w) <> OutOfFuel ->
  (forall a w1, m w = (Ok a, w1) -> fst (k a w1) <> OutOfFuel) ->
  fst (bind m k w) <> OutOfFuel.
Proof.
  intros Hm Hk. unfold bind. destruct (m w) as [[a|e|] w1]; cbn [fst] in *;
    try discriminate; auto.
Qed.

Lemma ends_for_each {A} (I : world -> Prop) (xs : list A) body w :
  I w ->
  (forall x w1, In x xs -> I w1 ->
                fst (body x w1) <> OutOfFuel /\ I (snd (body x w1))) ->
  fst (for_each xs body w) <> OutOfFuel.
Proof.
  revert w. induction xs as [|x xs IH]; intros w Iw H; [discriminate|].
  cbn [for_each]. destruct (H x w (or_introl eq_refl) Iw) as [E Inv].
  apply ends_bind; [exact E|]. intros [] w1 R. rewrite R in Inv. apply IH; [exact Inv|].
  intros y w2 Iy. apply H. now right.
Qed.

Lemma levels_keeps (P : path -> Prop) w w' p :
  keeps P w w' -> P p -> levels p (root w') = levels p (root w).
Proof. intros (_ & _ & K) Hp. unfold levels. now rewrite (K p Hp). Qed.

Lemma ends_try_catch {A} (m : M A) h w :
  fst (m w) <> OutOfFuel -> (forall e, unbounded (h e)) ->
  fst (try_catch m h w) <> OutOfFuel.
Proof.
  intros Hm Hh. unfold try_catch. destruct (m w) as [[a|e|] w1]; cbn [fst] in *;
    try discriminate; auto. apply Hh.
Qed.

Lemma outside_overlay cfg options q :
  apart q (bakedGamesDir cfg) = true -> outside (bakedGameDir cfg options) q.
Proof.
  intros A. pose proof (outside_cache cfg options q [] A) as O. now rewrite app_nil_r in O.
Qed.

(** With a bound above the levels of every overlay, and the overlays lying
    outside the cache directory, [bakeGame] returns or throws. *)
Lemma bakeGame_ends cfg fuel options w :
  (forall m, In m (mods options) ->
     apart (resolve (process_cwd cfg) (installPath m)) (bakedGamesDir cfg) = true /\
     levels (resolve (process_cwd cfg) (installPath m)) (root w) < fuel) ->
  fst (bakeGame cfg fuel options w) <> OutOfFuel.
Proof.
  intros Hm.
  destruct (exists_at w (bakedGameArchive cfg options)) eqn:Ex.
  { destruct (bakeGame_hit cfg fuel options w Ex) as (w' & _ & R). rewrite R. discriminate. }
  rewrite (bakeGame_miss cfg fuel options w Ex).
  apply ends_try_catch; [|intros e; apply unbounded_bakeFailed].
  assert (K0 : keeps (outside (bakedGameDir cfg options)) w (bakeStarted options w)).
  { apply quiet_keeps, bakeStarted_quiet. }
  revert K0. generalize (bakeStarted options w) as w0. intros w0 K0.
  unfold buildBakedGame.
  apply ends_bind; [apply unbounded_findBaseGame|]. intros base w1 R1.
  assert (K1 : keeps (outside (bakedGameDir cfg options)) w w1).
  { eapply keeps_trans; [exact K0|].
    pose proof (respects_findBaseGame (keeps (outside (bakedGameDir cfg options)))
                  (keeps_refl _) (keeps_trans _) (keeps_log _) cfg
                  (baseGameType options) (engineVersion options) w0) as K.
    now rewrite R1 in K. }
  apply ends_bind; [apply unbounded_extractArchive|]. intros [] w2 R2.
  assert (K2 : keeps (outside (bakedGameDir cfg options)) w w2).
  { eapply keeps_trans; [exact K1|].
    pose proof (keeping_extractArchive base (bakedGameDir cfg options) w1) as K.
    now rewrite R2 in K. }
  apply ends_bind.
  { apply (ends_for_each (keeps (outside (bakedGameDir cfg options)) w)); [exact K2|].
    intros m wi Im Ki. split.
    - apply ends_bind; [apply unbounded_log|]. intros [] wl Rl. inversion Rl; subst.
      unfold applyModDelta. apply ends_bind; [apply unbounded_log|].
      intros [] wm Rm. inversion Rm; subst.
      destruct (Hm m Im) as [A L].
      apply overlayDirectory_ends.
      + unfold bakedGameDir. now apply apart_app_r.
      + cbn [with_log root]. unfold levels in *.
        destruct Ki as (_ & _ & Ki). rewrite (Ki _ (outside_overlay cfg options _ A)).
        exact L.
    - eapply keeps_trans; [exact Ki|].
      apply (respects_bind (keeps (outside (bakedGameDir cfg options))) (keeps_trans _)).
      + apply respects_log. apply keeps_log.
      + intros _. apply keeping_applyModDelta. }
  intros [] w3 R3.
  apply ends_bind; [apply unbounded_createBakedGameModInfo|]. intros [] w4 R4.
  apply ends_bind; [apply unbounded_log|]. intros [] w5 R5. discriminate.
Qed.

(** * The files of the overlays in a bake, at every depth *)

Lemma fs_writeFile_Ok p c w w' :
  fs_writeFile p c w = (Ok tt, w') ->
  put (clock w) p (File (clock w) c) (root w) = Some (root w') /\
  writes w' = writes w ++ [WWriteFile p].
Proof.
  unfold fs_writeFile, guarded. destruct (failing w WriteFile p); [discriminate|].
  destruct (find p (root w)) as [[|]|]; try discriminate;
    (destruct (put (clock w) p (File (clock w) c) (root w)) eqn:P; [|discriminate];
     intros H; inversion H; subst; cbn; auto).
Qed.

Lemma log_Ok l s d w u w' : log l s d w = (Ok u, w') -> root w' = root w /\ writes w' = writes w.
Proof. unfold log. intros H. inversion H; subst. cbn. auto. Qed.

Lemma find_file_below p r n t c :
  find p n = Some (File t c) -> r <> [] -> find (p ++ r) n = None.
Proof.
  intros F N. rewrite find_app, F. destruct r; [congruence|reflexivity].
Qed.

Lemma listed_as_other e f ds :
  String.eqb (d_name e) f = false -> listed_as f (e :: ds) = listed_as f ds.
Proof. intros E. unfold listed_as. cbn [List.find]. now rewrite E. Qed.

Section OverlayCopies.
Variable recurse : path -> path -> M unit.
Hypothesis recurse_keeps :
  forall s d, keeping (fun q => apart d q = true) (recurse s d).
Hypothesis recurse_copies :
  forall s d w w' r t v, recurse s d w = (Ok tt, w') -> apart s d = true ->
    find (s ++ r) (root w) = Some (File t v) -> read_file (d ++ r) (root w') = Some v.

Lemma overlayLoop_copies s d x y r t v ds w w' :
  for_each ds (overlayEntry recurse s d) w = (Ok tt, w') -> apart s d = true ->
  find (s ++ x :: y :: r) (root w) = Some (File t v) ->
  read_file (d ++ x :: y :: r) (root w) = Some v \/ listed_as x ds = Some true ->
  read_file (d ++ x :: y :: r) (root w') = Some v.
Proof.
  revert w. induction ds as [|e ds IH]; intros w H A Src Done.
  - inversion H; subst. destruct Done as [Done|L]; [exact Done|discriminate].
  - apply for_each_Ok_inv in H. destruct H as (w1 & H1 & H2).
    pose proof (overlayEntry_source recurse recurse_keeps _ _ _ _ _ _ H1 A (x :: y :: r)) as Src1.
    apply (IH w1 H2 A); [congruence|].
    destruct (String.eqb (d_name e) x) eqn:Ex.
    + apply String.eqb_eq in Ex. left.
      unfold overlayEntry in H1. rewrite Ex in H1.
      destruct (d_isDirectory e) eqn:De.
      * apply bind_Ok_inv in H1. destruct H1 as ([] & w2 & H1 & H3).
        pose proof (fs_mkdir_Ok _ _ _ H1) as Mk.
        change (d ++ x :: y :: r) with (d ++ [x] ++ y :: r). rewrite app_assoc.
        apply (recurse_copies _ _ _ _ _ t _ H3).
        -- apply apart_app_l, apart_app_r. exact A.
        -- rewrite <- app_assoc. cbn [app].
           rewrite (mkdir_p_frame _ _ _ _ (s ++ x :: y :: r) Mk); [exact Src|].
           apply apart_not_prefix. apply apart_app_l. rewrite apart_sym.
           apply apart_app_l. exact A.
      * exfalso. apply bind_Ok_inv in H1. destruct H1 as ([] & w2 & H1 & _).
        apply fs_copyFile_Ok in H1. destruct H1 as (t0 & c0 & S0 & _).
        change (s ++ x :: y :: r) with (s ++ [x] ++ y :: r) in Src.
        rewrite app_assoc in Src.
        rewrite (find_file_below _ (y :: r) _ _ _ S0) in Src; discriminate.
    + destruct Done as [Done|L]; [left|right; now rewrite listed_as_other in L].
      pose proof (keeping_overlayEntry recurse s d e recurse_keeps w) as K.
      rewrite H1 in K. destruct K as (_ & _ & K). unfold read_file in *.
      rewrite K; [exact Done|]. apply apart_siblings.
      intros Eq. rewrite Eq, String.eqb_refl in Ex. discriminate.
Qed.
End OverlayCopies.

Lemma overlayDirectory_copies_files fuel :
  forall s d w w' r t v,
    overlayDirectory fuel s d w = (Ok tt, w') -> apart s d = true ->
    find (s ++ r) (root w) = Some (File t v) ->
    read_file (d ++ r) (root w') = Some v.
Proof.
  induction fuel as [|fuel IH]; intros s d w w' r t v H A Src; [discriminate|].
  destruct r as [|x [|y r]].
  - exfalso. cbn [overlayDirectory] in H. apply bind_Ok_inv in H.
    destruct H as (ds & w1 & H1 & _). apply fs_readdir_types_Ok in H1.
    destruct H1 as (_ & t0 & es & E & _). rewrite app_nil_r in Src. congruence.
  - eapply overlayDirectory_file; eauto.
  - cbn [overlayDirectory] in H. apply bind_Ok_inv in H.
    destruct H as (ds & w1 & H1 & H2).
    apply fs_readdir_types_Ok in H1. destruct H1 as (-> & t0 & es & E & ->).
    apply (overlayLoop_copies (overlayDirectory fuel) (keeping_overlayDirectory fuel) IH
             s d x y r t v (dirents es) w w' H2 A Src).
    right. change (s ++ x :: y :: r) with (s ++ [x] ++ y :: r) in Src.
    rewrite app_assoc, find_app, (find_child _ _ _ _ _ E) in Src.
    destruct (lookup_entry x es) as [c|] eqn:L; [|discriminate].
    rewrite (listed_as_dirents _ _ _ L). destruct c; [discriminate|reflexivity].
Qed.

Lemma fs_writeFile_not_dir p c w w' :
  fs_writeFile p c w = (Ok tt, w') -> forall t es, find p (root w) <> Some (Dir t es).
Proof.
  unfold fs_writeFile, guarded. destruct (failing w WriteFile p); [discriminate|].
  destruct (find p (root w)) as [[|]|]; try discriminate; intros; discriminate.
Qed.

Lemma createBakedGameModInfo_frame d b ms w w' r v :
  createBakedGameModInfo d b ms w = (Ok tt, w') ->
  r <> ["modinfo.lua"] ->
  read_file (d ++ r) (root w) = Some v ->
  read_file (d ++ r) (root w') = Some v.
Proof.
  intros H N Rd. unfold createBakedGameModInfo in H.
  apply bind_Ok_inv in H. destruct H as ([] & w1 & Hf & Hg).
  inversion Hg; subst. cbn [with_log root].
  destruct r as [|x r].
  { (* the directory itself is no file *)
    exfalso. unfold read_file in Rd. rewrite app_nil_r in Rd.
    apply fs_writeFile_Ok in Hf. destruct Hf as [P _].
    destruct (find d (root w)) as [[t c|]|] eqn:E; try discriminate.
    assert (X : find (d ++ ["modinfo.lua"]) (root w) = None)
      by (apply (find_file_below _ _ _ _ _ E); discriminate).
    clear Rd. revert P. generalize (File (clock w) (modInfoContent b ms)). intros new P.
    assert (G : forall n p x, find p n = Some (File t c) -> put (clock w) (p ++ [x]) new n = None).
    { clear. intros n p. revert n. induction p as [|y p IH]; intros n x F.
      - cbn in F. inversion F; subst. reflexivity.
      - destruct n as [|t0 es]; [reflexivity|]. cbn [find] in F. cbn [app put].
        destruct (lookup_entry y es) as [c0|] eqn:L; [|discriminate].
        rewrite (IH _ x F). destruct (p ++ [x]) eqn:Q; [destruct p; discriminate|reflexivity]. }
    rewrite (G _ _ _ E) in P. discriminate. }
  destruct (String.eqb x "modinfo.lua") eqn:Ex.
  - apply String.eqb_eq in Ex. subst x. destruct r as [|y r]; [congruence|].
    exfalso. unfold read_file in Rd.
    change (d ++ "modinfo.lua" :: y :: r) with (d ++ ["modinfo.lua"] ++ y :: r) in Rd.
    rewrite app_assoc, find_app in Rd.
    destruct (find (d ++ ["modinfo.lua"]) (root w)) as [[t c|t es]|] eqn:E; try discriminate.
    eapply fs_writeFile_not_dir; eauto.
  - pose proof (keeping_fs_writeFile
                  (fun q => apart (d ++ ["modinfo.lua"]) q = true)
                  (d ++ ["modinfo.lua"]) (modInfoContent b ms) (fun q Hq => Hq) w) as K.
    rewrite Hf in K. destruct K as (_ & _ & K). unfold read_file in *.
    rewrite K; [exact Rd|]. apply apart_siblings.
    intros Eq. rewrite <- Eq, String.eqb_refl in Ex. discriminate.
Qed.

(** In a bake that misses the cache and completes, the files of the last
    overlay are in the baked directory, the manifest at the top apart. *)
Lemma bakeGame_last_mod_files cfg fuel w base ev earlier last r t v res w' :
  let options := {| baseGameType := base; mods := earlier ++ [last]; engineVersion := ev |} in
  let src := resolve (process_cwd cfg) (installPath last) in
  r <> ["modinfo.lua"] ->
  apart src (bakedGamesDir cfg) = true ->
  find (src ++ r) (root w) = Some (File t v) ->
  exists_at w (bakedGameArchive cfg options) = false ->
  bakeGame cfg fuel options w = (Ok res, w') ->
  read_file (bakedGameDir cfg options ++ r) (root w') = Some v.
Proof.
  intros options src Nf A Src Miss Run.
  rewrite (bakeGame_miss _ _ _ _ Miss) in Run.
  apply try_catch_Ok_inv in Run.
  2:{ intros e w3. destruct (bakeFailed_run cfg options e w3) as (w4 & R & _).
      rewrite R. discriminate. }
  unfold buildBakedGame in Run.
  apply bind_Ok_inv in Run. destruct Run as (bp & w1 & H1 & Run).
  apply bind_Ok_inv in Run. destruct Run as ([] & w2 & H2 & Run).
  apply bind_Ok_inv in Run. destruct Run as ([] & w3 & H3 & Run).
  apply bind_Ok_inv in Run. destruct Run as ([] & w4 & H4 & Run).
  apply bind_Ok_inv in Run. destruct Run as ([] & w5 & H5 & Run).
  inversion Run; subst. inversion H5; subst. cbn [with_log root].
  assert (S1 : find (src ++ r) (root w1) = Some (File t v)).
  { pose proof (respects_findBaseGame quiet quiet_refl quiet_trans quiet_log cfg
                  base ev (bakeStarted options w)) as Q.
    cbn [baseGameType engineVersion options] in H1. rewrite H1 in Q.
    destruct Q as (Q & _). cbn [snd] in Q. now rewrite Q. }
  assert (S2 : find (src ++ r) (root w2) = Some (File t v)).
  { pose proof (keeping_extractArchive bp (bakedGameDir cfg options) w1) as K.
    rewrite H2 in K. destruct K as (_ & _ & K). rewrite K; [exact S1|].
    now apply outside_cache. }
  cbn [mods options] in H3.
  apply for_each_app_Ok_inv in H3. destruct H3 as (wa & Ha & Hb).
  assert (Sa : find (src ++ r) (root wa) = Some (File t v)).
  { pose proof (keeping_applyMods cfg fuel options earlier w2) as K.
    unfold applyMods in K. rewrite Ha in K. destruct K as (_ & _ & K).
    rewrite K; [exact S2|]. now apply outside_cache. }
  apply for_each_Ok_inv in Hb. destruct Hb as (wb & Hb & Hc).
  inversion Hc; subst.
  apply bind_Ok_inv in Hb. destruct Hb as ([] & wl & Hl & Hb).
  inversion Hl; subst.
  unfold applyModDelta in Hb.
  apply bind_Ok_inv in Hb. destruct Hb as ([] & wm & Hm & Hb).
  inversion Hm; subst.
  apply overlayDirectory_copies_files with (r := r) (t := t) (v := v) in Hb.
  - cbn [baseGameType mods options] in H4.
    eapply createBakedGameModInfo_frame; eauto.
  - unfold bakedGameDir. apply apart_app_r. exact A.
  - exact Sa.
Qed.

(** A bake that misses the cache and completes leaves the manifest that it
    generates. *)
Lemma bakeGame_manifest cfg fuel options w res w' :
  exists_at w (bakedGameArchive cfg options) = false ->
  bakeGame cfg fuel options w = (Ok res, w') ->
  read_file (bakedGameDir cfg options ++ ["modinfo.lua"]) (root w')
  = Some (modInfoContent (baseGameType options) (mods options)).
Proof.
  intros Miss Run. rewrite (bakeGame_miss _ _ _ _ Miss) in Run.
  apply try_catch_Ok_inv in Run.
  2:{ intros e w3. destruct (bakeFailed_run cfg options e w3) as (w4 & R & _).
      rewrite R. discriminate. }
  unfold buildBakedGame in Run.
  apply bind_Ok_inv in Run. destruct Run as (bp & w1 & _ & Run).
  apply bind_Ok_inv in Run. destruct Run as ([] & w2 & _ & Run).
  apply bind_Ok_inv in Run. destruct Run as ([] & w3 & _ & Run).
  apply bind_Ok_inv in Run. destruct Run as ([] & w4 & Hinfo & Run).
  apply bind_Ok_inv in Run. destruct Run as ([] & w5 & Hlog & Run).
  inversion Run; subst res w5. clear Run.
  apply log_Ok in Hlog. destruct Hlog as [R5 _].
  unfold createBakedGameModInfo in Hinfo.
  apply bind_Ok_inv in Hinfo. destruct Hinfo as ([] & w4' & Hwrite & Hlog).
  apply log_Ok in Hlog. destruct Hlog as [R4 _].
  apply fs_writeFile_Ok in Hwrite. destruct Hwrite as [P4 _].
  unfold read_file. rewrite R5, R4.
  pose proof (put_find_under _ _ _ _ _ [] P4) as K. rewrite app_nil_r in K.
  now rewrite K.
Qed.

(* ================================================================== *)
(** * The claims *)
(* ================================================================== *)

(** ** C1: a second call with the same options *)

(** C1, where the code departs from the claim: the cache check looks for
    the archive baked-<key>.sdd, which no bake creates (the build goes to
    the directory baked-<key>).  So after a first call that built the
    combination, a second call with identical options misses the cache
    again and, when it completes, has copied the base into the working
    directory once more. *)
Theorem bakeGame_second_call_rebuilds cfg fuel options w res w1 :
  exists_at w (bakedGameArchive cfg options) = false ->
  bakeGame cfg fuel options w = (Ok res, w1) ->
  exists_at w1 (bakedGameArchive cfg options) = false /\
  forall res2 w2,
    bakeGame cfg fuel options w1 = (Ok res2, w2) ->
    exists base done,
      writes w2 = writes w1 ++ WCp base (bakedGameDir cfg options) :: done.
Proof.
  intros Miss Run.
  assert (Miss1 : exists_at w1 (bakedGameArchive cfg options) = false).
  { pose proof (bakeGame_archive_unchanged cfg fuel options w) as K.
    rewrite Run in K. simpl in K. congruence. }
  split; [exact Miss1|]. intros res2 w2 Run2.
  rewrite (bakeGame_miss _ _ _ _ Miss1) in Run2.
  apply try_catch_Ok_inv in Run2.
  - apply buildBakedGame_copies in Run2. exact Run2.
  - intros e w3. destruct (bakeFailed_run cfg options e w3) as (w4 & R & _).
    rewrite R. discriminate.
Qed.

Lemma bakeGame_second_call_rebuilds_witness :
  let first := bakeGame Demo.cfg 4 (Demo.request [Demo.overlay1; Demo.overlay2]) Demo.fresh in
  let second := bakeGame Demo.cfg 4 (Demo.request [Demo.overlay1; Demo.overlay2]) (snd first) in
  exists base done,
    writes (snd second)
    = writes (snd first)
        ++ WCp base (bakedGameDir Demo.cfg (Demo.request [Demo.overlay1; Demo.overlay2])) :: done.
Proof.
  intros first second.
  destruct (fst second) as [res2| |] eqn:E2.
  - destruct (fst first) as [res1| |] eqn:E1.
    + refine (proj2 (bakeGame_second_call_rebuilds Demo.cfg 4
               (Demo.request [Demo.overlay1; Demo.overlay2]) Demo.fresh res1 (snd first) _ _)
               res2 (snd second) _).
      * vm_compute. reflexivity.
      * rewrite <- E1. apply surjective_pairing.
      * rewrite <- E2. apply surjective_pairing.
    + vm_compute in E1. discriminate.
    + vm_compute in E1. discriminate.
  - vm_compute in E2. discriminate.
  - vm_compute in E2. discriminate.
Defined.

(** ** C2: the fingerprint and the install paths *)

(** C2 as stated does not hold: two overlay lists that agree on short name
    and version and differ in the install path only get different keys. *)
Lemma fingerprint_ignores_installPath_counterexample :
  let a := [Demo.overlay1] in
  let b := [moved Demo.overlay1 "/elsewhere/patch1"] in
  map (fun m => (shortname m, version m)) a = map (fun m => (shortname m, version m)) b /\
  generateCombinationHash "demo" a "ev1" <> generateCombinationHash "demo" b "ev1".
Proof.
  split; [reflexivity|]. vm_compute. discriminate.
Qed.

(** C2, amended: the fingerprint is computed from the short name, the
    version and the install path of every overlay, in order.  Overlay lists
    that agree pointwise on these three fields get the same key, whatever
    their other fields; and the content that is digested determines the
    install paths, so that a list with another install path is digested
    from another content. *)
Theorem fingerprint_covers_installPath base ev ms1 ms2 :
  map identity ms1 = map identity ms2 ->
  generateCombinationHash base ms1 ev = generateCombinationHash base ms2 ev /\
  forall ms3,
    combinationContent base ms3 ev = combinationContent base ms1 ev ->
    map installPath ms3 = map installPath ms2.
Proof.
  intros E. split.
  - unfold generateCombinationHash. now rewrite (combinationContent_identity _ _ _ _ E).
  - intros ms3 C. apply combinationContent_inj in C. destruct C as (_ & _ & C).
    rewrite E in C.
    apply (f_equal (map (fun i : string * string * string => snd i))) in C.
    rewrite !map_map in C. exact C.
Qed.

Lemma fingerprint_covers_installPath_witness :
  generateCombinationHash "demo" [Demo.overlay1] "ev1"
  = generateCombinationHash "demo" [relabelled Demo.overlay1] "ev1".
Proof.
  exact (proj1 (fingerprint_covers_installPath "demo" "ev1"
                  [Demo.overlay1] [relabelled Demo.overlay1] eq_refl)).
Defined.

(** ** C3: the order of the overlays *)




(** ** C4: the fingerprint and the order *)

(** C4: for every base type and engine version and every two overlays A
    and B that differ in what identifies an overlay to the fingerprint
    (short name, version or install path), the canonical serialisations of
    [A, B] and of [B, A] differ, and so do the two keys, the truncated
    digest being free of a collision on these two contents. *)
Theorem fingerprint_order_sensitive base ev A B :
  identity A <> identity B ->
  (digest16 (combinationContent base [A; B] ev) = digest16 (combinationContent base [B; A] ev) ->
   combinationContent base [A; B] ev = combinationContent base [B; A] ev) ->
  combinationContent base [A; B] ev <> combinationContent base [B; A] ev /\
  generateCombinationHash base [A; B] ev <> generateCombinationHash base [B; A] ev.
Proof.
  intros N NoCollision.
  assert (D : combinationContent base [A; B] ev <> combinationContent base [B; A] ev).
  { intros C. apply combinationContent_inj in C. destruct C as (_ & _ & C).
    cbn [map] in C. apply N. congruence. }
  split; [exact D|]. unfold generateCombinationHash. intros C. exact (D (NoCollision C)).
Qed.

Lemma fingerprint_order_sensitive_witness :
  combinationContent "demo" [Demo.overlay1; Demo.overlay2] "ev1"
  <> combinationContent "demo" [Demo.overlay2; Demo.overlay1] "ev1" /\
  generateCombinationHash "demo" [Demo.overlay1; Demo.overlay2] "ev1"
  <> generateCombinationHash "demo" [Demo.overlay2; Demo.overlay1] "ev1".
Proof.
  refine (fingerprint_order_sensitive "demo" "ev1" Demo.overlay1 Demo.overlay2 _ _).
  - vm_compute. discriminate.
  - intros C. vm_compute in C. discriminate.
Defined.

(** ** C5: a bake that fails *)

(** C5: when a step of the build (from the resolution of the base to the
    writing of the manifest) throws, bakeGame throws the very same error,
    whatever happens during the cleanup, whose own failure is swallowed; a
    cache check for the key misses afterwards; and the working directory of
    the key is removed, the two calls of the cleanup on it being served. *)
Theorem bakeGame_failure_atomic cfg fuel options w e w1 :
  exists_at w (bakedGameArchive cfg options) = false ->
  buildBakedGame cfg fuel options (bakeStarted options w) = (Throw e, w1) ->
  exists w',
    bakeGame cfg fuel options w = (Throw e, w') /\
    exists_at w' (bakedGameArchive cfg options) = false /\
    (failing w Access (bakedGameDir cfg options) = false ->
     failing w Rm (bakedGameDir cfg options) = false ->
     find (bakedGameDir cfg options) (root w') = None).
Proof. apply bakeGame_throws. Qed.

Lemma bakeGame_failure_atomic_witness :
  exists w',
    bakeGame Demo.cfg 4 (Demo.request [Demo.overlay1; Demo.overlay2]) unreadable_source
    = (Throw (FsError "EIO" CopyFile ["mods"; "patch2"; "f"]), w') /\
    exists_at w' (bakedGameArchive Demo.cfg (Demo.request [Demo.overlay1; Demo.overlay2])) = false /\
    find (bakedGameDir Demo.cfg (Demo.request [Demo.overlay1; Demo.overlay2])) (root w') = None.
Proof.
  destruct (bakeGame_failure_atomic Demo.cfg 4 (Demo.request [Demo.overlay1; Demo.overlay2])
              unreadable_source (FsError "EIO" CopyFile ["mods"; "patch2"; "f"])
              (snd (buildBakedGame Demo.cfg 4 (Demo.request [Demo.overlay1; Demo.overlay2])
                      (bakeStarted (Demo.request [Demo.overlay1; Demo.overlay2])
                                   unreadable_source))))
    as (w' & R & M & G).
  - vm_compute. reflexivity.
  - vm_compute. reflexivity.
  - exists w'. split; [exact R|]. split; [exact M|]. apply G; vm_compute; reflexivity.
Defined.

(** ** C6: the resolution of the base *)

(** C6 as stated does not hold: the games folder of the data root is
    there as a regular file and the generic assets folder holds the entry
    demo.sdd, whose name contains the requested type and which passes
    isValidGameArchive; no call is rejected.  findBaseGame does not return
    this first valid candidate, nor does it fail with the error that names
    the base type: it fails with the error of readdir on the first folder. *)
Lemma findBaseGame_precedence_counterexample :
  let w := games_folder_is_a_file in
  let candidate := ["app"; "assets"; "games"; "demo.sdd"] in
  faults w = [] /\
  possiblePaths Demo.cfg "ev1"
  = [ ["data"; "games"]; ["app"; "assets"; "engine"; "ev1"; "games"]; ["app"; "assets"; "games"] ] /\
  fst (fs_readdir ["app"; "assets"; "games"] w) = Ok ["demo.sdd"] /\
  isCandidate "demo" "demo.sdd" = true /\
  fst (isValidGameArchive candidate w) = Ok true /\
  fst (findBaseGame Demo.cfg "demo" "ev1" w) = Throw (FsError "ENOTDIR" Readdir ["data"; "games"]) /\
  fst (findBaseGame Demo.cfg "demo" "ev1" w) <> Ok candidate /\
  fst (findBaseGame Demo.cfg "demo" "ev1" w) <> Throw (JsError "Base game not found for: demo").
Proof.
  vm_compute. repeat split; discriminate.
Qed.

(** C6, amended: findBaseGame searches the games folder of the data root,
    then the folder of the engine version, then the generic assets folder,
    in this order, a folder that is not there being skipped; within a
    folder it considers, in listing order, the entries whose name contains
    the requested type, byar or beyond, both taken to lower case, and it
    returns the first of them that is a valid game archive.  A search
    folder that is there but is not a directory ends the search with the
    error of readdir, whatever the later folders hold; when every folder
    was searched without a valid candidate the error names the base type.
    In both cases the bake fails with the same error and leaves no cache
    entry.  (No call is rejected by the environment.) *)
Theorem findBaseGame_precedence cfg g ev w :
  let searchOrder :=
    [ WRITE_DATA_PATH cfg ++ ["games"];
      join_path (join_path (process_cwd cfg ++ ["assets"; "engine"]) ev) "games";
      process_cwd cfg ++ ["assets"; "games"] ] in
  faults w = [] ->
  (exists w', quiet w w' /\
     findBaseGame cfg g ev w = (baseResolution (root w) g searchOrder, w')) /\
  (forall e,
     baseResolution (root w) g searchOrder = Throw e ->
     forall fuel ms,
       let options := {| baseGameType := g; mods := ms; engineVersion := ev |} in
       find (bakedGameArchive cfg options) (root w) = None ->
       exists w'',
         bakeGame cfg fuel options w = (Throw e, w'') /\
         find (bakedGameDir cfg options) (root w'') = None /\
         find (bakedGameArchive cfg options) (root w'') = None).
Proof.
  intros searchOrder F. split; [now apply findBaseGame_run|].
  intros e NF fuel ms options Miss.
  assert (Miss' : exists_at w (bakedGameArchive cfg options) = false).
  { unfold exists_at. rewrite Miss. apply andb_false_r. }
  destruct (findBaseGame_run cfg g ev (bakeStarted options w) F) as (w1 & Q1 & R1).
  change (root (bakeStarted options w)) with (root w) in R1.
  change (possiblePaths cfg ev) with searchOrder in R1. rewrite NF in R1.
  destruct (bakeGame_throws cfg fuel options w e w1 Miss') as (w2 & R2 & M2 & G2).
  { unfold buildBakedGame, bind. cbn [baseGameType engineVersion options]. now rewrite R1. }
  exists w2. split; [exact R2|]. split.
  - apply G2; now apply failing_nil.
  - pose proof (keeping_bakeGame cfg fuel options w) as K. rewrite R2 in K.
    destruct K as (_ & _ & K). cbn [snd] in K.
    rewrite (K _ (archive_outside cfg options)). exact Miss.
Qed.

Lemma findBaseGame_precedence_witness :
  fst (findBaseGame Demo.cfg "demo" "ev1" Demo.fresh) = Ok ["data"; "games"; "demo.sdd"] /\
  (exists w'',
    bakeGame Demo.cfg 4 {| baseGameType := "other"; mods := [Demo.overlay1];
                           engineVersion := "ev1" |}
             (Demo.world_with (Dir 0 []) 1000 [])
    = (Throw (JsError "Base game not found for: other"), w'')) /\
  exists w'',
    bakeGame Demo.cfg 4 (Demo.request [Demo.overlay1]) games_folder_is_a_file
    = (Throw (FsError "ENOTDIR" Readdir ["data"; "games"]), w'') /\
    find (bakedGameDir Demo.cfg (Demo.request [Demo.overlay1])) (root w'') = None.
Proof.
  split; [|split].
  - destruct (findBaseGame_precedence Demo.cfg "demo" "ev1" Demo.fresh eq_refl)
      as [(w' & _ & R) _].
    rewrite R. vm_compute. reflexivity.
  - destruct (findBaseGame_precedence Demo.cfg "other" "ev1"
                (Demo.world_with (Dir 0 []) 1000 []) eq_refl) as [_ B].
    destruct (B (JsError "Base game not found for: other") eq_refl 4 [Demo.overlay1] eq_refl)
      as (w'' & R & _).
    exists w''. exact R.
  - destruct (findBaseGame_precedence Demo.cfg "demo" "ev1" games_folder_is_a_file eq_refl)
      as [_ B].
    destruct (B (FsError "ENOTDIR" Readdir ["data"; "games"]) eq_refl 4 [Demo.overlay1] eq_refl)
      as (w'' & R & G & _).
    exists w''. split; [exact R|exact G].
Defined.

(** ** C7: the age at which the sweep evicts *)

(** C7: on a cache directory whose calls are not rejected, the sweep keeps
    every entry that is not older than maxAge (one that is exactly maxAge
    old included), removes every directory named baked-... that is older,
    and writes nothing when the directory is empty. *)
Theorem sweep_boundary cfg maxAge w t es :
  faults w = [] ->
  find (bakedGamesDir cfg) (root w) = Some (Dir t es) ->
  NoDup (map fst es) ->
  exists w',
    cleanupOldBakedGames cfg maxAge w = (Ok tt, w') /\
    (forall x c, In (x, c) es -> (clock w - node_mtime c = maxAge)%Z ->
                 find (bakedGamesDir cfg ++ [x]) (root w') = Some c) /\
    (forall x c, In (x, c) es -> eligible (clock w) maxAge (x, c) = false ->
                 find (bakedGamesDir cfg ++ [x]) (root w') = Some c) /\
    (forall x c, In (x, c) es ->
                 is_dir c = true -> startsWith x "baked-" = true ->
                 (clock w - node_mtime c > maxAge)%Z ->
                 find (bakedGamesDir cfg ++ [x]) (root w') = None) /\
    (es = [] -> root w' = root w /\ writes w' = writes w).
Proof.
  intros F E ND.
  destruct (sweep_loop cfg maxAge (clock w) es w ND (entries_in_place cfg w t es E ND))
    as (w' & R & C & Fa & W & Gone & Frame).
  { intros e _. split; now apply failing_nil. }
  exists w'. split.
  { unfold cleanupOldBakedGames, try_catch.
    rewrite (sweepBakedGames_listing cfg maxAge w t es) by (auto using failing_nil).
    now rewrite R. }
  assert (Kept : forall x c, In (x, c) es -> eligible (clock w) maxAge (x, c) = false ->
                             find (bakedGamesDir cfg ++ [x]) (root w') = Some c).
  { intros x c I NE. rewrite Frame.
    - exact (entries_in_place cfg w t es E ND (x, c) I).
    - intros [x' c'] I' El. cbn [fst]. apply apart_siblings. intros <-.
      assert (c' = c).
      { pose proof (lookup_entry_NoDup _ _ _ ND I) as L1.
        pose proof (lookup_entry_NoDup _ _ _ ND I') as L2. congruence. }
      subst c'. congruence. }
  split; [|split; [exact Kept|split]].
  - intros x c I Age. apply Kept; [exact I|]. unfold eligible. cbn [fst snd].
    assert (X : (clock w - node_mtime c >? maxAge)%Z = false)
      by (rewrite Z.gtb_ltb; apply Z.ltb_ge; lia).
    rewrite X. apply andb_false_r.
  - intros x c I D S Age. apply (Gone (x, c) I). unfold eligible. cbn [fst snd].
    rewrite D, S. cbn [andb]. apply Z.gtb_lt. lia.
  - intros ->. simpl in R. inversion R; subst. auto.
Qed.

Lemma sweep_boundary_witness :
  let w' := snd (cleanupOldBakedGames Demo.cfg 600 aged_cache) in
  find ["data"; "baked-games"; "baked-00"] (root w') = Some (Dir 400 []) /\
  find ["data"; "baked-games"; "baked-01"] (root w') = None.
Proof.
  destruct (sweep_boundary Demo.cfg 600 aged_cache 0
              [ ("baked-00", Dir 400 []); ("baked-01", Dir 399 []); ("notes.txt", File 0 "x") ]
              eq_refl eq_refl) as (w' & R & Edge & _ & Old & _).
  - repeat constructor; simpl; intuition discriminate.
  - rewrite R. cbn [snd]. split.
    + apply (Edge "baked-00" (Dir 400 [])); [now left|reflexivity].
    + apply (Old "baked-01" (Dir 399 [])); [right; now left|reflexivity|reflexivity|reflexivity].
Defined.

(** ** C8: a failure during the sweep *)

(** C8 as stated does not hold: the removal of the first of two old
    entries is rejected; the sweep returns normally, but the second entry,
    as old as the first and removable, was not visited and is still there. *)
Lemma sweep_continues_counterexample :
  let w' := snd (cleanupOldBakedGames Demo.cfg 600 stuck_entry) in
  fst (cleanupOldBakedGames Demo.cfg 600 stuck_entry) = Ok tt /\
  eligible (clock stuck_entry) 600 ("baked-01", Dir 0 []) = true /\
  failing stuck_entry Stat ["data"; "baked-games"; "baked-01"] = false /\
  failing stuck_entry Rm ["data"; "baked-games"; "baked-01"] = false /\
  find ["data"; "baked-games"; "baked-01"] (root w') = Some (Dir 0 []) /\
  writes w' = [].
Proof. vm_compute. repeat split. Qed.

(** C8, amended: no failure of the sweep reaches the caller, which always
    gets a normal return.  Whatever calls the environment rejects, when
    the sweep comes to an entry whose stat or whose removal is rejected,
    the entries listed before it having been served, the failure is logged
    as a warning and ends the sweep: the old entries listed before it are
    removed, and the entry itself and all those listed after it are not
    touched and stay in place, old enough or not. *)
Theorem sweep_failure_contained cfg maxAge w :
  (exists w', cleanupOldBakedGames cfg maxAge w = (Ok tt, w')) /\
  (forall t before e after err,
      find (bakedGamesDir cfg) (root w) = Some (Dir t (before ++ e :: after)) ->
      NoDup (map fst (before ++ e :: after)) ->
      failing w Access (bakedGamesDir cfg) = false ->
      failing w Readdir (bakedGamesDir cfg) = false ->
      (forall b, In b before -> sweepRejection cfg maxAge (clock w) w b = None) ->
      sweepRejection cfg maxAge (clock w) w e = Some err ->
      exists w',
        cleanupOldBakedGames cfg maxAge w = (Ok tt, w') /\
        (exists earlier, logs w' = earlier ++ [sweepWarning err]) /\
        writes w' = writes w
                    ++ map (fun b => WRm (bakedGamesDir cfg ++ [fst b]))
                           (filter (eligible (clock w) maxAge) before) /\
        (forall b, In b before -> eligible (clock w) maxAge b = true ->
                   find (bakedGamesDir cfg ++ [fst b]) (root w') = None) /\
        (forall e', In e' (e :: after) ->
                    find (bakedGamesDir cfg ++ [fst e']) (root w') = Some (snd e'))).
Proof.
  split; [apply cleanupOldBakedGames_returns|].
  intros t before e after err E ND FA FR Served Rejected.
  pose proof (entries_in_place cfg w t _ E ND) as Here.
  rewrite map_app in ND.
  assert (Apart : forall b e', In b before -> In e' (e :: after) -> fst b <> fst e').
  { intros b e' Ib Ie Eq. apply (NoDup_app_apart _ _ ND (fst b)).
    - now apply in_map.
    - rewrite Eq. now apply in_map. }
  destruct (sweep_loop_served cfg maxAge (clock w) before w)
    as (w1 & R1 & C1 & F1 & W1 & Gone1 & Frame1).
  { now apply NoDup_app_remove_r in ND. }
  { intros b Ib. apply Here. apply in_or_app. now left. }
  { exact Served. }
  assert (Still : forall e', In e' (e :: after) ->
                             find (bakedGamesDir cfg ++ [fst e']) (root w1) = Some (snd e')).
  { intros e' Ie. rewrite Frame1.
    - apply Here. apply in_or_app. now right.
    - intros b Ib _. apply apart_siblings. now apply Apart. }
  assert (Rej : sweepEntry cfg maxAge (clock w)
                  {| d_name := fst e; d_isDirectory := is_dir (snd e) |} w1
                = (Throw err, w1)).
  { apply sweepEntry_stops.
    - apply Still. now left.
    - now rewrite (sweepRejection_faults cfg maxAge (clock w) w w1 e F1). }
  eexists. split; [|split; [|split; [|split]]].
  - unfold cleanupOldBakedGames, try_catch.
    rewrite (sweepBakedGames_listing cfg maxAge w t (before ++ e :: after) FA FR E).
    unfold dirents. rewrite map_app. cbn [map].
    rewrite (for_each_app_throw _ _ _ _ _ _ _ _ R1 Rej). reflexivity.
  - exists (logs w1). reflexivity.
  - exact W1.
  - exact Gone1.
  - exact Still.
Qed.

Lemma sweep_failure_contained_witness :
  (exists w',
    cleanupOldBakedGames Demo.cfg 600 stuck_entry = (Ok tt, w') /\
    find ["data"; "baked-games"; "baked-01"] (root w') = Some (Dir 0 [])) /\
  (exists w',
    cleanupOldBakedGames Demo.cfg 600 unreadable_entry = (Ok tt, w') /\
    writes w' = [WRm ["data"; "baked-games"; "baked-00"]] /\
    find ["data"; "baked-games"; "baked-00"] (root w') = None /\
    find ["data"; "baked-games"; "baked-01"] (root w') = Some (Dir 0 []) /\
    find ["data"; "baked-games"; "baked-02"] (root w') = Some (Dir 0 [])).
Proof.
  split.
  - destruct (proj2 (sweep_failure_contained Demo.cfg 600 stuck_entry)
                0%Z [] ("baked-00", Dir 0 []) [("baked-01", Dir 0 [])]
                (FsError "EIO" Rm ["data"; "baked-games"; "baked-00"]) eq_refl)
      as (w' & R & _ & _ & _ & Still).
    + repeat constructor; simpl; intuition discriminate.
    + reflexivity.
    + reflexivity.
    + intros b [].
    + reflexivity.
    + exists w'. split; [exact R|]. apply (Still ("baked-01", Dir 0 [])). right. now left.
  - destruct (proj2 (sweep_failure_contained Demo.cfg 600 unreadable_entry)
                0%Z [("baked-00", Dir 0 [])] ("baked-01", Dir 0 []) [("baked-02", Dir 0 [])]
                (FsError "EIO" Stat ["data"; "baked-games"; "baked-01"]) eq_refl)
      as (w' & R & _ & W & Gone & Still).
    + repeat constructor; simpl; intuition discriminate.
    + reflexivity.
    + reflexivity.
    + intros b [<-|[]]. reflexivity.
    + reflexivity.
    + exists w'. split; [exact R|]. split; [exact W|]. split; [|split].
      * apply (Gone ("baked-00", Dir 0 [])); [now left|reflexivity].
      * apply (Still ("baked-01", Dir 0 [])). now left.
      * apply (Still ("baked-02", Dir 0 [])). right. now left.
Defined.

(** ** C9: valid game archives *)

(** C9 as stated does not hold: a directory that contains modinfo.lua and
    whose name does not end in .sdd is not a valid game archive. *)
Lemma isValidGameArchive_counterexample :
  find ["plain"; "modinfo.lua"] (root plain_directory) = Some (File 0 "return {}") /\
  isValidGameArchive ["plain"] plain_directory = (Ok false, plain_directory).
Proof. vm_compute. split; reflexivity. Qed.

(** C9, amended: isValidGameArchive never throws and leaves the world as
    it is.  For a directory whose path ends in .sdd it answers whether the
    directory contains modinfo.lua (true with it, false for the same
    directory without it); for a file with the extension .sdz or .sd7 it
    answers true without looking inside; for a directory whose path does not
    end in .sdd it answers false; and for a path that cannot be statted it
    answers false. *)
Theorem isValidGameArchive_cases p w :
  (exists b, isValidGameArchive p w = (Ok b, w)) /\
  (forall t es,
      find p (root w) = Some (Dir t es) -> path_endsWith p ".sdd" = true ->
      failing w Stat p = false -> failing w Access (p ++ ["modinfo.lua"]) = false ->
      fst (isValidGameArchive p w) = Ok (present (lookup_entry "modinfo.lua" es))) /\
  (forall t c,
      find p (root w) = Some (File t c) ->
      path_endsWith p ".sdz" = true \/ path_endsWith p ".sd7" = true ->
      failing w Stat p = false ->
      fst (isValidGameArchive p w) = Ok true) /\
  (forall t es,
      find p (root w) = Some (Dir t es) -> path_endsWith p ".sdd" = false ->
      fst (isValidGameArchive p w) = Ok false) /\
  (find p (root w) = None \/ failing w Stat p = true ->
      fst (isValidGameArchive p w) = Ok false).
Proof.
  rewrite isValidGameArchive_run. cbn [fst]. unfold valid_at.
  split; [eauto|]. split; [|split; [|split]].
  - intros t es E X FS FA. rewrite FS, E. cbn [is_dir andb]. rewrite X.
    unfold exists_at. rewrite FA, find_app, E. cbn [find negb andb].
    destruct (lookup_entry "modinfo.lua" es); reflexivity.
  - intros t c E X FS. rewrite FS, E. cbn [is_dir andb negb].
    destruct X as [X|X]; rewrite X; [reflexivity|].
    now rewrite orb_true_r.
  - intros t es E X. rewrite E. cbn [is_dir andb negb]. rewrite X.
    now destruct (failing w Stat p).
  - intros [E|F].
    + rewrite E. now destruct (failing w Stat p).
    + now rewrite F.
Qed.

(** ** C10: what an overlay leaves alone *)

(** C10 as stated does not hold when srcDir lies inside destDir: the
    overlay of [/a/b] onto [/a] first copies [/a/b/b/b/d/x] to
    [/a/b/b/d/x], and then, reading [/a/b/b/d] again, copies that file over
    [/a/b/d/x], a file of the destination whose relative path [b/d/x] did
    not occur below the source before the call. *)
Lemma overlayDirectory_frame_counterexample :
  let run := overlayDirectory 8 ["a"; "b"] ["a"] nested in
  fst run = Ok tt /\
  find (["a"; "b"] ++ ["b"; "d"; "x"]) (root nested) = None /\
  find (["a"] ++ ["b"; "d"; "x"]) (root nested) = Some (File 0 "old") /\
  find (["a"] ++ ["b"; "d"; "x"]) (root (snd run)) = Some (File 5 "new") /\
  writes (snd run)
  = [ WMkdir ["a"; "b"]; WMkdir ["a"; "b"; "b"]; WMkdir ["a"; "b"; "b"; "d"];
      WCopyFile ["a"; "b"; "b"; "b"; "d"; "x"] ["a"; "b"; "b"; "d"; "x"];
      WMkdir ["a"; "b"; "d"];
      WCopyFile ["a"; "b"; "b"; "d"; "x"] ["a"; "b"; "d"; "x"];
      WMkdir ["a"; "d"];
      WCopyFile ["a"; "b"; "d"; "x"] ["a"; "d"; "x"] ].
Proof. vm_compute. repeat split. Qed.

(** C10, amended: a successful overlayDirectory(srcDir, destDir) whose two
    directories do not overlap (neither lies inside the other) deletes and
    renames nothing: every path below destDir whose relative path does not
    occur below srcDir holds exactly what it held before the call, and so
    does every path outside destDir. *)
Theorem overlayDirectory_frame fuel srcDir destDir w w' :
  overlayDirectory fuel srcDir destDir w = (Ok tt, w') ->
  apart srcDir destDir = true ->
  (forall r, find (srcDir ++ r) (root w) = None ->
             find (destDir ++ r) (root w') = find (destDir ++ r) (root w)) /\
  (forall q, apart destDir q = true -> find q (root w') = find q (root w)).
Proof.
  intros H A. split.
  - now apply (overlayDirectory_leaves_unnamed fuel srcDir destDir w w').
  - now apply (overlayDirectory_keeps_outside fuel srcDir destDir w (Ok tt) w').
Qed.

Lemma overlayDirectory_frame_witness :
  let w' := snd (overlayDirectory 3 ["mods"; "patch1"] ["data"; "games"; "demo.sdd"] Demo.fresh) in
  find ["data"; "games"; "demo.sdd"; "modinfo.lua"] (root w')
  = find ["data"; "games"; "demo.sdd"; "modinfo.lua"] (root Demo.fresh).
Proof.
  intros w'.
  refine (proj1 (overlayDirectory_frame 3 ["mods"; "patch1"] ["data"; "games"; "demo.sdd"]
                   Demo.fresh w' _ _) ["modinfo.lua"] _).
  - vm_compute. reflexivity.
  - reflexivity.
  - reflexivity.
Defined.

(* ================================================================== *)
(** * Further properties of the code *)
(* ================================================================== *)

(** ** The constructor *)

Lemma mkdir_p_existing now p : forall n t es,
  find p n = Some (Dir t es) -> mkdir_p now p n = Some n.
Proof.
  induction p as [|x p IH]; intros n t es H.
  - cbn in H. inversion H; subst. reflexivity.
  - destruct n as [|t0 es0]; [discriminate|]. cbn [find] in H. cbn [mkdir_p].
    destruct (lookup_entry x es0) as [c|] eqn:L; [|discriminate].
    rewrite (IH _ _ _ H). now rewrite (set_entry_same _ _ _ L).
Qed.

Lemma mkdir_p_succeeds now p : forall n,
  (forall q t c, is_prefix q p = true -> find q n <> Some (File t c)) ->
  exists n', mkdir_p now p n = Some n'.
Proof.
  induction p as [|x p IH]; intros n H.
  - destruct n as [t c|t es]; [exfalso; now apply (H [] t c)|]. cbn. eauto.
  - destruct n as [t c|t es]; [exfalso; now apply (H [] t c)|]. cbn [mkdir_p].
    destruct (lookup_entry x es) as [c|] eqn:L.
    + destruct (IH c) as (c' & E).
      { intros q t' c' P F. apply (H (x :: q) t' c').
        - cbn. now rewrite String.eqb_refl.
        - cbn. now rewrite L. }
      rewrite E. eauto.
    + destruct (IH (Dir now [])) as (c' & E).
      { intros [|y q] t' c' _; cbn; discriminate. }
      rewrite E. eauto.
Qed.

Lemma mkdir_p_blocked now p : forall n q t c,
  is_prefix q p = true -> find q n = Some (File t c) -> mkdir_p now p n = None.
Proof.
  induction p as [|x p IH]; intros n q t c P F.
  - destruct q; [|discriminate]. cbn in F. inversion F; subst. reflexivity.
  - destruct q as [|y q].
    + cbn in F. inversion F; subst. reflexivity.
    + cbn in P. apply andb_true_iff in P. destruct P as [E P].
      apply String.eqb_eq in E. subst y.
      destruct n as [|t0 es]; [reflexivity|]. cbn [find] in F. cbn [mkdir_p].
      destruct (lookup_entry x es) as [c0|]; [|discriminate].
      now rewrite (IH _ _ _ _ P F).
Qed.

(** X1: The constructor never throws.  It leaves every path that is not an
    ancestor of the cache directory as it was, and the whole tree when the
    cache directory exists already; when the call is not rejected and no
    file stands on the way, the cache directory exists afterwards; when the
    call is rejected or a file stands on the way, the tree is unchanged and
    the failure is logged as an error. *)
Theorem ensureBakedGamesDirSync_creates cfg w :
  exists w',
    ensureBakedGamesDirSync cfg w = (Ok tt, w') /\
    (forall q, is_prefix q (bakedGamesDir cfg) = false -> find q (root w') = find q (root w)) /\
    (forall t es, find (bakedGamesDir cfg) (root w) = Some (Dir t es) -> root w' = root w) /\
    (failing w Mkdir (bakedGamesDir cfg) = false ->
     (forall q t c, is_prefix q (bakedGamesDir cfg) = true -> find q (root w) <> Some (File t c)) ->
     exists t es, find (bakedGamesDir cfg) (root w') = Some (Dir t es)) /\
    (failing w Mkdir (bakedGamesDir cfg) = true \/
     (exists q t c, is_prefix q (bakedGamesDir cfg) = true /\ find q (root w) = Some (File t c)) ->
     root w' = root w /\
     exists e, logs w' = logs w ++ [{| log_level := LError;
                                       log_message := "Failed to create baked games directory:";
                                       log_detail := Some e |}]).
Proof.
  unfold ensureBakedGamesDirSync, try_catch, fs_mkdir, guarded, rejected, throw, log_error, log.
  set (d := bakedGamesDir cfg).
  destruct (failing w Mkdir d) eqn:Fl.
  - eexists. split; [reflexivity|]. cbn [root with_log logs].
    split; [intros; reflexivity|]. split; [intros; reflexivity|]. split; [discriminate|].
    intros _. split; [reflexivity|eauto].
  - destruct (mkdir_p (clock w) d (root w)) as [r|] eqn:Mk.
    + eexists. split; [reflexivity|]. cbn [root with_root]. split; [|split; [|split]].
      * intros q Hq. eapply mkdir_p_frame; eauto.
      * intros t es F. rewrite (mkdir_p_existing _ _ _ _ _ F) in Mk. congruence.
      * intros _ _. eapply mkdir_p_find; eauto.
      * intros [X|(q & t & c & P & F)]; [discriminate|].
        rewrite (mkdir_p_blocked _ _ _ _ _ _ P F) in Mk. discriminate.
    + eexists. split; [reflexivity|]. cbn [root with_log logs].
      split; [intros; reflexivity|]. split; [intros; reflexivity|]. split.
      * intros _ H. destruct (mkdir_p_succeeds (clock w) d (root w) H) as (n' & E). congruence.
      * intros _. split; [reflexivity|eauto].
Qed.

(** ** The shape of the fingerprint *)

Lemma all_chars_app p (s t : string) :
  all_chars p (s ++ t)%string = all_chars p s && all_chars p t.
Proof. induction s as [|c s IH]; cbn; [reflexivity|]. now rewrite IH, andb_assoc. Qed.

Lemma length_app_string (s t : string) :
  String.length (s ++ t)%string = String.length s + String.length t.
Proof. induction s as [|c s IH]; cbn; [reflexivity|]. now rewrite IH. Qed.

Lemma substring_0_length n : forall s,
  String.length (substring 0 n s) = Nat.min n (String.length s).
Proof.
  induction n as [|n IH]; intros [|c s]; cbn; try reflexivity. now rewrite IH.
Qed.

Lemma substring_0_all_chars p n : forall s,
  all_chars p s = true -> all_chars p (substring 0 n s) = true.
Proof.
  induction n as [|n IH]; intros [|c s]; cbn; try reflexivity.
  intros H. apply andb_true_iff in H. destruct H as [H1 H2].
  rewrite H1. cbn. now apply IH.
Qed.

Lemma hex_digit_lower d : (0 <= d < 16)%Z -> is_lower_hex (Sha256.hex_digit d) = true.
Proof.
  intros H. assert (E : exists n, n < 16 /\ d = Z.of_nat n).
  { exists (Z.to_nat d). split; lia. }
  destruct E as (n & Hn & ->).
  do 16 (destruct n as [|n]; [vm_compute; reflexivity|]). lia.
Qed.

Lemma hex_byte_shape b :
  (0 <= b < 256)%Z ->
  String.length (Sha256.hex_byte b) = 2 /\ all_chars is_lower_hex (Sha256.hex_byte b) = true.
Proof.
  intros H. split; [reflexivity|]. unfold Sha256.hex_byte. cbn [all_chars].
  rewrite !hex_digit_lower; [reflexivity| |].
  - change 15%Z with (Z.ones 4). rewrite Z.land_ones by lia.
    pose proof (Z.mod_pos_bound b (2 ^ 4)); lia.
  - rewrite Z.shiftr_div_pow2 by lia. split.
    + apply Z.div_pos; lia.
    + apply Z.div_lt_upper_bound; lia.
Qed.

Lemma be_bytes_shape count x :
  length (Sha256.be_bytes count x) = count /\
  Forall (fun b => 0 <= b < 256)%Z (Sha256.be_bytes count x).
Proof.
  unfold Sha256.be_bytes. split.
  - now rewrite length_map, length_rev, length_seq.
  - apply Forall_forall. intros b Hb. apply in_map_iff in Hb. destruct Hb as (i & <- & _).
    change 255%Z with (Z.ones 8). rewrite Z.land_ones by lia.
    pose proof (Z.mod_pos_bound (Z.shiftr x (8 * Z.of_nat i)) (2 ^ 8)); lia.
Qed.

Lemma hex_bytes_shape bs :
  Forall (fun b => 0 <= b < 256)%Z bs ->
  String.length (String.concat "" (map Sha256.hex_byte bs)) = 2 * length bs /\
  all_chars is_lower_hex (String.concat "" (map Sha256.hex_byte bs)) = true.
Proof.
  induction 1 as [|b bs Hb _ IH]; [split; reflexivity|].
  destruct IH as [IH1 IH2]. destruct (hex_byte_shape b Hb) as [L C].
  assert (E : String.concat "" (map Sha256.hex_byte (b :: bs))
              = (Sha256.hex_byte b ++ String.concat "" (map Sha256.hex_byte bs))%string).
  { cbn [map String.concat]. destruct (map Sha256.hex_byte bs) eqn:M; [|reflexivity].
    reflexivity. }
  rewrite E, length_app_string, all_chars_app, L, C, IH1, IH2. cbn [length]. split; [lia|reflexivity].
Qed.

Lemma compress_length h block : length h = 8 -> length (Sha256.compress h block) = 8.
Proof.
  intros H. unfold Sha256.compress. rewrite length_map, length_combine, H. reflexivity.
Qed.

Lemma digest_words_length msg : length (Sha256.digest_words msg) = 8.
Proof.
  unfold Sha256.digest_words.
  generalize (Sha256.blocks_of_words
                (length (Sha256.words_of_bytes (length (Sha256.pad msg)) (Sha256.pad msg)))
                (Sha256.words_of_bytes (length (Sha256.pad msg)) (Sha256.pad msg))).
  intros blocks. assert (H : length Sha256.H0 = 8) by reflexivity. revert H.
  generalize Sha256.H0. induction blocks as [|b bs IH]; intros h H; cbn; [exact H|].
  apply IH. now apply compress_length.
Qed.

Lemma hexdigest_shape s :
  String.length (Sha256.hexdigest s) = 64 /\
  all_chars is_lower_hex (Sha256.hexdigest s) = true.
Proof.
  unfold Sha256.hexdigest.
  pose proof (digest_words_length (Sha256.bytes_of_string s)) as L.
  set (ws := Sha256.digest_words (Sha256.bytes_of_string s)) in *.
  assert (B : length (flat_map (Sha256.be_bytes 4) ws) = 4 * length ws /\
              Forall (fun b => 0 <= b < 256)%Z (flat_map (Sha256.be_bytes 4) ws)).
  { clear L. induction ws as [|x ws [I1 I2]]; [split; [reflexivity|constructor]|].
    cbn [flat_map]. destruct (be_bytes_shape 4 x) as [B1 B2]. split.
    - rewrite length_app, B1, I1. cbn [length]. lia.
    - apply Forall_app. split; assumption. }
  destruct B as [B1 B2]. destruct (hex_bytes_shape _ B2) as [H1 H2].
  split; [|exact H2]. rewrite H1, B1, L. reflexivity.
Qed.

(** X2: The fingerprint of a combination is always a word of sixteen lower-case
    hexadecimal digits, whatever the base type, the overlays and the engine
    version are; so the name baked-<key> of the working directory has 22
    characters, none of them a path separator, and is one component below
    the cache directory. *)
Theorem generateCombinationHash_shape base ms ev :
  String.length (generateCombinationHash base ms ev) = 16 /\
  all_chars is_lower_hex (generateCombinationHash base ms ev) = true /\
  String.length (bakedGameName {| baseGameType := base; mods := ms;
                                  engineVersion := ev |}) = 22 /\
  includes (bakedGameName {| baseGameType := base; mods := ms;
                             engineVersion := ev |}) "/" = false.
Proof.
  unfold bakedGameName, generateCombinationHash, digest16.
  cbn [baseGameType mods engineVersion].
  destruct (hexdigest_shape (combinationContent base ms ev)) as [L C].
  revert L C. generalize (Sha256.hexdigest (combinationContent base ms ev)).
  intros h L C.
  assert (L16 : String.length (substring 0 16 h) = 16).
  { rewrite substring_0_length, L. reflexivity. }
  assert (C16 : all_chars is_lower_hex (substring 0 16 h) = true).
  { now apply substring_0_all_chars. }
  revert L16 C16. generalize (substring 0 16 h). clear h L C. intros key L16 C16.
  repeat split; auto.
  - rewrite length_app_string, L16. reflexivity.
  - assert (G : forall s, all_chars is_lower_hex s = true -> includes s "/" = false).
    { induction s as [|c s IH]; [reflexivity|]. intros H. cbn [all_chars] in H.
      apply andb_true_iff in H. destruct H as [H1 H2].
      cbn [includes String.prefix]. rewrite (IH H2), orb_false_r.
      destruct (Ascii.ascii_dec "/" c) as [<-|]; [vm_compute in H1; discriminate|reflexivity]. }
    change (includes ("baked-" ++ key)%string "/") with (includes key "/"). now apply G.
Qed.

(** ** What a bake leaves alone *)

(** X5: Whatever its outcome, a call of bakeGame leaves every path that is not
    on the branch of its working directory baked-<key> as it was: the base
    games, the sources of the overlays and the other entries of the cache
    are never modified. *)
Theorem bakeGame_writes_below_its_directory cfg fuel options w q :
  apart (bakedGameDir cfg options) q = true ->
  find q (root (snd (bakeGame cfg fuel options w))) = find q (root w).
Proof.
  intros Hq. destruct (keeping_bakeGame cfg fuel options w) as (_ & _ & K).
  apply K. exact Hq.
Qed.

Lemma bakeGame_writes_below_its_directory_witness :
  find ["mods"; "patch2"] (root (snd (bakeGame Demo.cfg 4
                               (Demo.request [Demo.overlay1; Demo.overlay2]) Demo.fresh)))
  = find ["mods"; "patch2"] (root Demo.fresh).
Proof.
  apply (bakeGame_writes_below_its_directory Demo.cfg 4
           (Demo.request [Demo.overlay1; Demo.overlay2]) Demo.fresh ["mods"; "patch2"]).
  vm_compute. reflexivity.
Defined.

(** X3: When the path baked-<key>.sdd holds anything at all, a file or a
    directory of any content, and the access to it is not rejected,
    bakeGame returns the descriptor of the combination at once: it looks
    for no base, writes nothing and leaves the tree as it is. *)
Theorem bakeGame_cache_hit cfg fuel options w n :
  find (bakedGameArchive cfg options) (root w) = Some n ->
  failing w Access (bakedGameArchive cfg options) = false ->
  exists w',
    bakeGame cfg fuel options w = (Ok (bakedResult cfg options), w') /\
    root w' = root w /\ writes w' = writes w /\
    map log_message (logs w')
    = map log_message (logs w)
      ++ [startingMessage options;
          ("✅ Found existing baked game: " ++ bakedGameName options)%string].
Proof.
  intros F A.
  assert (Hit : exists_at w (bakedGameArchive cfg options) = true).
  { unfold exists_at. rewrite A, F. reflexivity. }
  unfold bakeGame. unfold bind at 1. unfold log_info at 1, log at 1.
  unfold bind at 1. rewrite fileExists_run, exists_at_with_log, Hit.
  unfold bind at 1, log_info, log, ret.
  eexists. split; [reflexivity|]. cbn [root writes logs with_log].
  split; [reflexivity|]. split; [reflexivity|].
  rewrite !map_app. cbn [map log_message]. rewrite <- app_assoc. reflexivity.
Qed.

Lemma bakeGame_cache_hit_witness :
  exists w',
    bakeGame Demo.cfg 4 (Demo.request [Demo.overlay1]) cached_file
    = (Ok (bakedResult Demo.cfg (Demo.request [Demo.overlay1])), w') /\
    root w' = root cached_file /\ writes w' = writes cached_file.
Proof.
  destruct (bakeGame_cache_hit Demo.cfg 4 (Demo.request [Demo.overlay1]) cached_file (File 0 ""))
    as (w' & R & A & B & _).
  - vm_compute. reflexivity.
  - vm_compute. reflexivity.
  - exists w'. auto.
Defined.

(** ** What a completed bake has built *)

Lemma find_parent_dir d x n c :
  find (d ++ [x]) n = Some c -> exists t es, find d n = Some (Dir t es).
Proof.
  rewrite find_app. destruct (find d n) as [[t s|t es]|]; try discriminate; eauto.
Qed.

Lemma extending_applyMods cfg fuel options ms : extending (applyMods cfg fuel options ms).
Proof.
  apply respects_for_each; eauto with service. intros m _.
  apply respects_bind; eauto with service.
  - apply respects_log; eauto with service.
  - intros _. apply extending_applyModDelta.
Qed.

(** X4: A bake that misses the cache and completes returns the descriptor of
    the combination, has left in its working directory the manifest
    modinfo.lua that it generates (whatever the base and the overlays hold
    under that name), and has written in this order: one recursive copy of
    a base that is a directory, the overlays, the manifest. *)
Theorem bakeGame_builds cfg fuel options w res w' :
  exists_at w (bakedGameArchive cfg options) = false ->
  bakeGame cfg fuel options w = (Ok res, w') ->
  res = bakedResult cfg options /\
  read_file (bakedGameDir cfg options ++ ["modinfo.lua"]) (root w')
  = Some (modInfoContent (baseGameType options) (mods options)) /\
  (exists t es, find (bakedGameDir cfg options) (root w') = Some (Dir t es)) /\
  exists base overlaid,
    (exists t es, find base (root w) = Some (Dir t es)) /\
    writes w' = writes w ++ [WCp base (bakedGameDir cfg options)] ++ overlaid
                ++ [WWriteFile (bakedGameDir cfg options ++ ["modinfo.lua"])].
Proof.
  intros Miss Run. rewrite (bakeGame_miss _ _ _ _ Miss) in Run.
  apply try_catch_Ok_inv in Run.
  2:{ intros e w3. destruct (bakeFailed_run cfg options e w3) as (w4 & R & _).
      rewrite R. discriminate. }
  unfold buildBakedGame in Run.
  apply bind_Ok_inv in Run. destruct Run as (base & w1 & Hbase & Run).
  apply bind_Ok_inv in Run. destruct Run as ([] & w2 & Hcp & Run).
  apply bind_Ok_inv in Run. destruct Run as ([] & w3 & Hmods & Run).
  apply bind_Ok_inv in Run. destruct Run as ([] & w4 & Hinfo & Run).
  apply bind_Ok_inv in Run. destruct Run as ([] & w5 & Hlog & Run).
  inversion Run; subst res w5. clear Run.
  apply log_Ok in Hlog. destruct Hlog as [R5 W5].
  unfold createBakedGameModInfo in Hinfo.
  apply bind_Ok_inv in Hinfo. destruct Hinfo as ([] & w4' & Hwrite & Hlog).
  apply log_Ok in Hlog. destruct Hlog as [R4 W4].
  apply fs_writeFile_Ok in Hwrite. destruct Hwrite as [P4 Wr4].
  assert (F : find (bakedGameDir cfg options ++ ["modinfo.lua"]) (root w')
              = Some (File (clock w3) (modInfoContent (baseGameType options) (mods options)))).
  { rewrite R5, R4. pose proof (put_find_under _ _ _ _ _ [] P4) as K.
    rewrite app_nil_r in K. exact K. }
  split; [reflexivity|]. split; [unfold read_file; now rewrite F|].
  split; [eapply find_parent_dir; exact F|].
  pose proof (respects_findBaseGame quiet quiet_refl quiet_trans quiet_log
                cfg (baseGameType options) (engineVersion options) (bakeStarted options w)) as Q1.
  rewrite Hbase in Q1. cbn [snd] in Q1. destruct Q1 as (Rt1 & Wr1 & _).
  destruct (bakeStarted_quiet options w) as (Rt0 & Wr0 & _).
  apply extractArchive_Ok in Hcp. destruct Hcp as (Wr2 & n & Fn & Dn).
  pose proof (extending_applyMods cfg fuel options (mods options) w2) as E3.
  unfold applyMods in E3. rewrite Hmods in E3. cbn [snd] in E3. destruct E3 as (overlaid & Wr3).
  exists base, overlaid. split.
  - rewrite Rt1, Rt0 in Fn. destruct n as [|t es]; [discriminate|]. eauto.
  - rewrite W5, W4, Wr4, Wr3, Wr2, Wr1, Wr0. now rewrite <- !app_assoc.
Qed.

Lemma bakeGame_builds_witness :
  read_file (bakedGameDir Demo.cfg (Demo.request [Demo.overlay1]) ++ ["modinfo.lua"])
            (root (snd (bakeGame Demo.cfg 4 (Demo.request [Demo.overlay1]) manifests)))
  = Some (modInfoContent "demo" [Demo.overlay1]).
Proof.
  destruct (fst (bakeGame Demo.cfg 4 (Demo.request [Demo.overlay1]) manifests))
    as [res| |] eqn:Run.
  - refine (proj1 (proj2 (bakeGame_builds Demo.cfg 4 (Demo.request [Demo.overlay1]) manifests
                            res _ _ _))).
    + vm_compute. reflexivity.
    + rewrite <- Run. apply surjective_pairing.
  - vm_compute in Run. discriminate.
  - vm_compute in Run. discriminate.
Defined.

(** ** What findBaseGame returns *)

Lemma valid_at_quiet w w' p : quiet w w' -> valid_at w' p = valid_at w p.
Proof.
  intros (R & _ & _ & F). unfold valid_at, exists_at, failing. now rewrite R, F.
Qed.

Lemma exists_at_quiet w w' p : quiet w w' -> exists_at w' p = exists_at w p.
Proof.
  intros (R & _ & _ & F). unfold exists_at, failing. now rewrite R, F.
Qed.

Lemma firstValidCandidate_sound d cs w p w' :
  firstValidCandidate d cs w = (Ok (Some p), w') ->
  exists f, In f cs /\ p = d ++ [f] /\ valid_at w p = true.
Proof.
  induction cs as [|c cs IH]; cbn [firstValidCandidate]; [discriminate|].
  unfold bind at 1. rewrite isValidGameArchive_run.
  destruct (valid_at w (d ++ [c])) eqn:V.
  - unfold bind, log_info, log, ret. intros H. inversion H; subst.
    exists c. split; [now left|]. auto.
  - intros H. destruct (IH H) as (f & I & E & V'). exists f. split; [now right|]. auto.
Qed.

Lemma searchBaseGame_sound g dirs w p w' :
  searchBaseGame g dirs w = (Ok p, w') ->
  exists d f t es,
    In d dirs /\ p = d ++ [f] /\ isCandidate g f = true /\
    find d (root w) = Some (Dir t es) /\ In f (map fst es) /\ valid_at w p = true.
Proof.
  revert w. induction dirs as [|d dirs IH]; intros w; cbn [searchBaseGame]; [discriminate|].
  unfold bind at 1. rewrite fileExists_run.
  destruct (exists_at w d) eqn:Ex; cbn [negb].
  - intros H. apply bind_Ok_inv in H. destruct H as (files & w1 & Hread & H).
    unfold fs_readdir in Hread. apply bind_Ok_inv in Hread.
    destruct Hread as (ds & w0 & Hds & Hret). apply fs_readdir_types_Ok in Hds.
    destruct Hds as (-> & t & es & Fd & ->). inversion Hret; subst files w1. clear Hret.
    apply bind_Ok_inv in H. destruct H as (found & w2 & Hfound & H).
    pose proof (respects_firstValidCandidate quiet quiet_refl quiet_trans quiet_log d
                  (filter (isCandidate g) (map d_name (dirents es))) w) as Q.
    rewrite Hfound in Q. cbn [snd] in Q.
    destruct found as [q|].
    + inversion H; subst q w2. apply firstValidCandidate_sound in Hfound.
      destruct Hfound as (f & I & E & V). apply filter_In in I. destruct I as [I C].
      exists d, f, t, es. repeat split; auto; [now left|].
      unfold dirents in I. now rewrite map_map in I.
    + destruct (IH _ H) as (d' & f & t' & es' & I & E & C & Fd' & I' & V).
      pose proof (proj1 Q) as R. exists d', f, t', es'. repeat split; auto.
      * now right.
      * now rewrite <- R.
      * rewrite <- V. symmetry. now apply valid_at_quiet.
  - intros H. destruct (IH _ H) as (d' & f & t' & es' & I & E & C & Fd' & I' & V).
    exists d', f, t', es'. repeat split; auto. now right.
Qed.

(** X6: Whatever the environment rejects, a path that findBaseGame returns is
    an entry of one of its three search directories whose name matches the
    game type (or one of the two fallback words), and it passes
    isValidGameArchive; and findBaseGame has read only: the tree and the
    trace of writes are as before. *)
Theorem findBaseGame_sound cfg gameType engineVersion w p w' :
  findBaseGame cfg gameType engineVersion w = (Ok p, w') ->
  (exists searchDir file t es,
     In searchDir (possiblePaths cfg engineVersion) /\ p = searchDir ++ [file] /\
     isCandidate gameType file = true /\
     find searchDir (root w) = Some (Dir t es) /\ In file (map fst es)) /\
  isValidGameArchive p w = (Ok true, w) /\
  root w' = root w /\ writes w' = writes w.
Proof.
  intros H.
  pose proof (respects_findBaseGame quiet quiet_refl quiet_trans quiet_log
                cfg gameType engineVersion w) as Q.
  rewrite H in Q. cbn [snd] in Q.
  unfold findBaseGame in H. apply bind_Ok_inv in H. destruct H as ([] & w1 & Hlog & H).
  assert (Q1 : quiet w w1).
  { unfold log_info, log in Hlog. inversion Hlog; subst. apply quiet_log. }
  apply searchBaseGame_sound in H.
  destruct H as (d & f & t & es & I & E & C & Fd & I' & V).
  destruct Q1 as (R1 & W1 & C1 & F1).
  split; [|split].
  - exists d, f, t, es. repeat split; auto. now rewrite <- R1.
  - rewrite isValidGameArchive_run. rewrite <- V. f_equal. f_equal.
    symmetry. apply valid_at_quiet. repeat split; auto.
  - destruct Q as (R & W & _). auto.
Qed.

Lemma findBaseGame_sound_witness :
  isValidGameArchive ["data"; "games"; "demo.sdd"] Demo.fresh = (Ok true, Demo.fresh).
Proof.
  destruct (findBaseGame_sound Demo.cfg "demo" "ev1" Demo.fresh ["data"; "games"; "demo.sdd"]
              (snd (findBaseGame Demo.cfg "demo" "ev1" Demo.fresh))) as (_ & V & _).
  - vm_compute. reflexivity.
  - exact V.
Defined.

(** ** A base that is a packaged archive *)

Lemma same_disk_quiet w w' : quiet w w' -> same_disk w w'.
Proof. intros (R & _ & _ & F). split; congruence. Qed.

Lemma same_disk_trans a b c : same_disk a b -> same_disk b c -> same_disk a c.
Proof. intros [R1 F1] [R2 F2]. split; congruence. Qed.

Lemma same_disk_sym a b : same_disk a b -> same_disk b a.
Proof. intros [R F]. split; congruence. Qed.

Lemma valid_at_same w1 w2 p : same_disk w1 w2 -> valid_at w1 p = valid_at w2 p.
Proof. intros [R F]. unfold valid_at, exists_at, failing. now rewrite R, F. Qed.

Lemma exists_at_same w1 w2 p : same_disk w1 w2 -> exists_at w1 p = exists_at w2 p.
Proof. intros [R F]. unfold exists_at, failing. now rewrite R, F. Qed.

Lemma firstValidCandidate_cons d c cs w :
  firstValidCandidate d (c :: cs) w
  = if valid_at w (d ++ [c])
    then (log_info ("📁 Found base game at: " ++ path_string (d ++ [c])) ;;
          ret (Some (d ++ [c]))) w
    else firstValidCandidate d cs w.
Proof.
  cbn [firstValidCandidate]. unfold bind at 1. rewrite isValidGameArchive_run.
  destruct (valid_at w (d ++ [c])); reflexivity.
Qed.

Lemma firstValidCandidate_same d cs w1 w2 :
  same_disk w1 w2 ->
  fst (firstValidCandidate d cs w1) = fst (firstValidCandidate d cs w2).
Proof.
  intros S. induction cs as [|c cs IH]; [reflexivity|].
  rewrite !firstValidCandidate_cons, (valid_at_same _ _ _ S).
  destruct (valid_at w2 (d ++ [c])); [reflexivity|exact IH].
Qed.

Lemma fs_readdir_same d w1 w2 :
  same_disk w1 w2 ->
  fst (fs_readdir d w1) = fst (fs_readdir d w2) /\
  snd (fs_readdir d w1) = w1 /\ snd (fs_readdir d w2) = w2.
Proof.
  intros [R F]. unfold fs_readdir, bind, fs_readdir_types, guarded, rejected, throw, failing.
  rewrite R, F.
  destruct (existsb _ (faults w2)); [auto|].
  destruct (find d (root w2)) as [[|]|]; auto.
Qed.

Lemma searchBaseGame_cons g d dirs w :
  searchBaseGame g (d :: dirs) w
  = if exists_at w d
    then match fs_readdir d w with
         | (Ok files, w1) =>
             match firstValidCandidate d (filter (isCandidate g) files) w1 with
             | (Ok (Some fullPath), w2) => (Ok fullPath, w2)
             | (Ok None, w2) => searchBaseGame g dirs w2
             | (Throw e, w2) => (Throw e, w2)
             | (OutOfFuel, w2) => (OutOfFuel, w2)
             end
         | (Throw e, w1) => (Throw e, w1)
         | (OutOfFuel, w1) => (OutOfFuel, w1)
         end
    else searchBaseGame g dirs w.
Proof.
  cbn [searchBaseGame]. unfold bind at 1. rewrite fileExists_run.
  destruct (exists_at w d); cbn [negb]; [|reflexivity].
  unfold bind at 1. destruct (fs_readdir d w) as [[files|e|] w1]; try reflexivity.
  unfold bind at 1.
  destruct (firstValidCandidate d (filter (isCandidate g) files) w1) as [[[q|]|e|] w2];
    reflexivity.
Qed.

(** What findBaseGame answers depends on the tree and on what the
    environment rejects, not on the log. *)
Lemma searchBaseGame_same g dirs : forall w1 w2,
  same_disk w1 w2 ->
  fst (searchBaseGame g dirs w1) = fst (searchBaseGame g dirs w2).
Proof.
  induction dirs as [|d dirs IH]; intros w1 w2 S; [reflexivity|].
  rewrite !searchBaseGame_cons, (exists_at_same _ _ _ S).
  destruct (exists_at w2 d); [|now apply IH].
  destruct (fs_readdir_same d w1 w2 S) as (V & E1 & E2).
  destruct (fs_readdir d w1) as [o1 x1]. destruct (fs_readdir d w2) as [o2 x2].
  cbn [fst snd] in V, E1, E2. subst o2 x1 x2.
  destruct o1 as [files|e|]; try reflexivity.
  pose proof (firstValidCandidate_same d (filter (isCandidate g) files) w1 w2 S) as V.
  pose proof (respects_firstValidCandidate quiet quiet_refl quiet_trans quiet_log d
                (filter (isCandidate g) files) w1) as Q1.
  pose proof (respects_firstValidCandidate quiet quiet_refl quiet_trans quiet_log d
                (filter (isCandidate g) files) w2) as Q2.
  destruct (firstValidCandidate d (filter (isCandidate g) files) w1) as [o1 x1].
  destruct (firstValidCandidate d (filter (isCandidate g) files) w2) as [o2 x2].
  cbn [fst snd] in V, Q1, Q2. subst o2.
  destruct o1 as [[q|]|e|]; try reflexivity.
  apply IH.
  apply (same_disk_trans _ w1); [apply same_disk_sym, same_disk_quiet, Q1|].
  apply (same_disk_trans _ w2); [exact S|apply same_disk_quiet, Q2].
Qed.

Lemma findBaseGame_same cfg g ev w1 w2 :
  same_disk w1 w2 ->
  fst (findBaseGame cfg g ev w1) = fst (findBaseGame cfg g ev w2).
Proof.
  intros S. unfold findBaseGame, bind, log_info, log. apply searchBaseGame_same.
  destruct S as [R F]. split; assumption.
Qed.

(** X7: A packaged archive (a file ending in .sdz or .sd7) is accepted as a
    base by findBaseGame but cannot be extracted: when findBaseGame answers
    with a path that holds a regular file, a bake that misses the cache
    throws "Zip extraction not yet implemented for: <path>", and leaves no
    working directory when the access to it and its removal are not
    rejected. *)
Theorem bakeGame_packaged_base cfg fuel options w p w0 t c :
  exists_at w (bakedGameArchive cfg options) = false ->
  findBaseGame cfg (baseGameType options) (engineVersion options) w = (Ok p, w0) ->
  find p (root w) = Some (File t c) ->
  exists w',
    bakeGame cfg fuel options w
    = (Throw (JsError ("Zip extraction not yet implemented for: " ++ path_string p)), w') /\
    (failing w Access (bakedGameDir cfg options) = false ->
     failing w Rm (bakedGameDir cfg options) = false ->
     find (bakedGameDir cfg options) (root w') = None).
Proof.
  intros Miss Found Fp.
  pose proof (bakeStarted_quiet options w) as Q0.
  pose proof (findBaseGame_same cfg (baseGameType options) (engineVersion options)
                w (bakeStarted options w) (same_disk_quiet _ _ Q0)) as Same.
  rewrite Found in Same. cbn [fst] in Same.
  pose proof (respects_findBaseGame quiet quiet_refl quiet_trans quiet_log
                cfg (baseGameType options) (engineVersion options) (bakeStarted options w)) as Q1.
  destruct (findBaseGame cfg (baseGameType options) (engineVersion options)
              (bakeStarted options w)) as [o w1] eqn:Run1.
  cbn [fst snd] in Same, Q1. subst o.
  (* the stat of the path is not rejected: findBaseGame has validated it *)
  assert (St : failing w Stat p = false).
  { pose proof (searchBaseGame_sound (baseGameType options)
                  (possiblePaths cfg (engineVersion options))
                  (with_log w {| log_level := LInfo;
                                 log_message := ("🔍 Looking for base game files for: "
                                                 ++ baseGameType options)%string;
                                 log_detail := None |}) p w0) as Snd.
    destruct Snd as (d & f & t' & es & _ & _ & _ & _ & _ & V).
    { exact Found. }
    rewrite (valid_at_same _ w) in V by (split; reflexivity).
    unfold valid_at in V. destruct (failing w Stat p); [discriminate|reflexivity]. }
  destruct (bakeGame_throws cfg fuel options w
              (JsError ("Zip extraction not yet implemented for: " ++ path_string p)) w1 Miss)
    as (w' & Run & _ & Gone).
  - unfold buildBakedGame. unfold bind at 1. rewrite Run1.
    unfold bind at 1. unfold extractArchive. unfold bind at 1.
    unfold fs_stat, guarded.
    destruct Q0 as (R0 & _ & _ & F0). destruct Q1 as (R1 & _ & _ & F1).
    assert (St1 : failing w1 Stat p = false).
    { unfold failing in *. now rewrite F1, F0. }
    rewrite St1, R1, R0, Fp. cbn [isDirectory is_dir]. reflexivity.
  - exists w'. split; [exact Run|exact Gone].
Qed.

Lemma bakeGame_packaged_base_witness :
  exists w',
    bakeGame Demo.cfg 4 (Demo.request [Demo.overlay1]) packaged_base
    = (Throw (JsError "Zip extraction not yet implemented for: /data/games/demo.sdz"), w') /\
    find (bakedGameDir Demo.cfg (Demo.request [Demo.overlay1])) (root w') = None.
Proof.
  destruct (bakeGame_packaged_base Demo.cfg 4 (Demo.request [Demo.overlay1]) packaged_base
              ["data"; "games"; "demo.sdz"]
              (snd (findBaseGame Demo.cfg "demo" "ev1" packaged_base)) 0 "PK")
    as (w' & Run & Gone).
  - vm_compute. reflexivity.
  - vm_compute. reflexivity.
  - reflexivity.
  - exists w'. split; [exact Run|]. apply Gone; reflexivity.
Defined.

(** ** The overlay copies the files of its source, at every depth *)

(** X8: A successful overlayDirectory(srcDir, destDir) whose two directories
    do not overlap has copied every file of the source tree, at any depth:
    the destination holds at the same relative path a file with the content
    that the source had before the call. *)
Theorem overlayDirectory_copies fuel srcDir destDir w w' r t v :
  overlayDirectory fuel srcDir destDir w = (Ok tt, w') ->
  apart srcDir destDir = true ->
  find (srcDir ++ r) (root w) = Some (File t v) ->
  read_file (destDir ++ r) (root w') = Some v.
Proof. apply overlayDirectory_copies_files. Qed.

Lemma overlayDirectory_copies_witness :
  read_file ["data"; "games"; "demo.sdd"; "units"; "tank.lua"]
            (root (snd (overlayDirectory 3 ["mods"; "patch1"] ["data"; "games"; "demo.sdd"] layered)))
  = Some "tank 1".
Proof.
  apply (overlayDirectory_copies 3 ["mods"; "patch1"] ["data"; "games"; "demo.sdd"] layered
           (snd (overlayDirectory 3 ["mods"; "patch1"] ["data"; "games"; "demo.sdd"] layered))
           ["units"; "tank.lua"] 0 "tank 1").
  - vm_compute. reflexivity.
  - reflexivity.
  - reflexivity.
Defined.

(** ** The last overlay wins, at every depth *)

(** X10: In a bake that misses the cache and completes, every file of the last
    overlay, at any depth, is in the baked directory at the same relative
    path with the content of that overlay, whatever the base and the
    earlier overlays hold there; the one exception is the manifest
    modinfo.lua at the top, which the bake writes itself.  (The last
    overlay lies outside the cache directory.) *)
Theorem bakeGame_last_overlay_wins cfg fuel w base ev earlier last r t v res w' :
  let options := {| baseGameType := base; mods := earlier ++ [last]; engineVersion := ev |} in
  let src := resolve (process_cwd cfg) (installPath last) in
  r <> ["modinfo.lua"] ->
  apart src (bakedGamesDir cfg) = true ->
  find (src ++ r) (root w) = Some (File t v) ->
  exists_at w (bakedGameArchive cfg options) = false ->
  bakeGame cfg fuel options w = (Ok res, w') ->
  read_file (bakedGameDir cfg options ++ r) (root w') = Some v.
Proof. apply bakeGame_last_mod_files. Qed.

Lemma bakeGame_last_overlay_wins_witness :
  read_file (bakedGameDir Demo.cfg (Demo.request [Demo.overlay1; Demo.overlay2])
               ++ ["units"; "tank.lua"])
            (root (snd (bakeGame Demo.cfg 4 (Demo.request [Demo.overlay1; Demo.overlay2]) layered)))
  = Some "tank 2".
Proof.
  destruct (fst (bakeGame Demo.cfg 4 (Demo.request [Demo.overlay1; Demo.overlay2]) layered))
    as [res| |] eqn:Run.
  - refine (bakeGame_last_overlay_wins Demo.cfg 4 layered "demo" "ev1" [Demo.overlay1]
              Demo.overlay2 ["units"; "tank.lua"] 0 "tank 2" res _ _ _ _ _ _).
    + discriminate.
    + vm_compute. reflexivity.
    + vm_compute. reflexivity.
    + vm_compute. reflexivity.
    + rewrite <- Run. apply surjective_pairing.
  - vm_compute in Run. discriminate.
  - vm_compute in Run. discriminate.
Defined.

(** ** The recursive copy *)

Lemma node_induction (P : node -> Prop) :
  (forall t c, P (File t c)) ->
  (forall t es, Forall (fun e => P (snd e)) es -> P (Dir t es)) ->
  forall n, P n.
Proof.
  intros Hf Hd. fix IH 1. intros [t c|t es]; [apply Hf|].
  apply Hd. induction es as [|[x c] es IHes]; constructor; [apply IH|exact IHes].
Qed.

Lemma distinct_names_dir t es :
  distinct_names (Dir t es) = true ->
  distinct (map fst es) = true /\ Forall (fun e => distinct_names (snd e) = true) es.
Proof.
  cbn [distinct_names]. intros H. apply andb_true_iff in H. destruct H as [D E].
  split; [exact D|]. clear D. induction es as [|[x c] es IH]; constructor.
  - apply andb_true_iff in E. tauto.
  - apply IH. apply andb_true_iff in E. tauto.
Qed.

Lemma distinct_names_find p : forall n c,
  distinct_names n = true -> find p n = Some c -> distinct_names c = true.
Proof.
  induction p as [|x p IH]; intros n c D F.
  - cbn in F. congruence.
  - destruct n as [|t es]; [discriminate|]. cbn [find] in F.
    destruct (lookup_entry x es) as [c0|] eqn:L; [|discriminate].
    apply distinct_names_dir in D. destruct D as [_ D].
    apply lookup_entry_In in L. rewrite Forall_forall in D.
    apply (IH c0 c); [exact (D _ L)|exact F].
Qed.

Lemma lookup_entry_absent x es :
  existsb (String.eqb x) (map fst es) = false -> lookup_entry x es = None.
Proof.
  induction es as [|[y c] es IH]; cbn; [reflexivity|].
  intros H. apply orb_false_iff in H. destruct H as [E H]. rewrite E. auto.
Qed.

(** What the copy of a tree leaves at the destination holds every file of
    the tree. *)
Lemma copy_onto_file now : forall src dst m r t v,
  distinct_names src = true ->
  copy_onto now src dst = Some m ->
  find r src = Some (File t v) ->
  read_file r m = Some v.
Proof.
  induction src as [t0 c|t0 es IH] using node_induction; intros dst m r t v D Cp F.
  - destruct r; [|discriminate]. cbn in F. inversion F; subst.
    cbn in Cp. destruct dst as [[|]|]; inversion Cp; reflexivity.
  - destruct r as [|x r]; [discriminate|].
    apply distinct_names_dir in D. destruct D as [ND D].
    cbn [find] in F. destruct (lookup_entry x es) as [c|] eqn:L; [|discriminate].
    cbn [copy_onto] in Cp.
    match type of Cp with
    | context [match dst with Some _ => _ | None => ?mg es now []%list end] =>
        set (merge := mg) in *
    end.
    assert (G : forall es', Forall (fun e => forall dst m r t v,
                                 distinct_names (snd e) = true ->
                                 copy_onto now (snd e) dst = Some m ->
                                 find r (snd e) = Some (File t v) ->
                                 read_file r m = Some v) es' ->
                distinct (map fst es') = true ->
                Forall (fun e => distinct_names (snd e) = true) es' ->
                forall t1 des m, merge es' t1 des = Some m ->
                  exists t2 des2, m = Dir t2 des2 /\
                    (lookup_entry x es' = None -> lookup_entry x des2 = lookup_entry x des) /\
                    (lookup_entry x es' = Some c ->
                     exists c', lookup_entry x des2 = Some c' /\ read_file r c' = Some v)).
    { clear IH ND D L Cp. induction es' as [|[y cy] es' IHes]; intros IH ND D t1 des m0 Mg.
      - cbn in Mg. inversion Mg; subst. exists t1, des. split; [reflexivity|].
        split; [reflexivity|discriminate].
      - change (merge ((y, cy) :: es') t1 des)
          with (match copy_onto now cy (lookup_entry y des) with
                | Some c' => merge es' (match lookup_entry y des with Some _ => t1 | None => now end)
                                   (set_entry y c' des)
                | None => None
                end) in Mg.
        destruct (copy_onto now cy (lookup_entry y des)) as [c'|] eqn:Cy; [|discriminate].
        inversion IH as [|? ? IHy IH']; subst. inversion D as [|? ? Dy D']; subst.
        cbn [map fst distinct] in ND. apply andb_true_iff in ND. destruct ND as [Ny ND].
        apply negb_true_iff in Ny.
        destruct (IHes IH' ND D' _ _ _ Mg) as (t2 & des2 & -> & Keep & Here).
        exists t2, des2. split; [reflexivity|]. cbn [lookup_entry].
        destruct (String.eqb x y) eqn:Exy.
        + apply String.eqb_eq in Exy. subst y. split; [discriminate|].
          intros E. inversion E; subst cy. exists c'. split.
          * rewrite (Keep (lookup_entry_absent _ _ Ny)). apply lookup_set_same.
          * cbn [snd] in IHy, Dy. eapply IHy; eauto.
        + assert (Nxy : y <> x).
          { intros ->. now rewrite String.eqb_refl in Exy. }
          split.
          * intros E. rewrite (Keep E). now apply lookup_set_other.
          * exact Here. }
    assert (R : exists t1 des, merge es t1 des = Some m).
    { destruct dst as [[|t1 des]|]; [discriminate|eauto|eauto]. }
    destruct R as (t1 & des & Mg).
    destruct (G es IH ND D _ _ _ Mg) as (t2 & des2 & -> & _ & Here).
    destruct (Here L) as (c' & L' & Rd).
    unfold read_file in *. cbn [find]. now rewrite L'.
Qed.

Lemma fs_cp_Ok s d w w' :
  fs_cp s d w = (Ok tt, w') ->
  exists n r1 m,
    find s (root w) = Some n /\
    copy_onto (clock w) n (find d r1) = Some m /\
    put (clock w) d m r1 = Some (root w').
Proof.
  unfold fs_cp, guarded. destruct (failing w Cp s); [discriminate|].
  destruct (find s (root w)) as [n|]; [|discriminate].
  destruct (is_prefix s d); [discriminate|].
  destruct (mkdir_p (clock w) (removelast d) (root w)) as [r1|]; [|discriminate].
  destruct (copy_onto (clock w) n (find d r1)) as [m|] eqn:C; [|discriminate].
  destruct (put (clock w) d m r1) as [r2|] eqn:P; [|discriminate].
  intros H. inversion H; subst. exists n, r1, m. auto.
Qed.

Lemma extractArchive_copies a d w w' r t v :
  extractArchive a d w = (Ok tt, w') ->
  distinct_names (root w) = true ->
  find (a ++ r) (root w) = Some (File t v) ->
  read_file (d ++ r) (root w') = Some v.
Proof.
  unfold extractArchive. intros H D F.
  apply bind_Ok_inv in H. destruct H as (st & w1 & H1 & H2).
  unfold fs_stat, guarded in H1. destruct (failing w Stat a); [discriminate|].
  destruct (find a (root w)) as [n|] eqn:E; [|discriminate].
  inversion H1; subst. cbn [isDirectory] in H2.
  destruct (is_dir n); [|discriminate].
  apply bind_Ok_inv in H2. destruct H2 as ([] & w2 & H2 & H3).
  inversion H2; subst. apply fs_cp_Ok in H3. cbn [with_log root clock] in H3.
  destruct H3 as (n' & r1 & m & E' & C & P).
  assert (n' = n) by congruence. subst n'.
  unfold read_file. rewrite (put_find_under _ _ _ _ _ r P).
  rewrite find_app, E in F.
  apply (copy_onto_file _ _ _ _ _ _ _ (distinct_names_find _ _ _ D E) C F).
Qed.

(** ** The files of the base in a bake *)

Lemma applyMods_leaves_unnamed cfg fuel options r : forall ms w w',
  applyMods cfg fuel options ms w = (Ok tt, w') ->
  (forall m, In m ms ->
     apart (resolve (process_cwd cfg) (installPath m)) (bakedGamesDir cfg) = true /\
     find (resolve (process_cwd cfg) (installPath m) ++ r) (root w) = None) ->
  find (bakedGameDir cfg options ++ r) (root w') = find (bakedGameDir cfg options ++ r) (root w).
Proof.
  induction ms as [|m ms IH]; intros w w' H Hm.
  - inversion H; subst. reflexivity.
  - unfold applyMods in H. apply for_each_Ok_inv in H. destruct H as (w1 & H1 & H2).
    fold (applyMods cfg fuel options ms) in H2.
    assert (Keep : forall q, outside (bakedGameDir cfg options) q ->
                             find q (root w1) = find q (root w)).
    { pose proof (keeping_applyMods cfg fuel options [m] w) as K.
      unfold applyMods in K. cbn [for_each] in K. unfold bind at 1 in K.
      rewrite H1 in K. cbn [snd ret] in K. destruct K as (_ & _ & K). exact K. }
    rewrite (IH _ _ H2).
    + apply bind_Ok_inv in H1. destruct H1 as ([] & wl & Hl & H1). inversion Hl; subst.
      unfold applyModDelta in H1.
      apply bind_Ok_inv in H1. destruct H1 as ([] & wm & Hm' & H1). inversion Hm'; subst.
      destruct (Hm m (or_introl eq_refl)) as [A N].
      apply (overlayDirectory_leaves_unnamed fuel _ _ _ _ H1).
      * unfold bakedGameDir. apply apart_app_r. exact A.
      * exact N.
    + intros m' I. destruct (Hm m' (or_intror I)) as [A N]. split; [exact A|].
      rewrite Keep; [exact N|]. now apply outside_cache.
Qed.

(** X11: In a bake that misses the cache and completes, a file of the base that
    was copied (the first write of the bake) is in the baked directory at
    the same relative path with the content it has in the base, unless an
    overlay holds something at that path; the one exception is the manifest
    modinfo.lua at the top.  (No directory of the tree lists a name twice,
    and the overlays lie outside the cache directory.) *)
Theorem bakeGame_keeps_base_files cfg fuel options w res w' base more r t v :
  exists_at w (bakedGameArchive cfg options) = false ->
  bakeGame cfg fuel options w = (Ok res, w') ->
  writes w' = writes w ++ WCp base (bakedGameDir cfg options) :: more ->
  distinct_names (root w) = true ->
  find (base ++ r) (root w) = Some (File t v) ->
  r <> ["modinfo.lua"] ->
  (forall m, In m (mods options) ->
     apart (resolve (process_cwd cfg) (installPath m)) (bakedGamesDir cfg) = true /\
     find (resolve (process_cwd cfg) (installPath m) ++ r) (root w) = None) ->
  read_file (bakedGameDir cfg options ++ r) (root w') = Some v.
Proof.
  intros Miss Run Wr D Src Nf Hm.
  rewrite (bakeGame_miss _ _ _ _ Miss) in Run.
  apply try_catch_Ok_inv in Run.
  2:{ intros e w3. destruct (bakeFailed_run cfg options e w3) as (w4 & R & _).
      rewrite R. discriminate. }
  unfold buildBakedGame in Run.
  apply bind_Ok_inv in Run. destruct Run as (bp & w1 & H1 & Run).
  apply bind_Ok_inv in Run. destruct Run as ([] & w2 & H2 & Run).
  apply bind_Ok_inv in Run. destruct Run as ([] & w3 & H3 & Run).
  apply bind_Ok_inv in Run. destruct Run as ([] & w4 & H4 & Run).
  apply bind_Ok_inv in Run. destruct Run as ([] & w5 & H5 & Run).
  inversion Run; subst res w5. clear Run.
  apply log_Ok in H5. destruct H5 as [R5 W5]. rewrite R5.
  pose proof (respects_findBaseGame quiet quiet_refl quiet_trans quiet_log
                cfg (baseGameType options) (engineVersion options) (bakeStarted options w)) as Q1.
  rewrite H1 in Q1. cbn [snd] in Q1. destruct Q1 as (Rt1 & Wr1 & _).
  destruct (bakeStarted_quiet options w) as (Rt0 & Wr0 & _).
  (* the base that was copied is the one of the trace *)
  assert (bp = base).
  { pose proof (extractArchive_Ok _ _ _ _ H2) as (Wr2 & _).
    pose proof (extending_applyMods cfg fuel options (mods options) w2) as E3.
    unfold applyMods in E3. rewrite H3 in E3. cbn [snd] in E3. destruct E3 as (overlaid & Wr3).
    pose proof (extending_createBakedGameModInfo
                  (bakedGameDir cfg options) (baseGameType options) (mods options) w3) as E4.
    rewrite H4 in E4. cbn [snd] in E4. destruct E4 as (last & Wr4).
    rewrite W5, Wr4, Wr3, Wr2, Wr1, Wr0 in Wr. rewrite <- !app_assoc in Wr.
    apply app_inv_head in Wr. cbn [app] in Wr. congruence. }
  subst bp.
  eapply createBakedGameModInfo_frame; [exact H4|exact Nf|].
  unfold read_file.
  rewrite (applyMods_leaves_unnamed cfg fuel options r (mods options) w2 w3 H3).
  - apply (extractArchive_copies _ _ _ _ _ t _ H2); rewrite Rt1, Rt0; assumption.
  - intros m I. destruct (Hm m I) as [A N]. split; [exact A|].
    pose proof (keeping_extractArchive base (bakedGameDir cfg options) w1) as K.
    rewrite H2 in K. destruct K as (_ & _ & K). rewrite K.
    + now rewrite Rt1, Rt0.
    + now apply outside_cache.
Qed.

Lemma bakeGame_keeps_base_files_witness :
  read_file (bakedGameDir Demo.cfg (Demo.request [Demo.overlay1; Demo.overlay2])
               ++ ["units"; "ship.lua"])
            (root (snd (bakeGame Demo.cfg 4 (Demo.request [Demo.overlay1; Demo.overlay2]) layered)))
  = Some "base ship".
Proof.
  destruct (fst (bakeGame Demo.cfg 4 (Demo.request [Demo.overlay1; Demo.overlay2]) layered))
    as [res| |] eqn:Run.
  - refine (bakeGame_keeps_base_files Demo.cfg 4 (Demo.request [Demo.overlay1; Demo.overlay2])
              layered res _ ["data"; "games"; "demo.sdd"]
              (tl (writes (snd (bakeGame Demo.cfg 4
                                  (Demo.request [Demo.overlay1; Demo.overlay2]) layered))))
              ["units"; "ship.lua"] 0 "base ship" _ _ _ _ _ _ _).
    + vm_compute. reflexivity.
    + rewrite <- Run. apply surjective_pairing.
    + vm_compute. reflexivity.
    + vm_compute. reflexivity.
    + vm_compute. reflexivity.
    + discriminate.
    + intros m [<-|[<-|[]]]; vm_compute; auto.
  - vm_compute in Run. discriminate.
  - vm_compute in Run. discriminate.
Defined.

(** ** What the sweep can touch *)

Section Swept.
Variable cfg : config.
Variable allowed : string -> Prop.

Lemma swept_refl w : swept cfg allowed w w.
Proof.
  split; [|reflexivity]. exists []. cbn [map]. rewrite app_nil_r. split; [reflexivity|constructor].
Qed.

Lemma swept_trans a b c : swept cfg allowed a b -> swept cfg allowed b c -> swept cfg allowed a c.
Proof.
  intros [(r1 & W1 & F1) K1] [(r2 & W2 & F2) K2]. split.
  - exists (r1 ++ r2). split.
    + now rewrite W2, W1, map_app, app_assoc.
    + apply Forall_app. auto.
  - intros q Hq. now rewrite K2, K1.
Qed.

Lemma swept_log w e : swept cfg allowed w (with_log w e).
Proof.
  split; [|reflexivity]. exists []. cbn [map writes with_log]. rewrite app_nil_r.
  split; [reflexivity|constructor].
Qed.

Lemma swept_fs_rm name :
  startsWith name "baked-" = true -> allowed name ->
  respects (swept cfg allowed) (fs_rm (bakedGamesDir cfg ++ [name])).
Proof.
  intros B Al w. unfold fs_rm, guarded, rejected, throw.
  destruct (failing w Rm (bakedGamesDir cfg ++ [name])); cbn [snd]; [apply swept_refl|].
  split.
  - exists [name]. cbn [map writes with_root]. split; [reflexivity|]. constructor; auto.
  - intros q Hq. cbn [root with_root]. apply remove_frame. now apply Hq.
Qed.

Lemma swept_sweepEntry maxAge now entry :
  (d_isDirectory entry = true -> startsWith (d_name entry) "baked-" = true ->
   allowed (d_name entry)) ->
  respects (swept cfg allowed) (sweepEntry cfg maxAge now entry).
Proof.
  intros Al. unfold sweepEntry.
  destruct (d_isDirectory entry && startsWith (d_name entry) "baked-") eqn:E.
  - apply andb_true_iff in E. destruct E as [D B].
    apply respects_bind; [apply swept_trans| |].
    + apply respects_fs_stat. apply swept_refl.
    + intros st. destruct (now - mtime_getTime st >? maxAge)%Z.
      * apply respects_bind; [apply swept_trans| |].
        -- apply swept_fs_rm; auto.
        -- intros _. apply respects_log. apply swept_log.
      * apply respects_ret. apply swept_refl.
  - apply respects_ret. apply swept_refl.
Qed.
End Swept.

Lemma dirents_directory es e :
  In e (dirents es) -> d_isDirectory e = true ->
  exists c, In (d_name e, c) es /\ is_dir c = true.
Proof.
  unfold dirents. intros I D. apply in_map_iff in I. destruct I as ([x c] & <- & I).
  cbn [d_name d_isDirectory fst snd] in *. eauto.
Qed.

(** X12: Whatever the cache holds and whatever the environment rejects, the
    writes of a sweep are removals of entries of the cache directory that
    it lists as directories and whose name starts with baked-: no regular
    file and no entry of another name is removed, and every path apart from
    all entries named baked-... (all that lies outside the cache directory,
    and its entries of other names) holds afterwards what it held; without
    a cache directory the sweep returns at once and logs nothing. *)
Theorem cleanupOldBakedGames_only_removes cfg maxAge w :
  (exists removed,
     writes (snd (cleanupOldBakedGames cfg maxAge w))
     = writes w ++ map (fun name => WRm (bakedGamesDir cfg ++ [name])) removed /\
     Forall (fun name =>
               startsWith name "baked-" = true /\
               exists t es c, find (bakedGamesDir cfg) (root w) = Some (Dir t es) /\
                              In (name, c) es /\ is_dir c = true) removed) /\
  (forall q, (forall name, startsWith name "baked-" = true ->
                           apart (bakedGamesDir cfg ++ [name]) q = true) ->
             find q (root (snd (cleanupOldBakedGames cfg maxAge w))) = find q (root w)) /\
  (find (bakedGamesDir cfg) (root w) = None -> cleanupOldBakedGames cfg maxAge w = (Ok tt, w)).
Proof.
  set (allowed := fun name =>
         startsWith name "baked-" = true /\
         exists t es c, find (bakedGamesDir cfg) (root w) = Some (Dir t es) /\
                        In (name, c) es /\ is_dir c = true).
  assert (S : swept cfg allowed w (snd (cleanupOldBakedGames cfg maxAge w))).
  { unfold cleanupOldBakedGames, try_catch.
    assert (B : swept cfg allowed w (snd (sweepBakedGames cfg maxAge w))).
    { unfold sweepBakedGames. unfold bind at 1. rewrite fileExists_run.
      destruct (exists_at w (bakedGamesDir cfg)); cbn [negb]; [|apply swept_refl].
      unfold bind at 1.
      destruct (fs_readdir_types (bakedGamesDir cfg) w) as [[ds|e|] w1] eqn:Rd.
      - apply fs_readdir_types_Ok in Rd. destruct Rd as (-> & t & es & Fd & ->).
        unfold bind at 1, date_now.
        apply (respects_for_each (swept cfg allowed) (swept_refl cfg allowed)
                 (swept_trans cfg allowed)).
        intros e I. apply swept_sweepEntry. intros D B.
        destruct (dirents_directory _ _ I D) as (c & Ic & Dc).
        split; [exact B|]. exists t, es, c. auto.
      - pose proof (respects_fs_readdir_types (swept cfg allowed) (swept_refl cfg allowed)
                      (bakedGamesDir cfg) w) as X. now rewrite Rd in X.
      - pose proof (respects_fs_readdir_types (swept cfg allowed) (swept_refl cfg allowed)
                      (bakedGamesDir cfg) w) as X. now rewrite Rd in X. }
    destruct (sweepBakedGames cfg maxAge w) as [[[]|e|] w1]; cbn [snd] in *;
      [exact B| |exact B].
    eapply swept_trans; [exact B|]. apply swept_log. }
  destruct S as [A B]. split; [exact A|]. split; [exact B|].
  intros Gone. unfold cleanupOldBakedGames, try_catch, sweepBakedGames, bind.
  rewrite fileExists_run. unfold exists_at. rewrite Gone. now rewrite andb_false_r.
Qed.

(** ** The age of a baked directory *)

Lemma stamping_refl d w : stamping d w w.
Proof. split; auto. Qed.

Lemma stamping_trans d a b c : stamping d a b -> stamping d b c -> stamping d a c.
Proof. intros [C1 S1] [C2 S2]. split; [congruence|auto]. Qed.

Lemma stamping_log d w e : stamping d w (with_log w e).
Proof. split; auto. Qed.

Lemma put_below_stamp now new x r : forall d n n' es,
  find d n = Some (Dir now es) -> put now (d ++ x :: r) new n = Some n' ->
  exists es', find d n' = Some (Dir now es').
Proof.
  induction d as [|y d IH]; intros n n' es F P.
  - cbn in F. inversion F; subst n. cbn [app put] in P.
    destruct r as [|z r]; destruct (lookup_entry x es) as [c|]; cbn iota in P;
      try discriminate.
    + inversion P; subst. cbn. eauto.
    + inversion P; subst. cbn. eauto.
    + destruct (put now (z :: r) new c); [|discriminate]. inversion P; subst. cbn. eauto.
  - destruct n as [|t0 es0]; [discriminate|]. cbn [find] in F.
    destruct (lookup_entry y es0) as [c|] eqn:L; [|discriminate].
    cbn [app put] in P. rewrite L in P.
    destruct (d ++ x :: r) as [|z q] eqn:Q; [destruct d; discriminate|].
    destruct (put now (z :: q) new c) as [c'|] eqn:Pc; [|discriminate].
    inversion P; subst. cbn [find]. rewrite lookup_set_same.
    eapply IH; eauto.
Qed.

Lemma mkdir_p_below_stamp now x r : forall d n n' es,
  find d n = Some (Dir now es) -> mkdir_p now (d ++ x :: r) n = Some n' ->
  exists es', find d n' = Some (Dir now es').
Proof.
  induction d as [|y d IH]; intros n n' es F P.
  - cbn in F. inversion F; subst n. cbn [app mkdir_p] in P.
    destruct (lookup_entry x es) as [c|].
    + destruct (mkdir_p now r c); [|discriminate]. inversion P; subst. cbn. eauto.
    + destruct (mkdir_p now r (Dir now [])); [|discriminate]. inversion P; subst. cbn. eauto.
  - destruct n as [|t0 es0]; [discriminate|]. cbn [find] in F.
    destruct (lookup_entry y es0) as [c|] eqn:L; [|discriminate].
    cbn [app mkdir_p] in P. rewrite L in P.
    destruct (mkdir_p now (d ++ x :: r) c) as [c'|] eqn:Pc; [|discriminate].
    inversion P; subst. cbn [find]. rewrite lookup_set_same. eapply IH; eauto.
Qed.

Lemma stamping_fs_mkdir d x r : respects (stamping d) (fs_mkdir (d ++ x :: r)).
Proof.
  intros w. unfold fs_mkdir, guarded, rejected, throw.
  destruct (failing w Mkdir (d ++ x :: r)); [apply stamping_refl|].
  destruct (mkdir_p (clock w) (d ++ x :: r) (root w)) as [n'|] eqn:Mk; [|apply stamping_refl].
  cbn [snd]. split; [reflexivity|]. intros (es & F). unfold stamped. cbn [root clock with_root].
  eapply mkdir_p_below_stamp; eauto.
Qed.

Lemma stamping_fs_copyFile d s x r : respects (stamping d) (fs_copyFile s (d ++ x :: r)).
Proof.
  intros w. unfold fs_copyFile, guarded, rejected, throw.
  destruct (failing w CopyFile s); [apply stamping_refl|].
  destruct (find s (root w)) as [[t c|]|]; try apply stamping_refl.
  destruct (find (d ++ x :: r) (root w)) as [[|]|];
    try apply stamping_refl;
    (destruct (put (clock w) (d ++ x :: r) (File (clock w) c) (root w)) as [n'|] eqn:P;
     [|apply stamping_refl];
     cbn [snd]; split; [reflexivity|]; intros (es & F); unfold stamped;
     cbn [root clock with_root]; eapply put_below_stamp; eauto).
Qed.

Lemma stamping_fs_writeFile d x r c : respects (stamping d) (fs_writeFile (d ++ x :: r) c).
Proof.
  intros w. unfold fs_writeFile, guarded, rejected, throw.
  destruct (failing w WriteFile (d ++ x :: r)); [apply stamping_refl|].
  destruct (find (d ++ x :: r) (root w)) as [[|]|];
    try apply stamping_refl;
    (destruct (put (clock w) (d ++ x :: r) (File (clock w) c) (root w)) as [n'|] eqn:P;
     [|apply stamping_refl];
     cbn [snd]; split; [reflexivity|]; intros (es & F); unfold stamped;
     cbn [root clock with_root]; eapply put_below_stamp; eauto).
Qed.

Lemma snoc_cons {A} (r : list A) (x : A) : exists y q, r ++ [x] = y :: q.
Proof. destruct r; cbn; eauto. Qed.

Lemma stamping_overlayDirectory d fuel : forall s r,
  respects (stamping d) (overlayDirectory fuel s (d ++ r)).
Proof.
  induction fuel as [|fuel IH]; intros s r; cbn [overlayDirectory].
  - apply respects_out_of_fuel. apply stamping_refl.
  - apply respects_bind; [apply stamping_trans| |].
    + apply respects_fs_readdir_types. apply stamping_refl.
    + intros entries. apply respects_for_each; [apply stamping_refl|apply stamping_trans|].
      intros e _. unfold overlayEntry. rewrite <- app_assoc.
      destruct (snoc_cons r (d_name e)) as (y & q & ->).
      destruct (d_isDirectory e).
      * apply respects_bind; [apply stamping_trans| |].
        -- apply stamping_fs_mkdir.
        -- intros _. apply IH.
      * apply respects_bind; [apply stamping_trans| |].
        -- apply stamping_fs_copyFile.
        -- intros _. apply respects_log. apply stamping_log.
Qed.

Lemma stamping_applyMods cfg fuel options ms :
  respects (stamping (bakedGameDir cfg options)) (applyMods cfg fuel options ms).
Proof.
  apply respects_for_each; [apply stamping_refl|apply stamping_trans|].
  intros m _. apply respects_bind; [apply stamping_trans| |].
  - apply respects_log. apply stamping_log.
  - intros _. unfold applyModDelta. apply respects_bind; [apply stamping_trans| |].
    + apply respects_log. apply stamping_log.
    + intros _.
      pose proof (stamping_overlayDirectory (bakedGameDir cfg options) fuel
                    (resolve (process_cwd cfg) (installPath m)) []) as X.
      rewrite app_nil_r in X. exact X.
Qed.

Lemma stamping_createBakedGameModInfo d b ms :
  respects (stamping d) (createBakedGameModInfo d b ms).
Proof.
  unfold createBakedGameModInfo. apply respects_bind; [apply stamping_trans| |].
  - apply stamping_fs_writeFile.
  - intros _. apply respects_log. apply stamping_log.
Qed.

(** The copy of a directory to a place that holds nothing leaves a
    directory with the time of the copy. *)
Lemma copy_onto_fresh now t es m :
  copy_onto now (Dir t es) None = Some m -> exists des, m = Dir now des.
Proof.
  cbn [copy_onto].
  match goal with
  | |- ?mg es now []%list = Some m -> _ => set (merge := mg)
  end.
  assert (G : forall es' des m, merge es' now des = Some m -> exists des', m = Dir now des').
  { induction es' as [|[y cy] es' IH]; intros des m0 Mg.
    - cbn in Mg. inversion Mg. eauto.
    - change (merge ((y, cy) :: es') now des)
        with (match copy_onto now cy (lookup_entry y des) with
              | Some c' => merge es' (match lookup_entry y des with Some _ => now | None => now end)
                                 (set_entry y c' des)
              | None => None
              end) in Mg.
      destruct (copy_onto now cy (lookup_entry y des)) as [c'|]; [|discriminate].
      destruct (lookup_entry y des); eapply IH; eauto. }
  apply G.
Qed.

Lemma is_prefix_longer p x : is_prefix (p ++ [x]) p = false.
Proof. induction p as [|y p IH]; cbn; [reflexivity|]. now rewrite String.eqb_refl. Qed.

Lemma extractArchive_stamps a p x w w' :
  extractArchive a (p ++ [x]) w = (Ok tt, w') ->
  find (p ++ [x]) (root w) = None ->
  clock w' = clock w /\ stamped (p ++ [x]) w'.
Proof.
  unfold extractArchive. intros H Gone.
  apply bind_Ok_inv in H. destruct H as (st & w1 & H1 & H2).
  unfold fs_stat, guarded in H1. destruct (failing w Stat a); [discriminate|].
  destruct (find a (root w)) as [n|] eqn:E; [|discriminate].
  inversion H1; subst. cbn [isDirectory] in H2.
  destruct n as [|t es]; [discriminate|]. cbn [is_dir] in H2.
  apply bind_Ok_inv in H2. destruct H2 as ([] & w2 & H2 & H3).
  inversion H2; subst. clear H2.
  unfold fs_cp, guarded in H3.
  match type of H3 with (if ?c then _ else _) = _ => destruct c; [discriminate|] end.
  cbn [with_log root clock] in H3. rewrite E in H3.
  destruct (is_prefix a (p ++ [x])); [discriminate|].
  rewrite removelast_last in H3.
  destruct (mkdir_p (clock w1) p (root w1)) as [r1|] eqn:Mk; [|discriminate].
  assert (G1 : find (p ++ [x]) r1 = None).
  { rewrite (mkdir_p_frame _ _ _ _ (p ++ [x]) Mk); [exact Gone|apply is_prefix_longer]. }
  rewrite G1 in H3.
  destruct (copy_onto (clock w1) (Dir t es) None) as [m|] eqn:C; [|discriminate].
  destruct (put (clock w1) (p ++ [x]) m r1) as [r2|] eqn:P; [|discriminate].
  inversion H3; subst. cbn [clock with_root with_log]. split; [reflexivity|].
  destruct (copy_onto_fresh _ _ _ _ C) as (des & ->).
  exists des. cbn [root clock with_root with_log].
  pose proof (put_find_under _ _ _ _ _ [] P) as X. now rewrite app_nil_r in X.
Qed.

(** A bake that completes in a directory that did not exist leaves it
    with the time of the bake. *)
Lemma bakeGame_stamps cfg fuel options w res w' :
  find (bakedGameDir cfg options) (root w) = None ->
  exists_at w (bakedGameArchive cfg options) = false ->
  bakeGame cfg fuel options w = (Ok res, w') ->
  exists entries, find (bakedGameDir cfg options) (root w') = Some (Dir (clock w) entries).
Proof.
  intros Gone Miss Run. rewrite (bakeGame_miss _ _ _ _ Miss) in Run.
  apply try_catch_Ok_inv in Run.
  2:{ intros e w3. destruct (bakeFailed_run cfg options e w3) as (w4 & R & _).
      rewrite R. discriminate. }
  unfold buildBakedGame in Run.
  apply bind_Ok_inv in Run. destruct Run as (bp & w1 & H1 & Run).
  apply bind_Ok_inv in Run. destruct Run as ([] & w2 & H2 & Run).
  apply bind_Ok_inv in Run. destruct Run as ([] & w3 & H3 & Run).
  apply bind_Ok_inv in Run. destruct Run as ([] & w4 & H4 & Run).
  apply bind_Ok_inv in Run. destruct Run as ([] & w5 & H5 & Run).
  inversion Run; subst res w5. clear Run.
  pose proof (respects_findBaseGame quiet quiet_refl quiet_trans quiet_log
                cfg (baseGameType options) (engineVersion options) (bakeStarted options w)) as Q1.
  rewrite H1 in Q1. cbn [snd] in Q1. destruct Q1 as (Rt1 & _ & C1 & _).
  destruct (bakeStarted_quiet options w) as (Rt0 & _ & C0 & _).
  apply (extractArchive_stamps bp (bakedGamesDir cfg) (bakedGameName options)) in H2;
    [|rewrite Rt1, Rt0; exact Gone].
  destruct H2 as [C2 S2]. fold (bakedGameDir cfg options) in S2.
  pose proof (stamping_applyMods cfg fuel options (mods options) w2) as [C3 S3].
  unfold applyMods in C3, S3. rewrite H3 in C3, S3. cbn [snd] in C3, S3.
  pose proof (stamping_createBakedGameModInfo (bakedGameDir cfg options)
                (baseGameType options) (mods options) w3) as [C4 S4].
  rewrite H4 in C4, S4. cbn [snd] in C4, S4.
  destruct (S4 (S3 S2)) as (entries & F).
  exists entries. unfold log_info, log in H5. inversion H5; subst. cbn [root with_log].
  rewrite F, C4, C3, C2, C1, C0. reflexivity.
Qed.

Lemma prefix_app (s t : string) : prefix s (s ++ t)%string = true.
Proof.
  induction s as [|c s IH]; [destruct t; reflexivity|]. cbn.
  destruct (ascii_dec c c); [exact IH|congruence].
Qed.

(** X13: A working directory that a bake created carries the time of the bake,
    so that a later sweep removes it exactly when more than maxAge has
    passed since the bake.  (The directory did not exist before the bake,
    no call is rejected, and the cache directory lists no name twice.) *)
Theorem bakeGame_then_sweep cfg fuel options maxAge w res w1 now t es :
  find (bakedGameDir cfg options) (root w) = None ->
  exists_at w (bakedGameArchive cfg options) = false ->
  bakeGame cfg fuel options w = (Ok res, w1) ->
  faults w1 = [] ->
  find (bakedGamesDir cfg) (root w1) = Some (Dir t es) -> NoDup (map fst es) ->
  (exists entries, find (bakedGameDir cfg options) (root w1) = Some (Dir (clock w) entries)) /\
  exists w2,
    cleanupOldBakedGames cfg maxAge (later w1 now) = (Ok tt, w2) /\
    ((now - clock w > maxAge)%Z -> find (bakedGameDir cfg options) (root w2) = None) /\
    ((now - clock w <= maxAge)%Z ->
     find (bakedGameDir cfg options) (root w2) = find (bakedGameDir cfg options) (root w1)).
Proof.
  intros Gone Miss Run F E ND.
  destruct (bakeGame_stamps _ _ _ _ _ _ Gone Miss Run) as (entries & St).
  split; [eauto|].
  set (w1' := later w1 now).
  assert (E' : find (bakedGamesDir cfg) (root w1') = Some (Dir t es)) by exact E.
  assert (F' : faults w1' = []) by exact F.
  destruct (sweep_loop cfg maxAge (clock w1') es w1' ND (entries_in_place cfg w1' t es E' ND))
    as (w2 & R & C & Fa & W & Removed & Frame).
  { intros e _. split; now apply failing_nil. }
  exists w2. split.
  { unfold cleanupOldBakedGames, try_catch.
    rewrite (sweepBakedGames_listing cfg maxAge w1' t es) by (auto using failing_nil).
    now rewrite R. }
  assert (I : In (bakedGameName options, Dir (clock w) entries) es).
  { unfold bakedGameDir in St. rewrite (find_child _ _ _ _ _ E) in St.
    now apply lookup_entry_In. }
  assert (B : startsWith (bakedGameName options) "baked-" = true) by apply prefix_app.
  split.
  - intros Age. apply (Removed _ I). unfold eligible. cbn [fst snd is_dir node_mtime].
    rewrite B. cbn [andb]. apply Z.gtb_lt. cbn [clock w1' later]. lia.
  - intros Age. unfold bakedGameDir. apply Frame.
    intros [x' c'] I' El. cbn [fst]. apply apart_siblings. intros Eq. subst x'.
    assert (c' = Dir (clock w) entries).
    { pose proof (lookup_entry_NoDup _ _ _ ND I) as L1.
      pose proof (lookup_entry_NoDup _ _ _ ND I') as L2. congruence. }
    subst c'. unfold eligible in El. cbn [fst snd is_dir node_mtime clock w1' later] in El.
    rewrite B in El. cbn [andb] in El. apply Z.gtb_lt in El. lia.
Qed.

Lemma bakeGame_then_sweep_witness :
  let w1 := snd (bakeGame Demo.cfg 4 (Demo.request [Demo.overlay1]) Demo.fresh) in
  exists w2,
    cleanupOldBakedGames Demo.cfg 500 (later w1 1500) = (Ok tt, w2) /\
    find (bakedGameDir Demo.cfg (Demo.request [Demo.overlay1])) (root w2)
    = find (bakedGameDir Demo.cfg (Demo.request [Demo.overlay1])) (root w1).
Proof.
  intros w1.
  destruct (fst (bakeGame Demo.cfg 4 (Demo.request [Demo.overlay1]) Demo.fresh))
    as [res| |] eqn:Run.
  - destruct (bakeGame_then_sweep Demo.cfg 4 (Demo.request [Demo.overlay1]) 500 Demo.fresh
                res w1 1500 1000%Z
                [(bakedGameName (Demo.request [Demo.overlay1]),
                  Dir 1000 [("modinfo.lua",
                             File 1000 (modInfoContent "demo" [Demo.overlay1]));
                            ("f", File 1000 "v1")])])
      as (_ & w2 & R & _ & Kept).
    + vm_compute. reflexivity.
    + vm_compute. reflexivity.
    + rewrite <- Run. apply surjective_pairing.
    + vm_compute. reflexivity.
    + vm_compute. reflexivity.
    + constructor; [intros []|constructor].
    + exists w2. split; [exact R|]. apply Kept. vm_compute. discriminate.
  - vm_compute in Run. discriminate.
  - vm_compute in Run. discriminate.
Defined.

(** ** An overlay onto a directory of its own source *)

Lemma for_each_stuck {A} (xs : list A) (body : A -> M unit) x :
  In x xs -> (forall w, fst (body x w) <> Ok tt) ->
  forall w, fst (for_each xs body w) <> Ok tt.
Proof.
  induction xs as [|y xs IH]; intros I Stuck w; [contradiction|].
  cbn [for_each]. unfold bind.
  destruct (body y w) as [[[]|e|] w1] eqn:B; cbn [fst]; try discriminate.
  destruct I as [->|I].
  - exfalso. apply (Stuck w). now rewrite B.
  - now apply IH.
Qed.

Lemma find_prefix_dir p r n c :
  find (p ++ r) n = Some c -> r <> [] -> exists t es, find p n = Some (Dir t es).
Proof.
  rewrite find_app. destruct (find p n) as [[t s|t es]|]; try discriminate; eauto.
  destruct r; [congruence|discriminate].
Qed.

Lemma In_dirents x t es0 es :
  lookup_entry x es = Some (Dir t es0) ->
  In {| d_name := x; d_isDirectory := true |} (dirents es).
Proof.
  intros L. apply lookup_entry_In in L. unfold dirents.
  apply in_map_iff. exists (x, Dir t es0). split; [reflexivity|exact L].
Qed.

Lemma overlayDirectory_inside_source fuel : forall s x r w t es,
  find (s ++ x :: r) (root w) = Some (Dir t es) ->
  fst (overlayDirectory fuel s (s ++ x :: r) w) <> Ok tt.
Proof.
  induction fuel as [|fuel IH]; intros s x r w t es F; [discriminate|].
  cbn [overlayDirectory]. unfold bind at 1.
  destruct (fs_readdir_types s w) as [[ds|e|] w1] eqn:Rd; cbn [fst]; try discriminate.
  apply fs_readdir_types_Ok in Rd. destruct Rd as (-> & t0 & es0 & Fs & ->).
  assert (Fx : exists t1 es1, lookup_entry x es0 = Some (Dir t1 es1)).
  { change (s ++ x :: r) with (s ++ [x] ++ r) in F. rewrite app_assoc in F.
    rewrite <- (find_child _ _ _ _ _ Fs).
    destruct r as [|y r].
    - rewrite app_nil_r in F. eauto.
    - eapply find_prefix_dir; [exact F|discriminate]. }
  destruct Fx as (t1 & es1 & Lx).
  apply (for_each_stuck _ _ _ (In_dirents _ _ _ _ Lx)).
  intros w0. unfold overlayEntry. cbn [d_name d_isDirectory]. unfold bind.
  destruct (fs_mkdir ((s ++ x :: r) ++ [x]) w0) as [[[]|e|] w2] eqn:Mk; cbn [fst];
    try discriminate.
  apply fs_mkdir_Ok in Mk. destruct (mkdir_p_find _ _ _ _ Mk) as (t2 & es2 & F2).
  replace ((s ++ x :: r) ++ [x]) with ((s ++ [x]) ++ (r ++ [x])) in *
    by (now rewrite <- !app_assoc).
  destruct (snoc_cons r x) as (y & q & E). rewrite E in *.
  eapply IH; eauto.
Qed.

(** X9: An overlay onto an existing directory that lies inside the source of
    the overlay never completes: each level of the recursion finds in its
    source the directory that the level above has just made in the
    destination, so that the call ends with an error or goes on for ever
    (whatever depth it is allowed, it exceeds it). *)
Theorem overlayDirectory_into_own_subdirectory fuel srcDir name below w t es :
  find (srcDir ++ name :: below) (root w) = Some (Dir t es) ->
  fst (overlayDirectory fuel srcDir (srcDir ++ name :: below) w) <> Ok tt.
Proof. apply overlayDirectory_inside_source. Qed.

Lemma overlayDirectory_into_own_subdirectory_witness :
  fst (overlayDirectory 50 ["mods"] ["mods"; "patch1"] Demo.fresh) = OutOfFuel.
Proof.
  pose proof (overlayDirectory_into_own_subdirectory 50 ["mods"] "patch1" [] Demo.fresh
                0%Z [("f", File 0 "v1")] eq_refl) as Never.
  destruct (fst (overlayDirectory 50 ["mods"] ["mods"; "patch1"] Demo.fresh))
    as [[]|e|] eqn:Run.
  - now elim Never.
  - vm_compute in Run. discriminate.
  - reflexivity.
Defined.

(** ** A file where the destination has a directory, or the reverse *)

Lemma listed_as_same e f ds :
  String.eqb (d_name e) f = true -> listed_as f (e :: ds) = Some (d_isDirectory e).
Proof. intros E. unfold listed_as. cbn [List.find]. now rewrite E. Qed.

Section OverlayConflict.
Variable recurse : path -> path -> M unit.
Hypothesis recurse_keeps :
  forall s d, keeping (fun q => apart d q = true) (recurse s d).

(** The loop does not complete when the entry named [x], at its turn,
    does not: the entries before it leave alone what it will meet. *)
Lemma overlayLoop_stuck s d x kind (seen : world -> Prop) ds :
  apart s d = true ->
  (forall w w', seen w -> (forall r, find (s ++ r) (root w') = find (s ++ r) (root w)) ->
                  (forall r, find (d ++ x :: r) (root w') = find (d ++ x :: r) (root w)) ->
                  seen w') ->
  (forall w, seen w ->
     fst (overlayEntry recurse s d {| d_name := x; d_isDirectory := kind |} w) <> Ok tt) ->
  listed_as x ds = Some kind ->
  forall w, seen w -> fst (for_each ds (overlayEntry recurse s d) w) <> Ok tt.
Proof.
  intros A Stable Stuck. induction ds as [|e ds IH]; intros L w Seen; [discriminate|].
  cbn [for_each]. unfold bind.
  destruct (overlayEntry recurse s d e w) as [[[]|err|] w1] eqn:B; cbn [fst];
    try discriminate.
  destruct (String.eqb (d_name e) x) eqn:Ex.
  - exfalso. rewrite (listed_as_same _ _ _ Ex) in L. inversion L; subst kind.
    apply String.eqb_eq in Ex. subst x. apply (Stuck w Seen).
    destruct e as [n k]. cbn [d_name d_isDirectory] in *. now rewrite B.
  - rewrite (listed_as_other _ _ _ Ex) in L. apply (IH L).
    apply (Stable w w1); [exact Seen| |].
    + intros r. exact (overlayEntry_source recurse recurse_keeps _ _ _ _ _ _ B A r).
    + intros r. pose proof (keeping_overlayEntry recurse s d e recurse_keeps w) as K.
      rewrite B in K. destruct K as (_ & _ & K). apply K. apply apart_siblings.
      intros Eq. rewrite Eq, String.eqb_refl in Ex. discriminate.
Qed.
End OverlayConflict.

Lemma overlayDirectory_conflict fuel : forall s d r w a b,
  apart s d = true -> r <> [] ->
  find (s ++ r) (root w) = Some a -> find (d ++ r) (root w) = Some b ->
  is_dir a <> is_dir b ->
  fst (overlayDirectory fuel s d w) <> Ok tt.
Proof.
  induction fuel as [|fuel IH]; intros s d r w a b A N Fa Fb K; [discriminate|].
  destruct r as [|x r]; [congruence|]. clear N.
  cbn [overlayDirectory]. unfold bind at 1.
  destruct (fs_readdir_types s w) as [[ds|e|] w1] eqn:Rd; cbn [fst]; try discriminate.
  apply fs_readdir_types_Ok in Rd. destruct Rd as (-> & t0 & es0 & Fs & ->).
  assert (Lx : exists c, lookup_entry x es0 = Some c /\ find r c = Some a).
  { change (s ++ x :: r) with (s ++ [x] ++ r) in Fa. rewrite app_assoc, find_app in Fa.
    rewrite (find_child _ _ _ _ _ Fs) in Fa.
    destruct (lookup_entry x es0) as [c|]; [eauto|discriminate]. }
  destruct Lx as (c & Lx & Fc).
  apply (overlayLoop_stuck (overlayDirectory fuel) (keeping_overlayDirectory fuel)
           s d x (is_dir c)
           (fun w' => find (s ++ x :: r) (root w') = Some a /\
                      find (d ++ x :: r) (root w') = Some b /\
                      find (s ++ [x]) (root w') = Some c)
           (dirents es0) A).
  - intros w0 w' (S1 & S2 & S3) Src Dst. repeat split.
    + now rewrite Src.
    + now rewrite Dst.
    + now rewrite Src.
  - intros w0 (S1 & S2 & S3). unfold overlayEntry. cbn [d_name d_isDirectory].
    destruct c as [tc vc|tc ec]; cbn [is_dir].
    + (* the source holds a file at [x], the destination a directory *)
      destruct r as [|y r]; [|discriminate].
      cbn in Fc. inversion Fc; subst a. cbn [is_dir] in K.
      destruct b as [|tb eb]; [now elim K|].
      unfold bind, fs_copyFile, guarded, rejected, throw.
      destruct (failing w0 CopyFile (s ++ [x])); cbn [fst]; [discriminate|].
      rewrite S3, S2. cbn [fst]. discriminate.
    + unfold bind.
      destruct (fs_mkdir (d ++ [x]) w0) as [[[]|e|] w2] eqn:Mk; cbn [fst]; try discriminate.
      apply fs_mkdir_Ok in Mk.
      destruct r as [|y r].
      * (* the source holds a directory at [x], the destination a file *)
        exfalso. cbn in Fc. inversion Fc; subst a. cbn [is_dir] in K.
        destruct b as [tb vb|]; [|now elim K].
        rewrite (mkdir_p_file _ _ _ _ _ S2) in Mk. discriminate.
      * (* the conflict lies deeper: the recursion meets it *)
        assert (Dx : exists t1 e1, find (d ++ [x]) (root w0) = Some (Dir t1 e1)).
        { change (d ++ x :: y :: r) with (d ++ [x] ++ y :: r) in S2. rewrite app_assoc in S2.
          eapply find_prefix_dir; [exact S2|discriminate]. }
        destruct Dx as (t1 & e1 & Dx).
        rewrite (mkdir_p_existing _ _ _ _ _ Dx) in Mk. inversion Mk as [R2].
        apply (IH (s ++ [x]) (d ++ [x]) (y :: r) w2 a b).
        -- apply apart_app_l, apart_app_r. exact A.
        -- discriminate.
        -- rewrite <- R2, <- app_assoc. exact S1.
        -- rewrite <- R2, <- app_assoc. exact S2.
        -- exact K.
  - now apply listed_as_dirents.
  - repeat split; auto. now rewrite (find_child _ _ _ _ _ Fs).
Qed.

(** X20: An overlay whose source holds a file where the destination holds a
    directory, or a directory where the destination holds a file, at the
    same relative path of any depth, never returns: no step of it removes
    or replaces an entry of the other kind, so it ends with an error or at
    the depth bound.  (The two directories do not overlap.) *)
Theorem overlayDirectory_kind_conflict fuel srcDir destDir w r a b :
  apart srcDir destDir = true -> r <> [] ->
  find (srcDir ++ r) (root w) = Some a ->
  find (destDir ++ r) (root w) = Some b ->
  is_dir a <> is_dir b ->
  fst (overlayDirectory fuel srcDir destDir w) <> Ok tt.
Proof. apply overlayDirectory_conflict. Qed.

Lemma overlayDirectory_kind_conflict_witness :
  fst (overlayDirectory 5 ["patch"] ["base"] clashing)
  = Throw (FsError "EISDIR" CopyFile ["base"; "units"]).
Proof.
  pose proof (overlayDirectory_kind_conflict 5 ["patch"] ["base"] clashing ["units"]
                (File 0 "not a directory") (Dir 0 [("tank.lua", File 0 "base tank")])
                eq_refl ltac:(discriminate) eq_refl eq_refl ltac:(discriminate)) as Never.
  destruct (fst (overlayDirectory 5 ["patch"] ["base"] clashing)) as [[]|e|] eqn:Run.
  - now elim Never.
  - vm_compute in Run. exact (eq_sym Run).
  - vm_compute in Run. discriminate.
Defined.

(** ** The mod sections of a script *)

Lemma string_app_nil_r (s : string) : (s ++ "")%string = s.
Proof. induction s as [|c s IH]; cbn; congruence. Qed.

Lemma forEach_from_app {A V} (xs ys : list A) (body : A -> nat -> V -> V) index state :
  forEach_from index (xs ++ ys) body state
  = forEach_from (index + length xs) ys body (forEach_from index xs body state).
Proof.
  revert index state. induction xs as [|x xs IH]; intros index state; cbn.
  - now rewrite Nat.add_0_r.
  - rewrite IH. f_equal. lia.
Qed.

Lemma hasMods_cons m ms : hasMods (m :: ms) = true.
Proof. reflexivity. Qed.

Lemma hasMods_snoc ms m : hasMods (ms ++ [m]) = true.
Proof. unfold hasMods. rewrite length_app, Nat.add_1_r. reflexivity. Qed.

(** X14: The script content is built section by section in the order of the
    selection: without a mod it is empty, and one more mod at the end of
    the selection adds after the content of the others one section, which
    is numbered with the position of the mod, counted from 0, and names its
    short name and the last component of its install path. *)
Theorem generateModScriptContent_sections :
  generateModScriptContent [] = "" /\
  forall selectedMods mod_,
    generateModScriptContent (selectedMods ++ [mod_])
    = (generateModScriptContent selectedMods
       ++ newline ++ "[MUTATOR" ++ string_of_nat (length selectedMods) ++ "]" ++ newline
       ++ "{" ++ newline
       ++ "    Name=" ++ shortname mod_ ++ ";" ++ newline
       ++ "    Archive=" ++ archiveName mod_ ++ ";" ++ newline
       ++ "}" ++ newline)%string.
Proof.
  split; [reflexivity|]. intros ms m.
  unfold generateModScriptContent. rewrite hasMods_snoc. cbn [negb].
  unfold forEach. rewrite forEach_from_app. cbn [forEach_from Nat.add].
  destruct ms as [|m0 ms].
  - change (hasMods []) with false. cbn [negb forEach_from].
    rewrite !string_app_assoc. reflexivity.
  - rewrite hasMods_cons. cbn [negb]. rewrite !string_app_assoc. reflexivity.
Qed.

(** ** The archive name *)

Lemma split_where_cons sep s : exists seg segs, split_where sep s = seg :: segs.
Proof.
  induction s as [|c s (seg & segs & E)]; cbn; eauto.
  destruct (sep c); eauto. rewrite E. eauto.
Qed.

Lemma lastPart_last parts : parts <> [] -> lastPart parts = last parts "".
Proof.
  intros N. unfold lastPart.
  assert (E : nth_error parts (length parts - 1) = Some (last parts "")).
  { induction parts as [|p parts IH]; [congruence|].
    destruct parts as [|q parts]; [reflexivity|].
    replace (length (p :: q :: parts) - 1) with (S (length (q :: parts) - 1))
      by (cbn [length]; lia).
    cbn [nth_error]. rewrite IH by discriminate. reflexivity. }
  now rewrite E.
Qed.

Lemma split_where_plain sep s :
  all_chars (fun c => negb (sep c)) s = true -> split_where sep s = [s].
Proof.
  induction s as [|x s IH]; cbn; [reflexivity|]. intros H.
  apply andb_true_iff in H. destruct H as [H1 H2].
  apply negb_true_iff in H1. rewrite H1, (IH H2). reflexivity.
Qed.

Lemma split_where_single sep s seg :
  split_where sep s = [seg] -> seg = s /\ all_chars (fun c => negb (sep c)) s = true.
Proof.
  revert seg. induction s as [|c s IH]; cbn; intros seg E.
  - inversion E. auto.
  - destruct (split_where_cons sep s) as (seg' & segs & E'). rewrite E' in *.
    destruct (sep c); [discriminate|]. inversion E; subst.
    destruct (IH _ eq_refl) as [-> A]. rewrite A. auto.
Qed.

Lemma separator_in_front sep : forall (d : string) c t,
  all_chars (fun c => negb (sep c)) ((d ++ String c "") ++ t)%string = true ->
  sep c = true -> False.
Proof.
  induction d as [|x d IH]; cbn; intros c t H S.
  - rewrite S in H. discriminate.
  - apply andb_true_iff in H. destruct H as [_ H]. eauto.
Qed.

(** The last part of a split: the longest suffix without a separator. *)
Lemma split_where_last sep s :
  all_chars (fun c => negb (sep c)) (last (split_where sep s) "") = true /\
  exists front,
    s = (front ++ last (split_where sep s) "")%string /\
    (front = "" \/ exists d c, front = (d ++ String c "")%string /\ sep c = true).
Proof.
  induction s as [|c s (IH1 & front & IH2 & IH3)].
  - cbn. split; [reflexivity|]. exists "". auto.
  - cbn [split_where]. destruct (split_where_cons sep s) as (seg & segs & E).
    destruct (sep c) eqn:Sc.
    + rewrite E in *. cbn [last] in *. split; [exact IH1|].
      exists (String c front). split; [cbn; congruence|]. right.
      destruct IH3 as [->|(d & c' & -> & Sc')].
      * exists "", c. auto.
      * exists (String c d), c'. auto.
    + rewrite E in *. destruct segs as [|seg' segs].
      * destruct (split_where_single _ _ _ E) as [-> A].
        cbn [last]. split; [cbn; now rewrite Sc, A|]. exists "". auto.
      * cbn [last] in *. split; [exact IH1|].
        exists (String c front). split; [cbn; congruence|]. right.
        destruct IH3 as [->|(d & c' & -> & Sc')].
        -- exfalso. cbn in IH2. rewrite <- IH2 in IH1.
           rewrite (split_where_plain _ _ IH1) in E. discriminate.
        -- exists (String c d), c'. auto.
Qed.

(** X15: The archive name of a mod is what follows the last separator, slash or
    backslash, of its install path (the whole path when it has none, and
    the empty word when the path ends with a separator): it holds no
    separator, and the install path is the archive name after a front that
    is empty or ends with a separator.  In particular [pathParts] is never
    empty, so that the name is never [undefined]. *)
Theorem archiveName_is_last_component mod_ :
  all_chars (fun c => negb (isSeparator c)) (archiveName mod_) = true /\
  exists front,
    installPath mod_ = (front ++ archiveName mod_)%string /\
    (front = "" \/ exists d c, front = (d ++ String c "")%string /\ isSeparator c = true).
Proof.
  unfold archiveName. rewrite lastPart_last.
  - apply split_where_last.
  - destruct (split_where_cons isSeparator (installPath mod_)) as (seg & segs & E).
    rewrite E. discriminate.
Qed.

(** ** The archive name and the directory that the service overlays *)

Lemma split_where_split_on s :
  includes s "\" = false -> split_where isSeparator s = split_on "/" s.
Proof.
  induction s as [|c s IH]; [reflexivity|]. cbn [includes String.prefix]. intros H.
  apply orb_false_iff in H. destruct H as [H1 H2]. cbn [split_where split_on].
  rewrite (IH H2). unfold isSeparator, RegExp.byte_is.
  destruct (Ascii.eqb_spec c "/") as [->|N]; [reflexivity|].
  assert (X : (N_of_ascii c =? 47)%N = false).
  { apply N.eqb_neq. intros E. apply N. rewrite <- (ascii_N_embedding c), E. reflexivity. }
  assert (Y : (N_of_ascii c =? 92)%N = false).
  { apply N.eqb_neq. intros E.
    assert (c = "\"%char) by (rewrite <- (ascii_N_embedding c), E; reflexivity). subst c.
    revert H1. destruct (Ascii.ascii_dec "\" "\"); [destruct s; discriminate|congruence]. }
  rewrite X, Y. reflexivity.
Qed.

Lemma fold_push_last segs : forall p,
  segs <> [] -> last segs "" <> "" -> last segs "" <> "." -> last segs "" <> ".." ->
  exists parent, fold_left push_segment segs p = parent ++ [last segs ""].
Proof.
  induction segs as [|seg segs IH]; intros p N A B C; [congruence|].
  destruct segs as [|seg' segs].
  - cbn [last fold_left] in *. unfold push_segment.
    destruct (String.eqb_spec seg ""); [congruence|].
    destruct (String.eqb_spec seg "."); [congruence|].
    destruct (String.eqb_spec seg ".."); [congruence|]. eauto.
  - cbn [fold_left]. apply IH; auto. discriminate.
Qed.

(** X16: For an install path without backslash whose last component is a plain
    name (not empty, not [.] nor [..]), the archive name that the script
    gets is the name of the directory that the service overlays for this
    mod. *)
Theorem archiveName_names_overlay_directory cfg mod_ :
  includes (installPath mod_) "\" = false ->
  archiveName mod_ <> "" -> archiveName mod_ <> "." -> archiveName mod_ <> ".." ->
  exists parent,
    resolve (process_cwd cfg) (installPath mod_) = parent ++ [archiveName mod_].
Proof.
  intros NB A B C. unfold archiveName in *.
  destruct (split_where_cons isSeparator (installPath mod_)) as (seg & segs & E).
  rewrite lastPart_last in * by (rewrite E; discriminate).
  rewrite (split_where_split_on _ NB) in *.
  unfold resolve, join_path.
  destruct (String.prefix "/" (installPath mod_)); apply fold_push_last; auto;
    rewrite E; discriminate.
Qed.

Lemma archiveName_names_overlay_directory_witness :
  exists parent, resolve ["app"] "/mods/patch1" = parent ++ ["patch1"].
Proof.
  apply (archiveName_names_overlay_directory Demo.cfg Demo.overlay1).
  - reflexivity.
  - vm_compute. discriminate.
  - vm_compute. discriminate.
  - vm_compute. discriminate.
Defined.

(** ** The gametype line of a script *)

Section Scripts.
Local Open Scope string_scope.

Lemma byte_is_eqb c n : (n < 256)%N -> RegExp.byte_is c n = Ascii.eqb c (ascii_of_N n).
Proof.
  intros H. unfold RegExp.byte_is. destruct (Ascii.eqb_spec c (ascii_of_N n)) as [->|N].
  - rewrite N_ascii_embedding by exact H. apply N.eqb_refl.
  - apply N.eqb_neq. intros E. apply N. now rewrite <- E, ascii_N_embedding.
Qed.

Lemma isTerminator_spec c : existsb (Ascii.eqb c) terminators = isTerminator c.
Proof.
  unfold isTerminator, terminators. cbn [existsb].
  rewrite !byte_is_eqb by reflexivity. now rewrite orb_false_r, orb_assoc.
Qed.

Lemma toLowerCase_app s t : toLowerCase (s ++ t) = toLowerCase s ++ toLowerCase t.
Proof. induction s as [|c s IH]; cbn; congruence. Qed.

(** *** Where the pattern cannot match *)

Lemma word_i_prefix w : forall s k r,
  RegExp.word_i w s k = Some r -> prefix (toLowerCase w) (toLowerCase s) = true.
Proof.
  induction w as [|c w IH]; intros s k r H.
  - destruct s; reflexivity.
  - cbn [RegExp.word_i] in H. unfold RegExp.seq, RegExp.one, RegExp.char_i in H.
    destruct s as [|x s]; [discriminate|].
    destruct (Ascii.eqb_spec (lower_ascii x) (lower_ascii c)) as [E|]; [|discriminate].
    apply IH in H. cbn [toLowerCase prefix]. rewrite E.
    destruct (ascii_dec (lower_ascii c) (lower_ascii c)); [exact H|congruence].
Qed.

Lemma gametypeLine_needs_word s r :
  gametypeLine s Some = Some r -> prefix "gametype" (toLowerCase s) = true.
Proof.
  unfold gametypeLine, RegExp.seq at 1. intros H. now apply word_i_prefix in H.
Qed.

Lemma exec_from_none re : forall s before,
  (forall i, re (substring i (String.length s - i) s) Some = None) ->
  RegExp.exec_from re before s = None.
Proof.
  induction s as [|c s IH]; intros before H.
  - pose proof (H 0) as H0. cbn in H0. cbn. now rewrite H0.
  - cbn [RegExp.exec_from]. pose proof (H 0) as H0. cbn [String.length Nat.sub substring] in H0.
    assert (E : substring 0 (String.length s) s = s).
    { clear. induction s as [|c s IH]; cbn; congruence. }
    rewrite E in H0. rewrite H0. apply IH. intros i. exact (H (S i)).
Qed.

Lemma includes_substring sub : forall s i,
  includes s sub = false -> includes (substring i (String.length s - i) s) sub = false.
Proof.
  induction s as [|c s IH]; intros i H.
  - destruct i; exact H.
  - destruct i as [|i].
    + cbn [String.length Nat.sub].
      assert (E : substring 0 (S (String.length s)) (String c s) = String c s).
      { cbn. f_equal. clear. induction s as [|c s IH]; cbn; congruence. }
      now rewrite E.
    + cbn [String.length Nat.sub substring]. apply IH.
      cbn [includes] in H. apply orb_false_iff in H. tauto.
Qed.

Lemma toLowerCase_substring i n : forall s,
  toLowerCase (substring i n s) = substring i n (toLowerCase s).
Proof.
  revert n. induction i as [|i IH]; intros n s.
  - revert s. induction n as [|n IHn]; intros [|c s]; cbn; try reflexivity. now rewrite IHn.
  - destruct s as [|c s]; cbn; [reflexivity|apply IH].
Qed.

Lemma toLowerCase_length s : String.length (toLowerCase s) = String.length s.
Proof. induction s as [|c s IH]; cbn; congruence. Qed.

Lemma includes_prefix s sub : includes s sub = false -> prefix sub s = false.
Proof. destruct s; cbn [includes]; intros H; apply orb_false_iff in H; tauto. Qed.

Lemma exec_without_word script :
  includes (toLowerCase script) "gametype" = false ->
  RegExp.exec gametypeLine script = None.
Proof.
  intros H. apply exec_from_none. intros i.
  destruct (gametypeLine (substring i (String.length script - i) script) Some) as [r|] eqn:E;
    [|reflexivity].
  apply gametypeLine_needs_word in E.
  rewrite toLowerCase_substring, <- (toLowerCase_length script) in E.
  pose proof (includes_substring "gametype" _ i H) as X.
  apply includes_prefix in X. congruence.
Qed.

(** *** Where the pattern matches *)

Lemma word_i_app w : forall key s k,
  toLowerCase key = toLowerCase w -> RegExp.word_i w (key ++ s) k = k s.
Proof.
  induction w as [|c w IH]; intros [|x key] s k E; try discriminate.
  - reflexivity.
  - cbn in E. inversion E as [[E1 E2]]. cbn [RegExp.word_i append].
    unfold RegExp.seq, RegExp.one, RegExp.char_i. rewrite E1, Ascii.eqb_refl.
    now apply IH.
Qed.

Lemma length_app_le (s t : string) : String.length s <= String.length (s ++ t).
Proof. induction s; cbn; lia. Qed.

(** A greedy repetition over a run of characters that the item takes one
    by one stops behind the run, when the item refuses what follows and the
    continuation accepts it there. *)
Lemma repeat_greedy (a : RegExp.item) (P : ascii -> bool) k rest x :
  (forall c s, P c = true -> a (String c s) = Some s) ->
  a rest = None -> k rest = Some x ->
  forall run bound, all_chars P run = true -> String.length run <= bound ->
    RegExp.repeat_at_most bound a (run ++ rest) k = Some x.
Proof.
  intros Takes Stops Accepts. induction run as [|c run IH]; intros bound A L.
  - cbn [append]. destruct bound; cbn; [exact Accepts|]. now rewrite Stops.
  - cbn [all_chars] in A. apply andb_true_iff in A. destruct A as [A1 A2].
    destruct bound as [|bound]; [cbn in L; lia|].
    cbn [append RegExp.repeat_at_most]. rewrite (Takes _ _ A1).
    rewrite IH; auto. cbn in L. lia.
Qed.

Lemma star_greedy (a : RegExp.item) (P : ascii -> bool) k rest x run :
  (forall c s, P c = true -> a (String c s) = Some s) ->
  a rest = None -> k rest = Some x -> all_chars P run = true ->
  RegExp.star a (run ++ rest) k = Some x.
Proof.
  intros. unfold RegExp.star. eapply repeat_greedy; eauto. apply length_app_le.
Qed.

Lemma white_blank c s : isBlank c = true -> RegExp.white (String c s) = Some s.
Proof.
  unfold isBlank, RegExp.byte_is, RegExp.white. intros H.
  apply orb_true_iff in H. destruct H as [H|H]; apply N.eqb_eq in H; rewrite H; reflexivity.
Qed.

Lemma white_graphic c s : isGraphic c = true -> RegExp.white (String c s) = None.
Proof.
  unfold isGraphic, RegExp.white, RegExp.byte_is. intros H.
  apply andb_true_iff in H. destruct H as [H1 H2].
  apply N.leb_le in H1. apply N.leb_le in H2.
  assert (A : (((9 <=? N_of_ascii c) && (N_of_ascii c <=? 13))%N
               || (N_of_ascii c =? 32)%N) = false).
  { apply orb_false_iff. split.
    - apply andb_false_iff. right. apply N.leb_gt. lia.
    - apply N.eqb_neq. lia. }
  rewrite A.
  assert (B : forall n, (127 <= n)%N -> (N_of_ascii c =? n)%N = false).
  { intros n Hn. apply N.eqb_neq. lia. }
  destruct s as [|c2 [|c3 s]]; [reflexivity| |];
    rewrite ?(B 0xC2%N), ?(B 0xE1%N), ?(B 0xE2%N), ?(B 0xE3%N), ?(B 0xEF%N) by lia;
    reflexivity.
Qed.

Lemma none_of_plain c s :
  isTerminator c = false -> RegExp.none_of terminators (String c s) = Some s.
Proof. intros H. unfold RegExp.none_of. now rewrite isTerminator_spec, H. Qed.

Lemma none_of_terminator c s :
  isTerminator c = true -> RegExp.none_of terminators (String c s) = None.
Proof. intros H. unfold RegExp.none_of. now rewrite isTerminator_spec, H. Qed.

Lemma any_of_terminator c s :
  isTerminator c = true -> RegExp.any_of terminators (String c s) = Some s.
Proof. intros H. unfold RegExp.any_of. now rewrite isTerminator_spec, H. Qed.

Lemma gametypeLine_matches key blanks1 blanks2 value terminator after :
  wellFormedLine key blanks1 blanks2 value terminator = true ->
  gametypeLine (gametypeAssignment key blanks1 blanks2 value terminator ++ after) Some
  = Some after.
Proof.
  unfold wellFormedLine, gametypeAssignment. intros H.
  repeat (apply andb_true_iff in H; destruct H as [H ?]).
  apply String.eqb_eq in H.
  destruct value as [|v0 value]; [discriminate|].
  match goal with A : all_chars _ (String v0 value) = true |- _ =>
    cbn [all_chars] in A; apply andb_true_iff in A; destruct A as [V0 V] end.
  apply negb_true_iff in V0.
  rewrite !string_app_assoc. unfold gametypeLine. fold terminators.
  unfold RegExp.seq at 1. rewrite word_i_app by exact H.
  unfold RegExp.seq at 1.
  apply (star_greedy RegExp.white isBlank);
    [exact white_blank | apply white_graphic; reflexivity | | assumption].
  cbn [append]. unfold RegExp.seq at 1, RegExp.one at 1, RegExp.char_i.
  change (Ascii.eqb (lower_ascii "=") (lower_ascii "=")) with true. cbv iota.
  unfold RegExp.seq at 1.
  apply (star_greedy RegExp.white isBlank);
    [exact white_blank | cbn [append]; now apply white_graphic | | assumption].
  cbn [append]. unfold RegExp.seq at 1, RegExp.plus, RegExp.seq at 1, RegExp.one at 1.
  rewrite (none_of_plain _ _ V0).
  apply (star_greedy (RegExp.none_of terminators) (fun c => negb (isTerminator c))).
  - intros c s Hc. apply none_of_plain. now apply negb_true_iff.
  - cbn [append]. now apply none_of_terminator.
  - cbn [append]. unfold RegExp.one. now rewrite any_of_terminator.
  - assumption.
Qed.

(** *** The first match *)

Lemma prefix_app_long w : forall s t,
  String.length w <= String.length s -> prefix w (s ++ t) = prefix w s.
Proof.
  induction w as [|c w IH]; intros s t L.
  - destruct s, t; reflexivity.
  - destruct s as [|x s]; [cbn in L; lia|]. cbn [append prefix].
    destruct (ascii_dec c x); [|reflexivity]. apply IH. cbn in L. lia.
Qed.

(** The key word has no proper suffix that is a prefix of it: a match
    cannot begin before a key word and end inside it. *)
Lemma no_straddle s t :
  0 < String.length s < 8 -> prefix "gametype" (s ++ String "g" t) = false.
Proof.
  intros [L1 L2].
  destruct s as [|c1 s]; [cbn in L1; lia|].
  cbn [append prefix]. destruct (ascii_dec "g" c1); [|reflexivity].
  destruct s as [|c2 s]; [reflexivity|].
  cbn [append prefix]. destruct (ascii_dec "a" c2); [|reflexivity].
  destruct s as [|c3 s]; [reflexivity|].
  cbn [append prefix]. destruct (ascii_dec "m" c3); [|reflexivity].
  destruct s as [|c4 s]; [reflexivity|].
  cbn [append prefix]. destruct (ascii_dec "e" c4); [|reflexivity].
  destruct s as [|c5 s]; [reflexivity|].
  cbn [append prefix]. destruct (ascii_dec "t" c5); [|reflexivity].
  destruct s as [|c6 s]; [reflexivity|].
  cbn [append prefix]. destruct (ascii_dec "y" c6); [|reflexivity].
  destruct s as [|c7 s]; [reflexivity|].
  cbn [append prefix]. destruct (ascii_dec "p" c7); [|reflexivity].
  destruct s as [|c8 s]; [reflexivity|]. cbn in L2. lia.
Qed.

Lemma no_match_before before key rest :
  includes (toLowerCase before) "gametype" = false ->
  toLowerCase key = "gametype" -> before <> "" ->
  gametypeLine (before ++ key ++ rest) Some = None.
Proof.
  intros I K N.
  destruct (gametypeLine (before ++ key ++ rest) Some) as [r|] eqn:E; [|reflexivity].
  apply gametypeLine_needs_word in E. rewrite !toLowerCase_app, K in E.
  apply includes_prefix in I.
  destruct (Nat.le_gt_cases 8 (String.length (toLowerCase before))) as [L|L].
  - rewrite prefix_app_long in E by exact L. congruence.
  - cbn [append] in E. rewrite no_straddle in E; [discriminate|]. split; [|exact L].
    rewrite toLowerCase_length. destruct before; [congruence|cbn; lia].
Qed.

Lemma substring_front (m : string) : forall p,
  substring 0 (String.length (m ++ p) - String.length p) (m ++ p) = m.
Proof.
  induction m as [|c m IH]; intros p.
  - cbn [append]. rewrite Nat.sub_diag. destruct p; reflexivity.
  - cbn [append String.length].
    assert (L : String.length p <= String.length (m ++ p)).
    { clear. induction m; cbn; lia. }
    rewrite Nat.sub_succ_l by exact L. cbn [substring]. now rewrite IH.
Qed.

Lemma exec_first_line key blanks1 blanks2 value terminator after :
  wellFormedLine key blanks1 blanks2 value terminator = true ->
  forall before done,
    includes (toLowerCase before) "gametype" = false ->
    RegExp.exec_from gametypeLine done
      (before ++ gametypeAssignment key blanks1 blanks2 value terminator ++ after)
    = Some (done ++ before, gametypeAssignment key blanks1 blanks2 value terminator, after).
Proof.
  intros W. induction before as [|c before IH]; intros done I.
  - cbn [append]. assert (E : RegExp.exec_from gametypeLine done
        (gametypeAssignment key blanks1 blanks2 value terminator ++ after)
      = Some (done, substring 0 (String.length (gametypeAssignment key blanks1 blanks2 value
                                                   terminator ++ after)
                                 - String.length after)
                      (gametypeAssignment key blanks1 blanks2 value terminator ++ after), after)).
    { destruct (gametypeAssignment key blanks1 blanks2 value terminator ++ after) eqn:G;
        cbn [RegExp.exec_from]; rewrite <- G, (gametypeLine_matches _ _ _ _ _ _ W); reflexivity. }
    rewrite E, substring_front, string_app_nil_r. reflexivity.
  - assert (K : toLowerCase key = "gametype").
    { unfold wellFormedLine in W. repeat (apply andb_true_iff in W; destruct W as [W ?]).
      now apply String.eqb_eq. }
    assert (Nm : gametypeLine (String c before
                     ++ gametypeAssignment key blanks1 blanks2 value terminator ++ after) Some
                 = None).
    { unfold gametypeAssignment. rewrite !string_app_assoc.
      apply no_match_before; auto. discriminate. }
    cbn [append] in *. cbn [RegExp.exec_from]. rewrite Nm.
    rewrite IH.
    + now rewrite string_app_assoc.
    + cbn [toLowerCase includes] in I. apply orb_false_iff in I. tauto.
Qed.

(** *** The replacement text *)

Lemma getSubstitution_plain matched before after : forall template,
  includes template "$" = false ->
  RegExp.getSubstitution matched before after template = template.
Proof.
  induction template as [|c t IH]; [reflexivity|]. intros H.
  cbn [includes prefix] in H. apply orb_false_iff in H. destruct H as [H1 H2].
  cbn [RegExp.getSubstitution].
  assert (E : RegExp.byte_is c 36 = false).
  { rewrite byte_is_eqb by reflexivity. destruct (Ascii.eqb_spec c (ascii_of_N 36)) as [->|];
      [|reflexivity].
    revert H1. change (ascii_of_N 36) with "$"%char.
    destruct (ascii_dec "$" "$"); [destruct t; discriminate|congruence]. }
  rewrite E. now rewrite IH.
Qed.

Lemma getSubstitution_app matched before after : forall front template,
  includes front "$" = false ->
  RegExp.getSubstitution matched before after (front ++ template)
  = front ++ RegExp.getSubstitution matched before after template.
Proof.
  induction front as [|c t IH]; [reflexivity|]. intros template H.
  cbn [includes prefix] in H. apply orb_false_iff in H. destruct H as [H1 H2].
  cbn [RegExp.getSubstitution append].
  assert (E : RegExp.byte_is c 36 = false).
  { rewrite byte_is_eqb by reflexivity. destruct (Ascii.eqb_spec c (ascii_of_N 36)) as [->|];
      [|reflexivity].
    revert H1. change (ascii_of_N 36) with "$"%char.
    destruct (ascii_dec "$" "$"); [destruct t; discriminate|congruence]. }
  rewrite E. now rewrite IH.
Qed.

Lemma injectModsIntoScript_first_line mod_ before key blanks1 blanks2 value terminator after :
  includes (toLowerCase before) "gametype" = false ->
  wellFormedLine key blanks1 blanks2 value terminator = true ->
  fst (injectModsIntoScript [mod_]
         (before ++ gametypeAssignment key blanks1 blanks2 value terminator ++ after))
  = before
    ++ RegExp.getSubstitution (gametypeAssignment key blanks1 blanks2 value terminator)
         before after ("gametype = " ++ archiveName mod_ ++ ";" ++ newline)
    ++ after.
Proof.
  intros I W. unfold injectModsIntoScript. cbn [hasMods length Nat.ltb Nat.leb negb Nat.eqb fst].
  unfold RegExp.replace, RegExp.exec. rewrite (exec_first_line _ _ _ _ _ _ W before "" I).
  reflexivity.
Qed.

End Scripts.

(** X17: injectModsIntoScript returns the script as it is unless exactly one
    mod is selected and the script holds the word gametype, in any case:
    without a mod, with two mods or more (which are not injected), and for
    a script without that word. *)
Theorem injectModsIntoScript_unchanged selectedMods script :
  length selectedMods <> 1 \/ includes (toLowerCase script) "gametype" = false ->
  fst (injectModsIntoScript selectedMods script) = script.
Proof.
  intros H. unfold injectModsIntoScript.
  destruct selectedMods as [|m [|m' ms]]; try reflexivity.
  destruct H as [H|H]; [now elim H|].
  cbn [hasMods length Nat.ltb Nat.leb negb Nat.eqb fst].
  unfold RegExp.replace. now rewrite (exec_without_word _ H).
Qed.

Lemma injectModsIntoScript_unchanged_witness :
  fst (injectModsIntoScript [Demo.overlay1; Demo.overlay2] startScript) = startScript.
Proof.
  apply (injectModsIntoScript_unchanged [Demo.overlay1; Demo.overlay2] startScript).
  left. discriminate.
Defined.

(** X18: With exactly one mod selected, the first gametype line of the script
    is replaced, terminator included, by the line "gametype = <archive
    name>;" and a line feed, and the rest of the script, later gametype
    lines too, stays as it is.  The line is the key word in any case,
    optional blanks, the equals sign, optional blanks, a value that begins
    with a visible character, and the semicolon or line end that follows;
    the archive name holds no dollar sign. *)
Theorem injectModsIntoScript_sets_gametype
    mod_ before key blanks1 blanks2 value terminator after :
  includes (toLowerCase before) "gametype" = false ->
  wellFormedLine key blanks1 blanks2 value terminator = true ->
  includes (archiveName mod_) "$" = false ->
  fst (injectModsIntoScript [mod_]
         (before ++ gametypeAssignment key blanks1 blanks2 value terminator ++ after)%string)
  = (before ++ "gametype = " ++ archiveName mod_ ++ ";" ++ newline ++ after)%string.
Proof.
  intros I W D. rewrite (injectModsIntoScript_first_line _ _ _ _ _ _ _ _ I W).
  rewrite (getSubstitution_app _ _ _ "gametype = ") by reflexivity.
  rewrite (getSubstitution_app _ _ _ (archiveName mod_)) by exact D.
  rewrite getSubstitution_plain by reflexivity.
  now rewrite !string_app_assoc.
Qed.

Lemma injectModsIntoScript_sets_gametype_witness :
  fst (injectModsIntoScript [Demo.overlay1] startScript)
  = ("[game]" ++ newline ++ "{" ++ newline
     ++ "    mapname=Red Comet;" ++ newline
     ++ "    gametype = patch1;" ++ newline ++ newline
     ++ "    gametype=ignored;" ++ newline
     ++ "}" ++ newline)%string.
Proof.
  apply (injectModsIntoScript_sets_gametype Demo.overlay1
           ("[game]" ++ newline ++ "{" ++ newline ++ "    mapname=Red Comet;" ++ newline
            ++ "    ")%string
           "GameType" " " " " "Beyond All Reason test-25000" ";"
           (newline ++ "    gametype=ignored;" ++ newline ++ "}" ++ newline)%string).
  - vm_compute. reflexivity.
  - vm_compute. reflexivity.
  - vm_compute. reflexivity.
Defined.

(** X19: The archive name is used as a replacement pattern: where it holds two
    dollar signs in a row, the line that is written holds one. *)
Theorem injectModsIntoScript_dollars
    mod_ front back before key blanks1 blanks2 value terminator after :
  includes (toLowerCase before) "gametype" = false ->
  wellFormedLine key blanks1 blanks2 value terminator = true ->
  archiveName mod_ = (front ++ "$$" ++ back)%string ->
  includes front "$" = false -> includes back "$" = false ->
  fst (injectModsIntoScript [mod_]
         (before ++ gametypeAssignment key blanks1 blanks2 value terminator ++ after)%string)
  = (before ++ "gametype = " ++ front ++ "$" ++ back ++ ";" ++ newline ++ after)%string.
Proof.
  intros I W E F B. rewrite (injectModsIntoScript_first_line _ _ _ _ _ _ _ _ I W), E.
  rewrite (getSubstitution_app _ _ _ "gametype = ") by reflexivity.
  rewrite !string_app_assoc.
  rewrite (getSubstitution_app _ _ _ front) by exact F.
  change (RegExp.getSubstitution ?m ?b ?a ("$$" ++ ?t)%string)
    with (String "$" (RegExp.getSubstitution m b a t)).
  rewrite (getSubstitution_app _ _ _ back) by exact B.
  rewrite getSubstitution_plain by reflexivity.
  rewrite !string_app_assoc. cbn [append]. rewrite ?string_app_assoc. reflexivity.
Qed.

Lemma injectModsIntoScript_dollars_witness :
  fst (injectModsIntoScript [moved Demo.overlay1 "/mods/cash$$grab.sdd"] "gametype=x;")
  = ("gametype = cash$grab.sdd;" ++ newline)%string.
Proof.
  apply (injectModsIntoScript_dollars (moved Demo.overlay1 "/mods/cash$$grab.sdd")
           "cash" "grab.sdd" "" "gametype" "" "" "x" ";" "").
  - reflexivity.
  - vm_compute. reflexivity.
  - vm_compute. reflexivity.
  - reflexivity.
  - reflexivity.
Defined.
